(** * Support templates: placeholder engine and persistence adapter

    A shallow embedding of [src/utils/templateProcessor.ts] (placeholder
    extraction, validation and substitution) and [src/utils/storage.ts]
    (the chrome.storage wrapper with JSON export and import), with the
    properties of the specification stated and proved over it.

    JavaScript strings are sequences of UTF-16 code units; they are modelled
    as [list N], one element per code unit.  Regular expressions without the
    [u] flag, [String.prototype.trim] and [Array.prototype.includes] all work
    on code units, so nothing is lost. *)

From Stdlib Require Import ZArith NArith List Lia Bool.
From Stdlib Require Import Strings.String Strings.Ascii DecimalString.
From Stdlib Require Import DecimalN DecimalPos DecimalFacts.
From Stdlib Require Import Floats.
From stdpp Require Import base option list gmap.

#[local] Set Warnings "-clear-no-such-hyp,-register-all".
Local Open Scope N_scope.

(** * Part I: the program *)

(** ** Strings *)

Abbreviation jsstring := (list N).

(** A string literal of the source, as code units (ASCII literals only). *)
Fixpoint lit (s : string) : jsstring :=
  match s with
  | EmptyString => []
  | String a s' => N_of_ascii a :: lit s'
  end.

(** WhiteSpace and LineTerminator code points of ECMAScript, the ones
    [String.prototype.trim] strips: TAB, LF, VT, FF, CR, SP, NBSP, U+1680,
    U+2000 to U+200A, LS, PS, U+202F, U+205F, U+3000 and the BOM U+FEFF. *)
Definition is_white_space (c : N) : bool :=
  ((9 <=? c) && (c <=? 13)) || (c =? 32) || (c =? 160) || (c =? 5760)
  || ((8192 <=? c) && (c <=? 8202)) || (c =? 8232) || (c =? 8233)
  || (c =? 8239) || (c =? 8287) || (c =? 12288) || (c =? 65279).

Fixpoint trimStart (s : jsstring) : jsstring :=
  match s with
  | c :: s' => if is_white_space c then trimStart s' else s
  | [] => []
  end.

Definition trimEnd (s : jsstring) : jsstring := rev (trimStart (rev s)).

(** [String.prototype.trim]. *)
Definition trim (s : jsstring) : jsstring := trimEnd (trimStart s).

(** [Array.prototype.includes] on an array of strings (SameValueZero on
    strings is equality of the code unit sequences). *)
Definition includes (l : list jsstring) (x : jsstring) : bool :=
  bool_decide (x ∈ l).

(** Truthiness of a string: every string but the empty one. *)
Definition truthy_string (s : jsstring) : bool :=
  match s with [] => false | _ :: _ => true end.

(** ** The regular expression [/\{\{([^}]+)\}\}/g]

    The matcher follows the backtracking semantics of ECMAScript: the
    quantifier [+] is greedy and gives code units back one at a time when the
    rest of the pattern fails. *)

Definition lbrace : N := 123.
Definition rbrace : N := 125.

(** The tail of the pattern, [\}\}]; returns what follows the match. *)
Definition match_close (s : jsstring) : option jsstring :=
  match s with
  | a :: b :: rest => if (a =? rbrace) && (b =? rbrace) then Some rest else None
  | _ => None
  end.

(** [[^}]*] after [captured] has been consumed, then [\}\}]: take one more
    code unit if it is not a closing brace and try the rest; on failure give
    it back and try to close here. *)
Fixpoint match_class_star (s captured : jsstring) : option (jsstring * jsstring) :=
  let close_here := (λ rest, (captured, rest)) <$> match_close s in
  match s with
  | c :: s' =>
      if c =? rbrace then close_here
      else match match_class_star s' (captured ++ [c]) with
           | Some r => Some r
           | None => close_here
           end
  | [] => close_here
  end.

(** [([^}]+)\}\}]: at least one code unit in the class. *)
Definition match_class_plus (s : jsstring) : option (jsstring * jsstring) :=
  match s with
  | c :: s' => if c =? rbrace then None else match_class_star s' [c]
  | [] => None
  end.

(** The whole pattern anchored at the head of [s]: the capture group and
    the text after the match. *)
Definition match_at (s : jsstring) : option (jsstring * jsstring) :=
  match s with
  | a :: b :: t => if (a =? lbrace) && (b =? lbrace) then match_class_plus t else None
  | _ => None
  end.

(** The result array of [RegExp.prototype.exec]: [index], element 0 (the
    matched text) and element 1 (the capture group). *)
Record Match := mkMatch {
  index : nat;
  matched : jsstring;
  group1 : jsstring
}.

(** The text of a match with capture [inner]. *)
Definition marker_text (inner : jsstring) : jsstring :=
  lbrace :: lbrace :: inner ++ [rbrace; rbrace].

(** Leftmost match in [s], whose head is at position [i] of the content. *)
Fixpoint search (s : jsstring) (i : nat) : option Match :=
  match match_at s with
  | Some (inner, _) => Some (mkMatch i (marker_text inner) inner)
  | None =>
      match s with
      | _ :: s' => search s' (S i)
      | [] => None
      end
  end.

(** [regex.exec(content)] for a global regular expression whose [lastIndex]
    is given: the match if any, and the new [lastIndex] (the end of the match,
    or 0 after a failure). *)
Definition RegExp_exec (content : jsstring) (lastIndex : nat) : option Match * nat :=
  if bool_decide (length content < lastIndex)%nat then (None, 0%nat)
  else match search (drop lastIndex content) lastIndex with
       | Some m => (Some m, (index m + length (matched m))%nat)
       | None => (None, 0%nat)
       end.

(** ** Records of [src/types] *)

(** The time value of a [Date] in milliseconds since the epoch; [None] is
    NaN, an Invalid Date. *)
Abbreviation Date := (option Z).

Record Template := mkTemplate {
  tpl_id : jsstring;
  tpl_title : jsstring;
  tpl_content : jsstring;
  tpl_createdAt : Date;
  tpl_updatedAt : Date
}.

(** [Variable] of the source; the name is a keyword here. *)
Record Variable_ := mkVariable {
  var_id : jsstring;
  var_name : jsstring;
  var_value : jsstring;
  var_description : option jsstring;
  var_createdAt : Date;
  var_updatedAt : Date
}.

Record ValidationError := mkValidationError {
  field : jsstring;
  message : jsstring
}.

(** ** templateProcessor.ts *)

(** One iteration of the body of the [while] loop of [extractVariables]. *)
Definition push_variable (variables : list jsstring) (m : Match) : list jsstring :=
  let variableName := trim (group1 m) in
  if truthy_string variableName && negb (includes variables variableName)
  then variables ++ [variableName]
  else variables.

(** [while ((match = regex.exec(content)) !== null) { ... }] with the state
    of the loop made explicit: the [lastIndex] of the regular expression and
    the array [variables].  [fuel] bounds the number of iterations. *)
Fixpoint extract_loop (fuel : nat) (content : jsstring) (lastIndex : nat)
    (variables : list jsstring) : list jsstring :=
  match fuel with
  | O => variables
  | S fuel' =>
      match RegExp_exec content lastIndex with
      | (Some m, lastIndex') =>
          extract_loop fuel' content lastIndex' (push_variable variables m)
      | (None, _) => variables
      end
  end.

(** Every match is at least five code units long, so the loop runs at most
    [length content] times before [exec] returns [null]; see
    [extract_loop_fuel]. *)
Definition extractVariables (content : jsstring) : list jsstring :=
  extract_loop (S (length content)) content 0 [].

Definition missing_variable_error (variableName : jsstring) : ValidationError :=
  {| field := lit "content";
     message := lit "Variable '" ++ variableName ++ lit "' is not defined in settings" |}.

(** [validateTemplate]: the [for ... of] loop pushes on [errors]. *)
Definition validateTemplate (template : Template) (availableVariables : list Variable_)
    : list ValidationError :=
  let requiredVariables := extractVariables (tpl_content template) in
  let availableVariableNames := map var_name availableVariables in
  fold_left
    (λ errors variableName,
       if negb (includes availableVariableNames variableName)
       then errors ++ [missing_variable_error variableName]
       else errors)
    requiredVariables [].

(** [new Map(entries)]: the entries are set one after the other, so the last
    entry of a key is the one that stays. *)
Definition Map_new (entries : list (jsstring * jsstring)) : gmap jsstring jsstring :=
  fold_left (λ m e, <[e.1 := e.2]> m) entries ∅.

(** The results of a global regular expression on [content], collected by
    calling [exec] until it returns [null] (the first loop of
    [RegExp.prototype[Symbol.replace]]). *)
Fixpoint exec_all (fuel : nat) (content : jsstring) (lastIndex : nat) : list Match :=
  match fuel with
  | O => []
  | S fuel' =>
      match RegExp_exec content lastIndex with
      | (Some m, lastIndex') => m :: exec_all fuel' content lastIndex'
      | (None, _) => []
      end
  end.

Definition matchAll (content : jsstring) : list Match :=
  exec_all (S (length content)) content 0.

(** The second loop of [RegExp.prototype[Symbol.replace]]: the text between
    the matches is copied, every match is replaced by what [replacer]
    returns. *)
Fixpoint splice (content : jsstring) (results : list Match)
    (replacer : Match → jsstring) (nextSourcePosition : nat)
    (accumulatedResult : jsstring) : jsstring :=
  match results with
  | [] => accumulatedResult ++ drop nextSourcePosition content
  | m :: results' =>
      if bool_decide (nextSourcePosition ≤ index m)%nat then
        splice content results' replacer (index m + length (matched m))%nat
          (accumulatedResult
             ++ take (index m - nextSourcePosition) (drop nextSourcePosition content)
             ++ replacer m)
      else splice content results' replacer nextSourcePosition accumulatedResult
  end.

(** [content.replace(/\{\{([^}]+)\}\}/g, replacer)] with a function
    replacer. *)
Definition String_replace (content : jsstring) (replacer : Match → jsstring) : jsstring :=
  splice content (matchAll content) replacer 0 [].

(** The arrow function given to [replace] in [processTemplate]:
    [variableMap.get(trimmedName) || match]. *)
Definition replacer (variableMap : gmap jsstring jsstring) (m : Match) : jsstring :=
  let trimmedName := trim (group1 m) in
  match variableMap !! trimmedName with
  | Some v => if truthy_string v then v else matched m
  | None => matched m
  end.

Definition processTemplate (template : Template) (variables : list Variable_) : jsstring :=
  let processedContent := tpl_content template in
  let variableMap := Map_new (map (λ v, (var_name v, var_value v)) variables) in
  String_replace processedContent (replacer variableMap).

(** [createTemplate] and [createVariable]; [id] is what [generateId]
    returned and [now] the time value of [new Date()]. *)
Definition createTemplate (id : jsstring) (now : Z) (title content : jsstring) : Template :=
  mkTemplate id title content (Some now) (Some now).

Definition createVariable (id : jsstring) (now : Z) (name value : jsstring)
    (description : option jsstring) : Variable_ :=
  mkVariable id name value description (Some now) (Some now).

Local Close Scope N_scope.

(** * The persistence adapter (storage.ts) *)

(** ** JavaScript values

    What [chrome.storage] and [JSON.parse] hand to the program, and what the
    program builds from it: primitives, [Date] objects, arrays, and plain
    objects with their own properties in insertion order.  No value is a
    function. *)
Inductive value :=
  | VUndefined
  | VNull
  | VBoolean (b : bool)
  | VNumber (x : float)
  | VString (s : jsstring)
  | VDate (t : Date)
  | VArray (items : list value)
  | VObject (properties : list (jsstring * value)).

(** What a [throw] carries. *)
Inductive exception :=
  | TypeError
  | SyntaxError
  | Error (message : jsstring).

Inductive result (A : Type) :=
  | Ok (a : A)
  | Throw (e : exception).
Arguments Ok {A} a.
Arguments Throw {A} e.

#[export] Instance result_ret : MRet result := λ A a, Ok a.
#[export] Instance result_bind : MBind result := λ A B f r,
  match r with Ok a => f a | Throw e => Throw e end.

(** [ToBoolean]. *)
Definition truthy (v : value) : bool :=
  match v with
  | VUndefined | VNull => false
  | VBoolean b => b
  | VNumber x => negb (PrimFloat.is_zero x || PrimFloat.is_nan x)
  | VString s => truthy_string s
  | VDate _ | VArray _ | VObject _ => true
  end.

Fixpoint lookup_property (k : jsstring) (properties : list (jsstring * value)) : option value :=
  match properties with
  | [] => None
  | (k', v) :: properties' =>
      if bool_decide (k' = k) then Some v else lookup_property k properties'
  end.

(** [o.k] and [o[k]] for the property names read here: the two storage
    keys, [templates] and [variables], and the fields of the records.  None
    is an index or [length], and no prototype of a value has a property of
    these names, so the read gives [undefined] unless [o] is an object that
    has the property itself; on [undefined] and [null] it throws a
    TypeError. *)
Definition Get (o : value) (k : jsstring) : result value :=
  match o with
  | VUndefined | VNull => Throw TypeError
  | VObject properties => Ok (default VUndefined (lookup_property k properties))
  | _ => Ok VUndefined
  end.

(** [o.k = v] on the own properties: an existing property keeps its place. *)
Fixpoint set_property (properties : list (jsstring * value)) (k : jsstring) (v : value)
    : list (jsstring * value) :=
  match properties with
  | [] => [(k, v)]
  | (k', v') :: properties' =>
      if bool_decide (k' = k) then (k, v) :: properties'
      else (k', v') :: set_property properties' k v
  end.

(** The decimal digits of an array index. *)
Definition index_key (i : nat) : jsstring :=
  lit (NilZero.string_of_uint (Nat.to_uint i)).

(** The own enumerable properties, which the spread [{...o}] copies: the
    properties of an object, the elements of an array and the code units of a
    string under their indices, nothing for the other values. *)
Definition own_properties (o : value) : list (jsstring * value) :=
  match o with
  | VObject properties => properties
  | VArray items => imap (λ i x, (index_key i, x)) items
  | VString s => imap (λ i c, (index_key i, VString [c])) s
  | _ => []
  end.

(** [TimeClip (ToNumber x)] for a number: NaN beyond 8.64e15 ms and for the
    non-finite numbers, the integer part otherwise. *)
Definition TimeClip (x : float) : Date :=
  match Prim2SF x with
  | S754_zero _ => Some 0%Z
  | S754_finite negative m e =>
      let magnitude :=
        if (0 <=? e)%Z then (Z.pos m * 2 ^ e)%Z else (Z.pos m / 2 ^ (- e))%Z in
      if (magnitude <=? 8640000000000000)%Z
      then Some (if negative then (- magnitude)%Z else magnitude)
      else None
  | S754_infinity _ | S754_nan => None
  end.

(** ** The platform

    The built-ins whose results the program relies on and which ECMAScript
    leaves to the host or defines at length: JSON text, the parsing and
    printing of dates, the conversion of an array or object to a primitive.
    The properties below hold for every platform. *)
Class Platform := {
  (** [JSON.parse(text)]: the value, or the SyntaxError thrown. *)
  JSON_parse : jsstring → result value;
  (** [JSON.stringify(v, null, 2)] for an object [v]. *)
  JSON_stringify : value → jsstring;
  (** [Date.parse(s)]: a time value, or NaN. *)
  Date_parse : jsstring → Date;
  (** [toISOString] of a valid date. *)
  Date_toISOString : Z → jsstring;
  (** [ToPrimitive] of an array or object: a primitive, or a TypeError. *)
  ToPrimitive : value → result value
}.

(** [chrome.storage.local], an external collaborator: [get(key)] resolves
    with an items object or rejects, [set(items)] and [remove(keys)] resolve
    or reject; each call may change the state [S] of the area. *)
Class StorageArea (S : Type) := {
  storage_get : jsstring → S → result value * S;
  storage_set : list (jsstring * value) → S → result () * S;
  storage_remove : list jsstring → S → result () * S
}.

(** The state the adapter runs in: the storage area, and the [set] calls the
    adapter has made so far, with their items. *)
Record World (S : Type) := mkWorld {
  area : S;
  writes : list (list (jsstring * value))
}.
Arguments mkWorld {S} area writes.
Arguments area {S} w.
Arguments writes {S} w.

(** An [async] function: it runs in a world and settles, fulfilled or
    rejected, in another. *)
Definition Async (S A : Type) : Type := World S → result A * World S.

#[export] Instance Async_ret S : MRet (Async S) := λ A a w, (Ok a, w).
#[export] Instance Async_bind S : MBind (Async S) := λ A B f m w,
  match m w with
  | (Ok a, w') => f a w'
  | (Throw e, w') => (Throw e, w')
  end.

Definition throw {S A} (e : exception) : Async S A := λ w, (Throw e, w).

(** A synchronous computation inside an [async] function. *)
Definition sync {S A} (r : result A) : Async S A := λ w, (r, w).

(** [try { body } catch (error) { handler }]. *)
Definition try_catch {S A} (body : Async S A) (handler : exception → Async S A) : Async S A :=
  λ w, match body w with
       | (Ok a, w') => (Ok a, w')
       | (Throw e, w') => handler e w'
       end.

(** [Promise.all] of two promises whose executors have both started: both
    operations take place, and the result is rejected when one is. *)
Definition Promise_all {S A B} (a : Async S A) (b : Async S B) : Async S (A * B) :=
  λ w, match a w with
       | (ra, w1) =>
           match b w1 with
           | (rb, w2) =>
               (match ra, rb with
                | Ok x, Ok y => Ok (x, y)
                | Throw e, _ => Throw e
                | _, Throw e => Throw e
                end, w2)
           end
       end.

Section Adapter.
Context {S : Type} {storage : StorageArea S} {platform : Platform}.

Definition chrome_storage_local_get (key : jsstring) : Async S value :=
  λ w, match storage_get key (area w) with
       | (r, s') => (r, mkWorld s' (writes w))
       end.

Definition chrome_storage_local_set (items : list (jsstring * value)) : Async S () :=
  λ w, match storage_set items (area w) with
       | (r, s') => (r, mkWorld s' (writes w ++ [items]))
       end.

Definition chrome_storage_local_remove (keys : list jsstring) : Async S () :=
  λ w, match storage_remove keys (area w) with
       | (r, s') => (r, mkWorld s' (writes w))
       end.

(** [new Date(v)]: the time value of the date made. *)
Definition Date_new (v : value) : result Date :=
  let of_primitive p :=
    match p with
    | VString s => Ok (Date_parse s)
    | VUndefined => Ok None
    | VNull => Ok (Some 0%Z)
    | VBoolean b => Ok (Some (if b then 1%Z else 0%Z))
    | VNumber x => Ok (TimeClip x)
    | VDate _ | VArray _ | VObject _ => Throw TypeError
    end in
  match v with
  | VDate t => Ok t
  | VArray _ | VObject _ => p ← ToPrimitive v; of_primitive p
  | _ => of_primitive v
  end.

(** The arrow function of the three [map] calls:
    [{ ...record, createdAt: new Date(record.createdAt),
       updatedAt: new Date(record.updatedAt) }]. *)
Definition rehydrate (record : value) : result value :=
  let copied := own_properties record in
  createdAt ← Get record (lit "createdAt");
  createdAt ← Date_new createdAt;
  updatedAt ← Get record (lit "updatedAt");
  updatedAt ← Date_new updatedAt;
  Ok (VObject (set_property (set_property copied (lit "createdAt") (VDate createdAt))
                 (lit "updatedAt") (VDate updatedAt))).

(** [a.map(callback)]: only an array has a callable [map]; the call on
    anything else throws a TypeError. *)
Definition Array_map (a : value) (callback : value → result value) : result (list value) :=
  match a with
  | VArray items => mapM callback items
  | _ => Throw TypeError
  end.

Definition STORAGE_KEYS_TEMPLATES : jsstring := lit "support_templates".
Definition STORAGE_KEYS_VARIABLES : jsstring := lit "support_variables".

(** [result[key] || []], then the [map]; the whole in the [try] whose
    [catch] logs and returns [[]]. *)
Definition load (key : jsstring) : Async S (list value) :=
  try_catch
    (result ← chrome_storage_local_get key;
     stored ← sync (Get result key);
     let records := if truthy stored then stored else VArray [] in
     sync (Array_map records rehydrate))
    (λ error, mret []).

Definition getTemplates : Async S (list value) := load STORAGE_KEYS_TEMPLATES.
Definition getVariables : Async S (list value) := load STORAGE_KEYS_VARIABLES.

(** The [catch] logs and throws the error again. *)
Definition save (key : jsstring) (records : list value) : Async S () :=
  try_catch (chrome_storage_local_set [(key, VArray records)]) (λ error, throw error).

Definition saveTemplates : list value → Async S () := save STORAGE_KEYS_TEMPLATES.
Definition saveVariables : list value → Async S () := save STORAGE_KEYS_VARIABLES.

Definition getAllData : Async S (list value * list value) :=
  Promise_all getTemplates getVariables.

Definition saveAllData (data : list value * list value) : Async S () :=
  _ ← Promise_all (saveTemplates data.1) (saveVariables data.2); mret ().

Definition clearAllData : Async S () :=
  try_catch
    (chrome_storage_local_remove [STORAGE_KEYS_TEMPLATES; STORAGE_KEYS_VARIABLES])
    (λ error, throw error).

(** The object that [exportData] serializes; [now] is the time value of
    [new Date()]. *)
Definition export_object (data : list value * list value) (now : Z) : value :=
  VObject [ (lit "templates", VArray data.1);
            (lit "variables", VArray data.2);
            (lit "version", VString (lit "1.0.0"));
            (lit "exportedAt", VString (Date_toISOString now)) ].

Definition exportData (now : Z) : Async S jsstring :=
  data ← getAllData;
  mret (JSON_stringify (export_object data now)).

Definition import_failure : exception :=
  Error (lit "Failed to import data. Please check the file format.").

Definition importData (jsonData : jsstring) : Async S () :=
  try_catch
    (importData ← sync (JSON_parse jsonData);
     templates ← sync (Get importData (lit "templates"));
     invalid ← (if negb (truthy templates) then mret true
                else variables ← sync (Get importData (lit "variables"));
                     mret (negb (truthy variables)));
     if invalid : bool then throw (Error (lit "Invalid import data structure"))
     else
       templates ← sync (Get importData (lit "templates"));
       templates ← sync (Array_map templates rehydrate);
       variables ← sync (Get importData (lit "variables"));
       variables ← sync (Array_map variables rehydrate);
       saveAllData (templates, variables))
    (λ error, throw import_failure).
End Adapter.

(** * Part II: what the statements are about *)

(** ** The marker pattern, declaratively *)

(** [inner] can be the capture of a match: one code unit or more, none of
    them a closing brace. *)
Definition is_marker (inner : jsstring) : Prop :=
  inner ≠ [] ∧ Forall (λ c, c ≠ rbrace) inner.

(** The marker pattern occurs in [content] at position [i]. *)
Definition occurs_at (content : jsstring) (i : nat) : Prop :=
  ∃ inner rest, is_marker inner ∧ drop i content = marker_text inner ++ rest.

Definition shift (p : nat) (m : Match) : Match :=
  mkMatch (p + index m) (matched m) (group1 m).

(** The names of the placeholders of [content], one per match, in the order
    of the scan, repeats included. *)
Definition placeholder_names (content : jsstring) : list jsstring :=
  map (λ m, trim (group1 m)) (matchAll content).

(** Keep the first occurrence of every element, drop the later ones. *)
Fixpoint dedup_first (l : list jsstring) : list jsstring :=
  match l with
  | [] => []
  | x :: l' => x :: filter (λ y, y ≠ x) (dedup_first l')
  end.

(** [variables.push(variableName)] guarded as in the source, on names. *)
Definition push_name (variables : list jsstring) (variableName : jsstring) : list jsstring :=
  if truthy_string variableName && negb (includes variables variableName)
  then variables ++ [variableName]
  else variables.

Definition variableMap (variables : list Variable_) : gmap jsstring jsstring :=
  Map_new (map (λ v, (var_name v, var_value v)) variables).

Definition with_content (template : Template) (content : jsstring) : Template :=
  mkTemplate (tpl_id template) (tpl_title template) content
    (tpl_createdAt template) (tpl_updatedAt template).

(** [o] is an object that has the property [k] itself. *)
Definition has_property (o : value) (k : jsstring) : bool :=
  match o with
  | VObject properties => bool_decide (is_Some (lookup_property k properties))
  | _ => false
  end.

Definition is_array (v : value) : bool :=
  match v with VArray _ => true | _ => false end.

(** ** Typed records and their objects *)

(** The object that [createTemplate] builds and [saveTemplates] stores. *)
Definition Template_value (t : Template) : value :=
  VObject [ (lit "id", VString (tpl_id t));
            (lit "title", VString (tpl_title t));
            (lit "content", VString (tpl_content t));
            (lit "createdAt", VDate (tpl_createdAt t));
            (lit "updatedAt", VDate (tpl_updatedAt t)) ].

(** The object that [createVariable] builds: [description] is there, and
    [undefined] when no description was given. *)
Definition Variable_value (v : Variable_) : value :=
  VObject [ (lit "id", VString (var_id v));
            (lit "name", VString (var_name v));
            (lit "value", VString (var_value v));
            (lit "description",
              match var_description v with Some d => VString d | None => VUndefined end);
            (lit "createdAt", VDate (var_createdAt v));
            (lit "updatedAt", VDate (var_updatedAt v)) ].

Definition string_field (o : value) (k : jsstring) : option jsstring :=
  match Get o k with Ok (VString s) => Some s | _ => None end.

Definition optional_string_field (o : value) (k : jsstring) : option (option jsstring) :=
  match Get o k with
  | Ok (VString s) => Some (Some s)
  | Ok VUndefined => Some None
  | _ => None
  end.

Definition date_field (o : value) (k : jsstring) : option Date :=
  match Get o k with Ok (VDate t) => Some t | _ => None end.

(** A loaded record read as a [Template]: its id, its field values, the
    instants of its timestamps. *)
Definition Template_of_value (o : value) : option Template :=
  id ← string_field o (lit "id");
  title ← string_field o (lit "title");
  content ← string_field o (lit "content");
  createdAt ← date_field o (lit "createdAt");
  updatedAt ← date_field o (lit "updatedAt");
  Some (mkTemplate id title content createdAt updatedAt).

Definition Variable_of_value (o : value) : option Variable_ :=
  id ← string_field o (lit "id");
  name ← string_field o (lit "name");
  value ← string_field o (lit "value");
  description ← optional_string_field o (lit "description");
  createdAt ← date_field o (lit "createdAt");
  updatedAt ← date_field o (lit "updatedAt");
  Some (mkVariable id name value description createdAt updatedAt).

(** ** What JSON keeps of a value

    The value that [JSON.parse] reads from the text that [JSON.stringify]
    wrote for [v] (ECMAScript, SerializeJSONProperty): a date has become the
    text of [toISOString], or [null] when it is invalid; a number that is not
    finite has become [null] and [-0] has become [0]; [undefined] has become
    [null] in an array, and a property whose value is [undefined] is gone. *)
Fixpoint json_property `{!Platform} (v : value) : option value :=
  match v with
  | VUndefined => None
  | VNull | VBoolean _ | VString _ => Some v
  | VNumber x => Some (if PrimFloat.is_finite x then VNumber (x + 0)%float else VNull)
  | VDate (Some t) => Some (VString (Date_toISOString t))
  | VDate None => Some VNull
  | VArray items => Some (VArray (map (λ x, default VNull (json_property x)) items))
  | VObject properties =>
      Some (VObject (omap (λ p, (λ x, (p.1, x)) <$> json_property p.2) properties))
  end.

Definition json_image `{!Platform} (v : value) : value := default VNull (json_property v).

(** A storage area that behaves as a key-value store: a read leaves the area
    as it is, a read after a successful write of the key gives the value
    written, and a write of another key does not change what a read gives. *)
Class LawfulStorage (S : Type) `{!StorageArea S} := {
  get_leaves_area key s : (storage_get key s).2 = s;
  get_after_set key v s s' :
    storage_set [(key, v)] s = (Ok (), s') →
    ∃ items, (storage_get key s').1 = Ok items ∧ Get items key = Ok v;
  get_after_set_other key key' v s s' :
    key ≠ key' →
    storage_set [(key, v)] s = (Ok (), s') →
    (storage_get key' s').1 = (storage_get key' s).1
}.

(** What a variable has become after export and import: a [description]
    that was [undefined] is gone. *)
Definition Variable_imported (v : Variable_) : value :=
  VObject ([ (lit "id", VString (var_id v));
             (lit "name", VString (var_name v));
             (lit "value", VString (var_value v)) ]
           ++ match var_description v with
              | Some d => [(lit "description", VString d)]
              | None => []
              end
           ++ [ (lit "createdAt", VDate (var_createdAt v));
                (lit "updatedAt", VDate (var_updatedAt v)) ]).

(** * A reference platform

    An executable platform and storage area, on which the adapter can be run.
    [JSON_stringify] follows the [JSON.stringify] of ECMAScript with an
    indentation of two spaces, except that a number that is not an integer is
    printed with all its decimals, where JavaScript prints the shortest
    numeral that reads back as the same number; [Date_parse] reads the format
    of [toISOString], which is the one format ECMAScript defines, and takes
    every other text for an invalid date; [ToPrimitive] prints a date inside
    an array in that format too. *)
Module Reference.

Local Open Scope N_scope.

Definition digits_of_N (n : N) : jsstring := lit (NilZero.string_of_uint (N.to_uint n)).
Definition digits_of_Z (z : Z) : jsstring :=
  (if (z <? 0)%Z then lit "-" else []) ++ digits_of_N (Z.abs_N z).

(** The decimal digits of [z ≥ 0], with zeros in front up to [width]. *)
Definition pad (width : nat) (z : Z) : jsstring :=
  let ds := digits_of_N (Z.to_N z) in
  replicate (width - length ds) 48 ++ ds.

(** *** Dates *)

(** Year, month and day of the day number [z] (days since 1970-01-01) in
    the proleptic Gregorian calendar. *)
Definition civil_from_days (z : Z) : Z * Z * Z :=
  let z := (z + 719468)%Z in
  let era := (z / 146097)%Z in
  let doe := (z - era * 146097)%Z in
  let yoe := ((doe - doe / 1460 + doe / 36524 - doe / 146096) / 365)%Z in
  let doy := (doe - (365 * yoe + yoe / 4 - yoe / 100))%Z in
  let mp := ((5 * doy + 2) / 153)%Z in
  let d := (doy - (153 * mp + 2) / 5 + 1)%Z in
  let m := if (mp <? 10)%Z then (mp + 3)%Z else (mp - 9)%Z in
  let y := (yoe + era * 400 + (if (m <=? 2)%Z then 1 else 0))%Z in
  (y, m, d).

Definition days_from_civil (y m d : Z) : Z :=
  let y := if (m <=? 2)%Z then (y - 1)%Z else y in
  let era := (y / 400)%Z in
  let yoe := (y - era * 400)%Z in
  let mp := if (2 <? m)%Z then (m - 3)%Z else (m + 9)%Z in
  let doy := ((153 * mp + 2) / 5 + d - 1)%Z in
  let doe := (yoe * 365 + yoe / 4 - yoe / 100 + doy)%Z in
  (era * 146097 + doe - 719468)%Z.

Definition Date_toISOString (t : Z) : jsstring :=
  let '(y, m, d) := civil_from_days (t / 86400000) in
  let ms := (t mod 86400000)%Z in
  let year :=
    if ((0 <=? y) && (y <=? 9999))%Z then pad 4 y
    else (if (y <? 0)%Z then lit "-" else lit "+") ++ pad 6 (Z.abs y) in
  year ++ lit "-" ++ pad 2 m ++ lit "-" ++ pad 2 d
  ++ lit "T" ++ pad 2 (ms / 3600000) ++ lit ":" ++ pad 2 (ms / 60000 mod 60)
  ++ lit ":" ++ pad 2 (ms / 1000 mod 60) ++ lit "." ++ pad 3 (ms mod 1000) ++ lit "Z".

Definition is_digit (c : N) : bool := (48 <=? c) && (c <=? 57).

Definition number_of_digits (ds : jsstring) : Z :=
  fold_left (λ a d, (10 * a + Z.of_N (d - 48))%Z) ds 0%Z.

(** The number written by the [n] digits at the head of [s], and the
    rest. *)
Definition read_digits (n : nat) (s : jsstring) : option (Z * jsstring) :=
  let ds := take n s in
  if bool_decide (length ds = n) && forallb is_digit ds
  then Some (number_of_digits ds, drop n s) else None.

Definition expect (c : N) (s : jsstring) : option jsstring :=
  match s with
  | c' :: s' => if c' =? c then Some s' else None
  | [] => None
  end.

Definition Date_parse (s : jsstring) : Date :=
  let '(sign, width, s0) :=
    match s with
    | 43 :: r => (1%Z, 6%nat, r)
    | 45 :: r => ((-1)%Z, 6%nat, r)
    | _ => (1%Z, 4%nat, s)
    end in
  '(y, s1) ← read_digits width s0; s1 ← expect 45 s1;
  '(m, s2) ← read_digits 2 s1; s2 ← expect 45 s2;
  '(d, s3) ← read_digits 2 s2; s3 ← expect 84 s3;
  '(hh, s4) ← read_digits 2 s3; s4 ← expect 58 s4;
  '(mm, s5) ← read_digits 2 s4; s5 ← expect 58 s5;
  '(ss, s6) ← read_digits 2 s5; s6 ← expect 46 s6;
  '(ms, s7) ← read_digits 3 s6; s7 ← expect 90 s7;
  let t := (days_from_civil (sign * y) m d * 86400000
            + hh * 3600000 + mm * 60000 + ss * 1000 + ms)%Z in
  if bool_decide (s7 = [] ∧ Date_toISOString t = s) && (Z.abs t <=? 8640000000000000)%Z
  then Some t else None.

(** *** Numbers *)

Fixpoint strip_zeros (rev_digits : jsstring) : jsstring :=
  match rev_digits with
  | 48 :: ds => strip_zeros ds
  | _ => rev_digits
  end.

(** A numeral of the finite number [m * 2 ^ e]. *)
Definition numeral (m : positive) (e : Z) : jsstring :=
  if (0 <=? e)%Z then digits_of_Z (Z.pos m * 2 ^ e)
  else
    let k := Z.to_nat (- e) in
    let n := (Z.pos m * 5 ^ (- e))%Z in
    let whole := (n / 10 ^ (- e))%Z in
    let fraction := rev (strip_zeros (rev (pad k (n mod 10 ^ (- e))))) in
    digits_of_Z whole ++ (if fraction is [] then [] else lit "." ++ fraction).

Definition number_to_json (x : float) : jsstring :=
  match Prim2SF x with
  | S754_zero _ => lit "0"
  | S754_finite negative m e => (if negative then lit "-" else []) ++ numeral m e
  | S754_infinity _ | S754_nan => lit "null"
  end.

(** The number nearest to [(-1)^negative * m * 10 ^ e]. *)
Definition decimal_to_float (negative : bool) (m : Z) (e : Z) : float :=
  let signed z := if negative then (- z)%Z else z in
  let magnitude := (Z.of_nat (length (digits_of_Z m)) + e)%Z in
  if (m =? 0)%Z then (if negative then (-0)%float else 0%float)
  else if (400 <? magnitude)%Z then (if negative then neg_infinity else infinity)
  else if (magnitude <? -400)%Z then (if negative then (-0)%float else 0%float)
  else if (0 <=? e)%Z then
    SF2Prim (binary_normalize prec emax (signed (m * 10 ^ e)%Z) 0 negative)
  else
    let q := (10 ^ (- e))%Z in
    let k := Z.max 0 (Z.log2 q - Z.log2 m + 66) in
    let scaled := (m * 2 ^ k)%Z in
    let sticky := if (scaled mod q =? 0)%Z then 0%Z else 1%Z in
    SF2Prim (binary_normalize prec emax (signed (2 * (scaled / q) + sticky)%Z)
               (- k - 1) negative).

(** *** JSON text *)

Definition hex_digit (n : N) : N := if n <? 10 then 48 + n else 87 + n.

Definition unicode_escape (c : N) : jsstring :=
  lit "\u" ++ [hex_digit (c / 4096); hex_digit (c / 256 mod 16);
               hex_digit (c / 16 mod 16); hex_digit (c mod 16)].

Definition is_high_surrogate (c : N) : bool := (55296 <=? c) && (c <=? 56319).
Definition is_low_surrogate (c : N) : bool := (56320 <=? c) && (c <=? 57343).

(** The body of [QuoteJSONString]; [after_high] says that the code unit
    before was a high surrogate that this one may complete. *)
Fixpoint quote_units (s : jsstring) (after_high : bool) : jsstring :=
  match s with
  | [] => []
  | c :: s' =>
      let paired_high :=
        is_high_surrogate c && match s' with d :: _ => is_low_surrogate d | [] => false end in
      (if c =? 8 then lit "\b"
       else if c =? 9 then lit "\t"
       else if c =? 10 then lit "\n"
       else if c =? 12 then lit "\f"
       else if c =? 13 then lit "\r"
       else if c =? 34 then [92; 34]
       else if c =? 92 then [92; 92]
       else if c <? 32 then unicode_escape c
       else if is_high_surrogate c && negb paired_high then unicode_escape c
       else if is_low_surrogate c && negb after_high then unicode_escape c
       else [c])
      ++ quote_units s' paired_high
  end.

Definition QuoteJSONString (s : jsstring) : jsstring := [34] ++ quote_units s false ++ [34].

Fixpoint join (separator : jsstring) (parts : list jsstring) : jsstring :=
  match parts with
  | [] => []
  | [p] => p
  | p :: parts' => p ++ separator ++ join separator parts'
  end.

Definition wrap (opening closing : jsstring) (stepback : jsstring) (parts : list jsstring)
    : jsstring :=
  match parts with
  | [] => opening ++ closing
  | _ =>
      let indent := stepback ++ lit "  " in
      opening ++ [10] ++ indent ++ join (lit "," ++ [10] ++ indent) parts
      ++ [10] ++ stepback ++ closing
  end.

(** [SerializeJSONProperty]: [None] is [undefined], for a value that JSON
    leaves out. *)
Fixpoint serialize (stepback : jsstring) (v : value) : option jsstring :=
  let indent := stepback ++ lit "  " in
  match v with
  | VUndefined => None
  | VNull => Some (lit "null")
  | VBoolean b => Some (if b then lit "true" else lit "false")
  | VNumber x => Some (number_to_json x)
  | VString s => Some (QuoteJSONString s)
  | VDate (Some t) => Some (QuoteJSONString (Date_toISOString t))
  | VDate None => Some (lit "null")
  | VArray items =>
      Some (wrap (lit "[") (lit "]") stepback
              (map (λ x, default (lit "null") (serialize indent x)) items))
  | VObject properties =>
      Some (wrap (lit "{") (lit "}") stepback
              (omap (λ p, (λ text, QuoteJSONString p.1 ++ lit ": " ++ text)
                            <$> serialize indent p.2) properties))
  end.

Definition JSON_stringify (v : value) : jsstring := default [] (serialize [] v).

Definition is_json_space (c : N) : bool := (c =? 32) || (c =? 9) || (c =? 10) || (c =? 13).

Fixpoint skip_space (s : jsstring) : jsstring :=
  match s with
  | c :: s' => if is_json_space c then skip_space s' else s
  | [] => []
  end.

Fixpoint span_digits (s : jsstring) : jsstring * jsstring :=
  match s with
  | c :: s' => if is_digit c then let '(ds, r) := span_digits s' in (c :: ds, r) else ([], s)
  | [] => ([], [])
  end.

Definition parse_number (s : jsstring) : option (float * jsstring) :=
  let '(negative, s1) := match s with 45 :: r => (true, r) | _ => (false, s) end in
  let '(whole, s2) := span_digits s1 in
  match whole with
  | [] => None
  | d :: ds =>
      if (d =? 48) && bool_decide (ds ≠ []) then None
      else
        '(fraction, s3) ←
          match s2 with
          | 46 :: r => let '(f, r') := span_digits r in
                       if bool_decide (f = []) then None else Some (f, r')
          | _ => Some ([], s2)
          end;
        '(exponent, s4) ←
          match s3 with
          | c :: r =>
              if (c =? 101) || (c =? 69) then
                let '(sign, r1) :=
                  match r with
                  | 43 :: r' => (1%Z, r')
                  | 45 :: r' => ((-1)%Z, r')
                  | _ => (1%Z, r)
                  end in
                let '(ds, r2) := span_digits r1 in
                if bool_decide (ds = []) then None
                else Some ((sign * number_of_digits ds)%Z, r2)
              else Some (0%Z, s3)
          | [] => Some (0%Z, s3)
          end;
        Some (decimal_to_float negative (number_of_digits (whole ++ fraction))
                (exponent - Z.of_nat (length fraction)), s4)
  end.

Definition hex_value (c : N) : option N :=
  if is_digit c then Some (c - 48)
  else if (97 <=? c) && (c <=? 102) then Some (c - 87)
  else if (65 <=? c) && (c <=? 70) then Some (c - 55)
  else None.

(** The text of a string after its opening quote: the code units, and the
    text after the closing quote. *)
Fixpoint parse_string (s : jsstring) (units : jsstring) : option (jsstring * jsstring) :=
  match s with
  | [] => None
  | 34 :: r => Some (units, r)
  | 92 :: 117 :: a :: b :: c :: d :: r =>
      a ← hex_value a; b ← hex_value b; c ← hex_value c; d ← hex_value d;
      parse_string r (units ++ [4096 * a + 256 * b + 16 * c + d])
  | 92 :: e :: r =>
      u ← (if e =? 34 then Some 34 else if e =? 92 then Some 92
           else if e =? 47 then Some 47 else if e =? 98 then Some 8
           else if e =? 102 then Some 12 else if e =? 110 then Some 10
           else if e =? 114 then Some 13 else if e =? 116 then Some 9
           else None);
      parse_string r (units ++ [u])
  | c :: r => if c <? 32 then None else parse_string r (units ++ [c])
  end.

Fixpoint parse_value (fuel : nat) (s : jsstring) : option (value * jsstring) :=
  match fuel with
  | O => None
  | S fuel =>
      match skip_space s with
      | 123 :: r =>
          match skip_space r with
          | 125 :: r' => Some (VObject [], r')
          | _ => parse_members fuel r []
          end
      | 91 :: r =>
          match skip_space r with
          | 93 :: r' => Some (VArray [], r')
          | _ => parse_elements fuel r []
          end
      | 34 :: r => '(units, r') ← parse_string r []; Some (VString units, r')
      | 116 :: 114 :: 117 :: 101 :: r => Some (VBoolean true, r)
      | 102 :: 97 :: 108 :: 115 :: 101 :: r => Some (VBoolean false, r)
      | 110 :: 117 :: 108 :: 108 :: r => Some (VNull, r)
      | s' => '(x, r) ← parse_number s'; Some (VNumber x, r)
      end
  end
with parse_elements (fuel : nat) (s : jsstring) (items : list value)
    : option (value * jsstring) :=
  match fuel with
  | O => None
  | S fuel =>
      '(v, r) ← parse_value fuel s;
      match skip_space r with
      | 44 :: r' => parse_elements fuel r' (items ++ [v])
      | 93 :: r' => Some (VArray (items ++ [v]), r')
      | _ => None
      end
  end
with parse_members (fuel : nat) (s : jsstring) (properties : list (jsstring * value))
    : option (value * jsstring) :=
  match fuel with
  | O => None
  | S fuel =>
      match skip_space s with
      | 34 :: r =>
          '(k, r1) ← parse_string r [];
          r2 ← expect 58 (skip_space r1);
          '(v, r3) ← parse_value fuel r2;
          match skip_space r3 with
          | 44 :: r4 => parse_members fuel r4 (set_property properties k v)
          | 125 :: r4 => Some (VObject (set_property properties k v), r4)
          | _ => None
          end
      | _ => None
      end
  end.

Definition JSON_parse (text : jsstring) : result value :=
  match parse_value (2 * length text + 2) text with
  | Some (v, r) => if skip_space r is [] then Ok v else Throw SyntaxError
  | None => Throw SyntaxError
  end.

(** *** Conversion to a primitive *)

Fixpoint element_text (v : value) : jsstring :=
  match v with
  | VUndefined | VNull => []
  | VBoolean b => if b then lit "true" else lit "false"
  | VNumber x =>
      if PrimFloat.is_nan x then lit "NaN"
      else if PrimFloat.is_infinity x
           then (if (x <? 0)%float then lit "-Infinity" else lit "Infinity")
           else number_to_json x
  | VString s => s
  | VDate (Some t) => Date_toISOString t
  | VDate None => lit "Invalid Date"
  | VArray items => join (lit ",") (map element_text items)
  | VObject _ => lit "[object Object]"
  end.

Definition ToPrimitive (v : value) : result value :=
  match v with
  | VArray _ => Ok (VString (element_text v))
  | VObject properties =>
      if bool_decide (is_Some (lookup_property (lit "toString") properties))
      then Throw TypeError
      else Ok (VString (lit "[object Object]"))
  | _ => Ok v
  end.

#[export] Instance platform : Platform :=
  Build_Platform JSON_parse JSON_stringify Date_parse Date_toISOString ToPrimitive.

(** A storage area that keeps what is set and never fails: a finite map
    from keys to values. *)
#[export] Instance map_area : StorageArea (gmap jsstring value) := {|
  storage_get key s :=
    (Ok (VObject (match s !! key with Some v => [(key, v)] | None => [] end)), s);
  storage_set items s := (Ok (), foldl (λ s item, <[item.1 := item.2]> s) s items);
  storage_remove keys s := (Ok (), foldl (λ s key, delete key s) s keys)
|}.

(** A storage area whose every call is rejected. *)
Definition storage_error : exception := Error (lit "Storage error").

Definition failing_area : StorageArea () := {|
  storage_get key s := (Throw storage_error, s);
  storage_set items s := (Throw storage_error, s);
  storage_remove keys s := (Throw storage_error, s)
|}.

End Reference.

(** ** Fixtures of the test suites *)

Definition mockVariables : list Variable_ :=
  [ mkVariable (lit "1") (lit "name") (lit "John Doe") None (Some 0%Z) (Some 0%Z);
    mkVariable (lit "2") (lit "order_id") (lit "12345") None (Some 0%Z) (Some 0%Z) ].

Definition mockTemplate (content : string) : Template :=
  mkTemplate (lit "1") (lit "Test Template") (lit content) (Some 0%Z) (Some 0%Z).

Definition greeting : Template :=
  mockTemplate "Hi {{ name }}, {{nobody}} and {{name}}!".

Definition nested : Template := mockTemplate "{{order_{{type}}_id}}".

#[local] Existing Instances Reference.platform Reference.map_area.

(** The fixtures of [storage.test.ts], in the reference storage area. *)
Definition empty_world : World (gmap jsstring value) := mkWorld ∅ [].

Definition new_year : Z := 1672531200000.

Definition stored_templates : list Template :=
  [ mkTemplate (lit "1") (lit "Test Template") (lit "Hello {{name}}")
      (Some new_year) (Some new_year) ].

Definition stored_variables : list Variable_ :=
  [ mkVariable (lit "1") (lit "name") (lit "John Doe") None (Some new_year) (Some new_year);
    mkVariable (lit "2") (lit "order_id") (lit "12345") (Some (lit "The order"))
      (Some new_year) (Some (new_year + 1)%Z) ].

Definition world_of (templates : list Template) (variables : list Variable_)
    : World (gmap jsstring value) :=
  mkWorld (<[STORAGE_KEYS_TEMPLATES := VArray (map Template_value templates)]>
             (<[STORAGE_KEYS_VARIABLES := VArray (map Variable_value variables)]> ∅)) [].

Definition stored_world : World (gmap jsstring value) :=
  world_of stored_templates stored_variables.

(** A template whose dates are invalid, as [new Date] makes them from a text
    that is not a date. *)
Definition undated : Template :=
  mkTemplate (lit "1") (lit "Test Template") (lit "Hello {{name}}") None None.

Definition undated_world : World (gmap jsstring value) := world_of [undated] [].

(** The records of [storage.test.ts], whose dates are ISO texts. *)
Definition mockTemplates_stored : value :=
  VArray [ VObject [ (lit "id", VString (lit "1"));
                     (lit "title", VString (lit "Test Template"));
                     (lit "content", VString (lit "Hello {{name}}"));
                     (lit "createdAt", VString (lit "2023-01-01T00:00:00.000Z"));
                     (lit "updatedAt", VString (lit "2023-01-01T00:00:00.000Z")) ] ].

Definition mockVariables_stored : value :=
  VArray [ VObject [ (lit "id", VString (lit "1"));
                     (lit "name", VString (lit "name"));
                     (lit "value", VString (lit "John Doe"));
                     (lit "createdAt", VString (lit "2023-01-01T00:00:00.000Z"));
                     (lit "updatedAt", VString (lit "2023-01-01T00:00:00.000Z")) ] ].

Definition mock_import : value :=
  VObject [ (lit "templates", mockTemplates_stored);
            (lit "variables", mockVariables_stored);
            (lit "version", VString (lit "1.0.0"));
            (lit "exportedAt", VString (lit "2023-01-01T00:00:00.000Z")) ].

(** ** Storage areas for the further properties *)

(** A storage area removes what it is asked to: after a successful
    [remove(keys)], a read of one of the keys gives items without it. *)
Class RemovesKeys (S : Type) `{!StorageArea S} :=
  get_after_remove keys key s s' :
    storage_remove keys s = (Ok (), s') →
    key ∈ keys →
    ∃ items, (storage_get key s').1 = Ok items ∧ has_property items key = false.

(** The reference area, except that a [set] that writes the key [blocked] is
    rejected and changes nothing. *)
Definition blocking_area (blocked : jsstring) : StorageArea (gmap jsstring value) := {|
  storage_get key s := storage_get key s;
  storage_set items s :=
    if bool_decide (blocked ∈ map fst items) then (Throw Reference.storage_error, s)
    else storage_set items s;
  storage_remove keys s := storage_remove keys s
|}.

(** * generateId

    [Date.now().toString(36) + Math.random().toString(36).substr(2)].  The
    digits of an integer in base 36 are computed here; those of the random
    fraction are the platform's, and [random] is the text that
    [Math.random().toString(36)] returned. *)

(** The digit [d] of base 36: [0] to [9], then [a] to [z]. *)
Definition digit36 (d : N) : N := if (d <? 10)%N then (48 + d)%N else (87 + d)%N.

(** The digits of [n] before those of [acc], the most significant first. *)
Fixpoint digits36 (fuel : nat) (n : N) (acc : jsstring) : jsstring :=
  match fuel with
  | O => acc
  | S fuel' =>
      let acc' := digit36 (n mod 36) :: acc in
      if (n / 36 =? 0)%N then acc' else digits36 fuel' (n / 36) acc'
  end.

(** [Number.prototype.toString(36)] on an integer. *)
Definition Number_toString36 (n : Z) : jsstring :=
  let magnitude := Z.to_N (Z.abs n) in
  let digits := digits36 (S (N.to_nat (N.log2 magnitude))) magnitude [] in
  if (n <? 0)%Z then 45%N :: digits else digits.

(** [String.prototype.substr(2)]: the text from the third code unit on. *)
Definition substr2 (s : jsstring) : jsstring := drop 2 s.

Definition generateId (now : Z) (random : jsstring) : jsstring :=
  Number_toString36 now ++ substr2 random.

(** The number that a text of digits of base 36 denotes. *)
Definition digit36_value (c : N) : N := if (c <? 58)%N then (c - 48)%N else (c - 87)%N.

Fixpoint value36 (s : jsstring) : N :=
  match s with
  | [] => 0
  | c :: s' => (digit36_value c * 36 ^ N.of_nat (length s') + value36 s')%N
  end.

(** * The components

    A handler of a component runs on the state that the render it belongs to
    closed over.  The handlers below take that state as arguments, and give
    what they pass on: the value of a state setter, or of the callback of the
    parent. *)

(** ** TemplateManager.tsx *)

(** [records.find(r => r.id === record.id)
       ? records.map(r => r.id === record.id ? record : r)
       : [...records, record]]. *)
Definition updated_on_save {A} (id : A → jsstring) (records : list A) (record : A) : list A :=
  match find (λ r, bool_decide (id r = id record)) records with
  | Some _ => map (λ r, if bool_decide (id r = id record) then record else r) records
  | None => records ++ [record]
  end.

(** [records.filter(r => r.id !== recordId)]. *)
Definition updated_on_delete {A} (id : A → jsstring) (records : list A) (recordId : jsstring)
    : list A :=
  List.filter (λ r, negb (bool_decide (id r = recordId))) records.

Section Manager.
Context {S : Type} {storage : StorageArea S} {platform : Platform}.

(** The handlers: the result is what the state setter is called with; a
    rejected save is thrown again and the setter is not called. *)
Definition handleTemplateSave (templates : list Template) (template : Template)
    : Async S (list Template) :=
  try_catch
    (let updatedTemplates := updated_on_save tpl_id templates template in
     _ ← saveTemplates (map Template_value updatedTemplates);
     mret updatedTemplates)
    (λ error, throw error).

Definition handleTemplateDelete (templates : list Template) (templateId : jsstring)
    : Async S (list Template) :=
  try_catch
    (let updatedTemplates := updated_on_delete tpl_id templates templateId in
     _ ← saveTemplates (map Template_value updatedTemplates);
     mret updatedTemplates)
    (λ error, throw error).

Definition handleVariableSave (variables : list Variable_) (variable : Variable_)
    : Async S (list Variable_) :=
  try_catch
    (let updatedVariables := updated_on_save var_id variables variable in
     _ ← saveVariables (map Variable_value updatedVariables);
     mret updatedVariables)
    (λ error, throw error).

Definition handleVariableDelete (variables : list Variable_) (variableId : jsstring)
    : Async S (list Variable_) :=
  try_catch
    (let updatedVariables := updated_on_delete var_id variables variableId in
     _ ← saveVariables (map Variable_value updatedVariables);
     mret updatedVariables)
    (λ error, throw error).

End Manager.

(** ** TemplateEditor.tsx *)

Record EditorState := mkEditorState {
  selectedTemplate : option Template;
  title : jsstring;
  content : jsstring;
  validationErrors : list ValidationError
}.

(** The effect that runs when the content, the variables or the title
    change: what it sets [validationErrors] to.  [id] and [now] are those of
    the [createTemplate] it calls. *)
Definition validation_effect (id : jsstring) (now : Z) (title content : jsstring)
    (variables : list Variable_) : list ValidationError :=
  if truthy_string (trim content) then
    let tempTemplate :=
      createTemplate id now (if truthy_string title then title else lit "Untitled") content in
    validateTemplate tempTemplate variables
  else [].

(** [handleSave] up to its call of [onTemplateSave]: the template that it
    passes, and [None] when one of the two guards returns before. *)
Definition templateToSave (id : jsstring) (now : Z) (st : EditorState) : option Template :=
  if negb (truthy_string (trim (title st))) || negb (truthy_string (trim (content st)))
  then None
  else if (0 <? length (validationErrors st))%nat then None
  else Some match selectedTemplate st with
            | Some selected =>
                mkTemplate (tpl_id selected) (trim (title st)) (trim (content st))
                  (tpl_createdAt selected) (Some now)
            | None => createTemplate id now (trim (title st)) (trim (content st))
            end.

(** The preview: [content ? processTemplate(createTemplate(title ||
    'Preview', content), variables) : '']. *)
Definition processedContent (id : jsstring) (now : Z) (title content : jsstring)
    (variables : list Variable_) : jsstring :=
  if truthy_string content then
    processTemplate
      (createTemplate id now (if truthy_string title then title else lit "Preview") content)
      variables
  else [].

(** ** Settings.tsx *)

(** [String.prototype.toLowerCase], which follows the Unicode case mappings,
    is left to the platform. *)
Class Casing := toLowerCase : jsstring → jsstring.

Record SettingsState := mkSettingsState {
  editingVariable : option Variable_;
  name : jsstring;
  value_ : jsstring;
  description : jsstring
}.

(** [handleSave] up to its call of [onVariableSave]: the variable that it
    passes, and [None] when a guard returns before.  [editingVariable?.id]
    is [undefined] when no variable is edited, and no id is. *)
Definition variableToSave `{!Casing} (id : jsstring) (now : Z)
    (variables : list Variable_) (st : SettingsState) : option Variable_ :=
  if negb (truthy_string (trim (name st))) || negb (truthy_string (trim (value_ st)))
  then None
  else
    let existingVariable :=
      find (λ v, bool_decide (toLowerCase (var_name v) = toLowerCase (trim (name st)))
                 && negb (bool_decide (Some (var_id v) = var_id <$> editingVariable st)))
        variables in
    match existingVariable with
    | Some _ => None
    | None =>
        let description' :=
          if truthy_string (trim (description st)) then Some (trim (description st))
          else None in
        Some match editingVariable st with
             | Some editing =>
                 mkVariable (var_id editing) (trim (name st)) (trim (value_ st))
                   description' (var_createdAt editing) (Some now)
             | None => createVariable id now (trim (name st)) (trim (value_ st)) description'
             end
    end.

(** ** clipboard.ts *)

(** What the function asks of the browser, in the order of the calls. *)
Inductive BrowserCall :=
  | writeText (text : jsstring)
  | createElement_textarea
  | set_value (text : jsstring)
  | appendChild_textarea
  | focus_textarea
  | select_textarea
  | execCommand_copy
  | removeChild_textarea.

(** The browser, as far as the function depends on it: whether
    [navigator.clipboard] is there, [window.isSecureContext], how
    [writeText] settles, and what [document.execCommand('copy')] returns or
    throws.  Creating and attaching the text area do not throw. *)
Record Browser := mkBrowser {
  navigator_clipboard : bool;
  window_isSecureContext : bool;
  writeText_settles : jsstring → result ();
  execCommand_returns : result bool
}.

Definition copy_failure : exception := Error (lit "Failed to copy to clipboard").

Definition isClipboardSupported (b : Browser) : bool :=
  navigator_clipboard b && window_isSecureContext b.

Definition copyToClipboard (text : jsstring) (b : Browser) : result () * list BrowserCall :=
  let outcome :=
    if navigator_clipboard b && window_isSecureContext b then
      (writeText_settles b text, [writeText text])
    else
      let attached :=
        [createElement_textarea; set_value text; appendChild_textarea;
         focus_textarea; select_textarea; execCommand_copy] in
      match execCommand_returns b with
      | Ok _ => (Ok (), attached ++ [removeChild_textarea])
      | Throw err => (Throw copy_failure, attached)
      end in
  match outcome with
  | (Ok u, calls) => (Ok u, calls)
  | (Throw error, calls) => (Throw copy_failure, calls)
  end.

(** ** TemplateList.tsx *)

(** [handleCopyTemplate]: the result tells which of the two toasts is shown,
    [true] for the one of success. *)
Definition handleCopyTemplate (template : Template) (variables : list Variable_) (b : Browser)
    : bool * list BrowserCall :=
  let processedContent := processTemplate template variables in
  match copyToClipboard processedContent b with
  | (Ok _, calls) => (true, calls)
  | (Throw error, calls) => (false, calls)
  end.

(** ** A case mapping for the examples

    [toLowerCase] on texts of Basic Latin characters: the letters [A] to [Z]
    go to [a] to [z], every other code unit stays. *)
Definition basic_latin_toLowerCase : Casing :=
  map (λ c, if ((65 <=? c) && (c <=? 90))%N then (c + 32)%N else c).

(** * Export and import, there and back

    What the round trip of an export and an import is stated with: the
    values that come back from JSON text, the dates that come back from
    their ISO text, and the stores that keep what is written. *)

(** ** What comes back of a value

    [similar image v] says that [v] is the value [image], which JSON keeps of
    some value, as a parser or a serializing store gives it back: the same
    texts, booleans and nulls, arrays of the same length, objects with the
    same properties, whatever their order; a number has come back as a
    number. *)
Inductive similar : value → value → Prop :=
  | similar_null : similar VNull VNull
  | similar_boolean b : similar (VBoolean b) (VBoolean b)
  | similar_number x y : similar (VNumber x) (VNumber y)
  | similar_string s : similar (VString s) (VString s)
  | similar_array items items' :
      Forall2 similar items items' → similar (VArray items) (VArray items')
  | similar_object properties properties' :
      (∀ k, option_Forall2 similar (lookup_property k properties)
              (lookup_property k properties')) →
      similar (VObject properties) (VObject properties').

(** The values of JavaScript: the properties of an object have different
    names. *)
Fixpoint well_formed (v : value) : Prop :=
  match v with
  | VArray items => fold_right (λ x P, well_formed x ∧ P) True items
  | VObject properties =>
      NoDup (map fst properties)
      ∧ fold_right (λ p P, well_formed p.2 ∧ P) True properties
  | _ => True
  end.

(** A time value that a valid [Date] holds (ECMAScript, time values and
    time range). *)
Definition valid_date (d : Date) : Prop :=
  ∃ t, d = Some t ∧ (Z.abs t ≤ 8640000000000000)%Z.

(** What the program relies on for an export and an import: the date that
    [Date.parse] reads from the text that [toISOString] wrote is the date
    that was written, and [JSON.parse] reads the text that [JSON.stringify]
    wrote for a value back as what JSON keeps of the value. *)
Class PlatformRoundTrip `{!Platform} := {
  Date_roundtrip t :
    (Z.abs t ≤ 8640000000000000)%Z → Date_parse (Date_toISOString t) = Some t;
  JSON_roundtrip v :
    well_formed v → is_Some (json_property v) →
    ∃ v', JSON_parse (JSON_stringify v) = Ok v'
          ∧ similar (json_image v) v' ∧ well_formed v'
}.

(** A storage area that behaves as a key-value store, and that may
    serialize what it stores: a read leaves the area as it is, a read after a
    successful write of the key gives the value written, or what JSON keeps
    of it, and a write of another key does not change what a read gives. *)
Class KeyValueStorage (S : Type) `{!StorageArea S} `{!Platform} := {
  kv_get_leaves_area key s : (storage_get key s).2 = s;
  kv_get_after_set key v s s' :
    storage_set [(key, v)] s = (Ok (), s') →
    ∃ items stored,
      (storage_get key s').1 = Ok items ∧ Get items key = Ok stored
      ∧ (stored = v ∨ similar (json_image v) stored);
  kv_get_after_set_other key key' v s s' :
    key ≠ key' →
    storage_set [(key, v)] s = (Ok (), s') →
    (storage_get key' s').1 = (storage_get key' s).1
}.

(** The reference area, except that it stores what JSON keeps of a value, as
    a store does that writes its values as JSON text. *)
Definition json_area : StorageArea (gmap jsstring value) := {|
  storage_get key s := @storage_get _ Reference.map_area key s;
  storage_set items s :=
    @storage_set _ Reference.map_area
      (map (λ item, (item.1, @json_image Reference.platform item.2)) items) s;
  storage_remove keys s := @storage_remove _ Reference.map_area keys s
|}.

(** The fixture of [storage.test.ts] in a storage area: the records as
    JSON keeps them, with ISO texts for dates and no [description]. *)
Definition serialized_world : World (gmap jsstring value) :=
  mkWorld (<[STORAGE_KEYS_TEMPLATES := mockTemplates_stored]>
             (<[STORAGE_KEYS_VARIABLES := mockVariables_stored]> ∅)) [].

(** ** The reference platform, read in parts

    The texts and the partial readers that the proofs about the reference
    platform name. *)

(** The code units of the digits of [d]. *)
Definition uint_codes (d : Decimal.uint) : jsstring := lit (NilEmpty.string_of_uint d).

Local Open Scope Z_scope.

(** [Date_parse] after its look at the sign: the fields of the text [s0],
    a year of [width] digits first, and the check that the date read prints
    as [s]. *)
Definition parse_fields (sign : Z) (width : nat) (s0 s : jsstring) : Date :=
  '(y, s1) ← Reference.read_digits width s0; s1 ← Reference.expect 45 s1;
  '(m, s2) ← Reference.read_digits 2 s1; s2 ← Reference.expect 45 s2;
  '(d, s3) ← Reference.read_digits 2 s2; s3 ← Reference.expect 84 s3;
  '(hh, s4) ← Reference.read_digits 2 s3; s4 ← Reference.expect 58 s4;
  '(mm, s5) ← Reference.read_digits 2 s4; s5 ← Reference.expect 58 s5;
  '(ss, s6) ← Reference.read_digits 2 s5; s6 ← Reference.expect 46 s6;
  '(ms, s7) ← Reference.read_digits 3 s6; s7 ← Reference.expect 90 s7;
  let t := (Reference.days_from_civil (sign * y) m d * 86400000
            + hh * 3600000 + mm * 60000 + ss * 1000 + ms)%Z in
  if bool_decide (s7 = [] ∧ Reference.Date_toISOString t = s)
     && (Z.abs t <=? 8640000000000000)%Z
  then Some t else None.

Local Close Scope Z_scope.

Local Open Scope N_scope.

(** What follows a value in the text that [serialize] writes: nothing, a
    comma, or a line feed. *)
Definition terminated (rest : jsstring) : Prop :=
  match rest with [] => True | c :: _ => c = 44 ∨ c = 10 end.

(** [parse_number] after its look at the sign. *)
Definition parse_unsigned (negative : bool) (s1 : jsstring) : option (float * jsstring) :=
  let '(whole, s2) := Reference.span_digits s1 in
  match whole with
  | [] => None
  | d :: ds =>
      if (d =? 48) && bool_decide (ds ≠ []) then None
      else
        '(fraction, s3) ←
          match s2 with
          | 46 :: r => let '(f, r') := Reference.span_digits r in
                       if bool_decide (f = []) then None else Some (f, r')
          | _ => Some ([], s2)
          end;
        '(exponent, s4) ←
          match s3 with
          | c :: r =>
              if (c =? 101) || (c =? 69) then
                let '(sign, r1) :=
                  match r with
                  | 43 :: r' => (1%Z, r')
                  | 45 :: r' => ((-1)%Z, r')
                  | _ => (1%Z, r)
                  end in
                let '(ds, r2) := Reference.span_digits r1 in
                if bool_decide (ds = []) then None
                else Some ((sign * Reference.number_of_digits ds)%Z, r2)
              else Some (0%Z, s3)
          | [] => Some (0%Z, s3)
          end;
        Some (Reference.decimal_to_float negative (Reference.number_of_digits (whole ++ fraction))
                (exponent - Z.of_nat (length fraction)), s4)
  end.

(** The code units that a JSON value starts with. *)
Definition value_start (c : N) : Prop :=
  c ∈ [123; 91; 34; 116; 102; 110; 45; 48; 49; 50; 51; 52; 53; 54; 55; 56; 57].

(** The parser reads [text] as [v'], whatever follows. *)
Definition parses (text : jsstring) (v' : value) : Prop :=
  (∃ c t, text = c :: t ∧ value_start c)
  ∧ ∀ fuel rest,
      (length text ≤ fuel)%nat → terminated rest →
      Reference.parse_value fuel (text ++ rest) = Some (v', rest).

(** Fuel for the elements of an array or the members of an object: the
    length of each part, and one unit for the step to the next. *)
Definition fuel_of (parts : list jsstring) : nat :=
  foldr (λ part n, (length part + 1 + n)%nat) 0%nat parts.

(** A member of an object as [serialize] writes it: the name quoted, a
    colon and a space, the text of the value. *)
Definition member_text (member : jsstring * jsstring) : jsstring :=
  Reference.QuoteJSONString member.1 ++ lit ": " ++ member.2.

Local Close Scope N_scope.

(** * Part III: properties *)

(** ** The tests of [templateProcessor.test.ts], evaluated *)

Example test_extract_two :
  extractVariables (lit "Hello {{name}}, your order {{order_id}} is ready.")
  = [lit "name"; lit "order_id"].
Proof. vm_compute. reflexivity. Qed.

Example test_extract_repeated :
  extractVariables (lit "Hello {{name}}, {{name}} is your name.") = [lit "name"].
Proof. vm_compute. reflexivity. Qed.

Example test_extract_spaces :
  extractVariables (lit "Hello {{ agent_name }}, your order is ready.") = [lit "agent_name"].
Proof. vm_compute. reflexivity. Qed.

Example test_extract_none :
  extractVariables (lit "Hello world, this is a simple message.") = [].
Proof. vm_compute. reflexivity. Qed.

Example test_extract_nested :
  extractVariables (lit "Hello {{name}}, your {{order_{{type}}_id}} is ready.")
  = [lit "name"; lit "order_{{type"].
Proof. vm_compute. reflexivity. Qed.

Example test_validate_missing :
  validateTemplate (mockTemplate "Hello {{name}}, your order {{missing_var}} is ready.")
    mockVariables
  = [ mkValidationError (lit "content")
        (lit "Variable 'missing_var' is not defined in settings") ].
Proof. vm_compute. reflexivity. Qed.

Example test_process_replace :
  processTemplate (mockTemplate "Hello {{name}}, your order {{order_id}} is ready.")
    mockVariables
  = lit "Hello John Doe, your order 12345 is ready.".
Proof. vm_compute. reflexivity. Qed.

Example test_process_missing :
  processTemplate (mockTemplate "Hello {{name}}, your order {{missing_var}} is ready.")
    mockVariables
  = lit "Hello John Doe, your order {{missing_var}} is ready.".
Proof. vm_compute. reflexivity. Qed.

Example test_process_spaces :
  processTemplate (mockTemplate "Hello {{ name }}, your order is ready.") mockVariables
  = lit "Hello John Doe, your order is ready.".
Proof. vm_compute. reflexivity. Qed.

(** ** The matcher meets the pattern *)

Lemma match_close_spec s rest :
  match_close s = Some rest ↔ s = rbrace :: rbrace :: rest.
Proof.
  unfold match_close. destruct s as [|a [|b s']]; try (split; congruence).
  destruct (N.eqb_spec a rbrace) as [->|Ha]; simpl.
  - destruct (N.eqb_spec b rbrace) as [->|Hb]; split; congruence.
  - split; congruence.
Qed.

Lemma match_class_star_spec s captured inner rest :
  match_class_star s captured = Some (inner, rest)
  ↔ ∃ run, Forall (λ c, c ≠ rbrace) run
           ∧ inner = captured ++ run
           ∧ s = run ++ rbrace :: rbrace :: rest.
Proof.
  revert captured inner rest. induction s as [|c s IH]; intros captured inner rest.
  - simpl. split; [congruence|]. intros (run & _ & _ & E). by destruct run.
  - cbn [match_class_star]. destruct (N.eqb_spec c rbrace) as [->|Hc].
    + split.
      * intros H. apply fmap_Some in H as (r & Hr & [= <- <-]).
        apply match_close_spec in Hr. exists []. by rewrite app_nil_r.
      * intros (run & Hrun & -> & E). destruct run as [|d run].
        -- rewrite app_nil_r. simpl in E.
           apply match_close_spec in E. by rewrite E.
        -- injection E as <- _. by inversion Hrun.
    + destruct (match_class_star s (captured ++ [c])) as [[i r]|] eqn:Hrec.
      * split.
        -- intros [= -> ->]. apply IH in Hrec as (run & Hrun & -> & ->).
           exists (c :: run). split; [by constructor|].
           by rewrite <- app_assoc.
        -- intros (run & Hrun & -> & E). destruct run as [|d run].
           { simpl in E. congruence. }
           injection E as <- ->. inversion Hrun; subst.
           assert (match_class_star (run ++ rbrace :: rbrace :: rest) (captured ++ [c])
                   = Some ((captured ++ [c]) ++ run, rest)) as Hm.
           { apply IH. by exists run. }
           rewrite Hm in Hrec. injection Hrec as <- <-.
           by rewrite <- app_assoc.
      * split.
        -- intros H. apply fmap_Some in H as (r & Hr & _).
           apply match_close_spec in Hr. congruence.
        -- intros (run & Hrun & -> & E). destruct run as [|d run].
           { simpl in E. congruence. }
           injection E as <- ->. inversion Hrun; subst.
           assert (match_class_star (run ++ rbrace :: rbrace :: rest) (captured ++ [c])
                   = Some ((captured ++ [c]) ++ run, rest)) as Hm.
           { apply IH. by exists run. }
           congruence.
Qed.

(** The matcher succeeds exactly on a text that starts with two opening
    braces, a non-empty run free of closing braces, and two closing braces;
    backtracking never finds anything else. *)
Lemma match_at_spec s inner rest :
  match_at s = Some (inner, rest) ↔ is_marker inner ∧ s = marker_text inner ++ rest.
Proof.
  unfold match_at, is_marker, marker_text.
  destruct s as [|a [|b t]].
  - split; [congruence|]. by intros [_ ?].
  - split; [congruence|]. by intros [_ ?].
  - destruct (N.eqb_spec a lbrace) as [->|Ha]; simpl.
    2:{ split; [congruence|]. intros [_ ?]. congruence. }
    destruct (N.eqb_spec b lbrace) as [->|Hb]; simpl.
    2:{ split; [congruence|]. intros [_ ?]. congruence. }
    unfold match_class_plus. destruct t as [|c t].
    { split; [congruence|]. intros [[Hne _] E]. destruct inner; [done|].
      simpl in E. congruence. }
    destruct (N.eqb_spec c rbrace) as [->|Hc].
    + split; [congruence|]. intros [[Hne Hall] E]. destruct inner as [|d inner]; [done|].
      simpl in E. injection E as <- _. by inversion Hall.
    + rewrite match_class_star_spec. split.
      * intros (run & Hrun & -> & ->). split; [split|].
        -- done.
        -- by constructor.
        -- simpl. by rewrite <- app_assoc.
      * intros [[Hne Hall] E]. destruct inner as [|d inner]; [done|].
        simpl in E. injection E as <- ->. inversion Hall; subst.
        exists inner. split; [done|]. split; [done|]. by rewrite <- app_assoc.
Qed.

Lemma match_at_None_iff s :
  match_at s = None ↔ ¬ occurs_at s 0.
Proof.
  unfold occurs_at. rewrite drop_0. split.
  - intros Hn (inner & rest & Hm & E).
    assert (match_at s = Some (inner, rest)) by (by apply match_at_spec). congruence.
  - intros Hn. destruct (match_at s) as [[inner rest]|] eqn:E; [|done].
    apply match_at_spec in E as [? ?]. exfalso. apply Hn. by exists inner, rest.
Qed.

(** ** The scan *)

#[local] Arguments match_at : simpl never.
#[local] Arguments marker_text : simpl never.

Lemma marker_text_length inner : length (marker_text inner) = length inner + 4.
Proof. unfold marker_text. simpl. rewrite length_app. simpl. lia. Qed.

Lemma occurs_at_cons c s j : occurs_at (c :: s) (S j) ↔ occurs_at s j.
Proof. done. Qed.

Lemma occurs_at_lt s j : occurs_at s j → j + 5 ≤ length s.
Proof.
  intros (inner & rest & [Hne _] & E).
  assert (length (drop j s) = length (marker_text inner ++ rest)) as HL by (by rewrite E).
  rewrite length_drop, length_app, marker_text_length in HL.
  destruct inner; [done|]. simpl in HL. lia.
Qed.

Lemma search_unfold s i :
  search s i
  = match match_at s with
    | Some (inner, _) => Some (mkMatch i (marker_text inner) inner)
    | None => match s with _ :: s' => search s' (S i) | [] => None end
    end.
Proof. by destruct s. Qed.

Lemma search_shift s p i : search s (p + i) = shift p <$> search s i.
Proof.
  revert i. induction s as [|c s IH]; intros i; simpl.
  - by destruct (match_at []) as [[? ?]|].
  - destruct (match_at (c :: s)) as [[? ?]|]; [done|].
    by rewrite <- IH, Nat.add_succ_r.
Qed.

Lemma search_None s i : search s i = None ↔ ∀ j, ¬ occurs_at s j.
Proof.
  revert i. induction s as [|c s IH]; intros i.
  - simpl. split; [|done]. intros _ j Hj. apply occurs_at_lt in Hj. simpl in Hj. lia.
  - simpl. destruct (match_at (c :: s)) as [[inner rest]|] eqn:E.
    + split; [done|]. intros Hn. exfalso. apply (Hn 0).
      apply match_at_spec in E as [? ?]. by exists inner, rest.
    + rewrite IH. apply match_at_None_iff in E. split.
      * intros Hn [|j]; [done|]. rewrite occurs_at_cons. apply Hn.
      * intros Hn j. rewrite <- occurs_at_cons. apply Hn.
Qed.

(** The scan stops at the first position where the pattern occurs. *)
Lemma search_leftmost pre inner rest i :
  is_marker inner →
  (∀ j, j < length pre → ¬ occurs_at (pre ++ marker_text inner ++ rest) j) →
  search (pre ++ marker_text inner ++ rest) i
  = Some (mkMatch (i + length pre) (marker_text inner) inner).
Proof.
  intros Hm. revert i. induction pre as [|c pre IH]; intros i Hlt.
  - cbn [app length]. rewrite Nat.add_0_r.
    assert (match_at (marker_text inner ++ rest) = Some (inner, rest)) as E
      by (by apply match_at_spec).
    by rewrite search_unfold, E.
  - cbn [app length]. rewrite search_unfold.
    assert (match_at (c :: pre ++ marker_text inner ++ rest) = None) as ->.
    { apply match_at_None_iff. apply (Hlt 0). simpl. lia. }
    rewrite IH.
    + f_equal. f_equal. lia.
    + intros j Hj. rewrite <- occurs_at_cons. apply Hlt. simpl. lia.
Qed.

Lemma search_Some s i m :
  search s i = Some m →
  ∃ pre rest,
    s = pre ++ marker_text (group1 m) ++ rest
    ∧ is_marker (group1 m)
    ∧ m = mkMatch (i + length pre) (marker_text (group1 m)) (group1 m)
    ∧ ∀ j, j < length pre → ¬ occurs_at s j.
Proof.
  revert i. induction s as [|c s IH]; intros i; simpl.
  - destruct (match_at []) as [[inner rest]|] eqn:E; [|done].
    apply match_at_spec in E as [_ E]. done.
  - destruct (match_at (c :: s)) as [[inner rest]|] eqn:E.
    + intros [= <-]. apply match_at_spec in E as [Hm E].
      exists [], rest. simpl. rewrite Nat.add_0_r. split_and!; try done.
      intros j Hj. lia.
    + intros H. apply IH in H as (pre & rest & Hs & Hm & Heq & Hlt).
      exists (c :: pre), rest. split_and!; try done.
      * by rewrite Hs at 1.
      * rewrite Heq at 1. cbn [length]. f_equal. lia.
      * intros [|j] Hj.
        -- by apply match_at_None_iff.
        -- rewrite occurs_at_cons. apply Hlt. simpl in Hj. lia.
Qed.

(** What a successful [exec] tells: the match is a marker of the content at
    [index], no marker occurs between [lastIndex] and [index], and the new
    [lastIndex] is the end of the match. *)
Lemma RegExp_exec_Some content lastIndex m lastIndex' :
  RegExp_exec content lastIndex = (Some m, lastIndex') →
  ∃ rest,
    is_marker (group1 m)
    ∧ matched m = marker_text (group1 m)
    ∧ lastIndex ≤ index m
    ∧ drop (index m) content = marker_text (group1 m) ++ rest
    ∧ lastIndex' = index m + length (matched m)
    ∧ lastIndex' ≤ length content
    ∧ ∀ j, lastIndex ≤ j < index m → ¬ occurs_at content j.
Proof.
  unfold RegExp_exec. case_bool_decide as Hlen; [done|].
  destruct (search (drop lastIndex content) lastIndex) as [m'|] eqn:E; [|done].
  intros [= -> <-]. apply search_Some in E as (pre & rest & Hs & Hm & Heq & Hlt).
  assert (index m = lastIndex + length pre) as Hidx by (by rewrite Heq).
  assert (matched m = marker_text (group1 m)) as Hmt by (by rewrite Heq).
  assert (drop (index m) content = marker_text (group1 m) ++ rest) as Hd.
  { rewrite Hidx, <- drop_drop, Hs. by rewrite drop_app_length. }
  exists rest. split_and!; try done.
  - lia.
  - assert (length (drop (index m) content) = length (marker_text (group1 m) ++ rest)) as HL
      by (by rewrite Hd).
    rewrite length_drop, length_app, marker_text_length in HL.
    rewrite Hmt, marker_text_length. lia.
  - intros j [Hj1 Hj2] (inner & rest' & Hm' & Hocc).
    apply (Hlt (j - lastIndex)); [lia|].
    exists inner, rest'. split; [done|].
    rewrite drop_drop. by replace (lastIndex + (j - lastIndex)) with j by lia.
Qed.

Lemma RegExp_exec_None content lastIndex lastIndex' :
  RegExp_exec content lastIndex = (None, lastIndex') →
  ∀ j, lastIndex ≤ j → ¬ occurs_at content j.
Proof.
  unfold RegExp_exec. case_bool_decide as Hlen.
  - intros _ j Hj Hocc. apply occurs_at_lt in Hocc. lia.
  - destruct (search (drop lastIndex content) lastIndex) eqn:E; [done|].
    intros _ j Hj (inner & rest & Hm & Hocc).
    eapply search_None in E. apply E. exists inner, rest. split; [done|].
    rewrite drop_drop. by replace (lastIndex + (j - lastIndex)) with j by lia.
Qed.

Lemma RegExp_exec_advances content lastIndex m lastIndex' :
  RegExp_exec content lastIndex = (Some m, lastIndex') →
  lastIndex < lastIndex' ≤ length content.
Proof.
  intros H. apply RegExp_exec_Some in H as (rest & _ & Hmt & Hle & _ & -> & Hlen & _).
  rewrite Hmt, marker_text_length in *. lia.
Qed.

(** ** The loops terminate within their bound

    A bound larger than the number of code units left gives the loops all the
    iterations they need: any two such bounds give the same result. *)

Lemma exec_all_fuel fuel1 fuel2 content lastIndex :
  length content - lastIndex < fuel1 →
  length content - lastIndex < fuel2 →
  exec_all fuel1 content lastIndex = exec_all fuel2 content lastIndex.
Proof.
  revert fuel2 lastIndex. induction fuel1 as [|fuel1 IH]; intros [|fuel2] lastIndex H1 H2;
    try lia.
  simpl. destruct (RegExp_exec content lastIndex) as [[m|] lastIndex'] eqn:E; [|done].
  apply RegExp_exec_advances in E. f_equal. apply IH; lia.
Qed.

Lemma extract_loop_exec_all fuel content lastIndex variables :
  extract_loop fuel content lastIndex variables
  = fold_left push_variable (exec_all fuel content lastIndex) variables.
Proof.
  revert lastIndex variables. induction fuel as [|fuel IH]; intros lastIndex variables;
    [done|].
  simpl. destruct (RegExp_exec content lastIndex) as [[m|] lastIndex']; [|done].
  simpl. apply IH.
Qed.

Lemma extract_loop_fuel fuel content lastIndex variables :
  length content - lastIndex < fuel →
  extract_loop fuel content lastIndex variables
  = extract_loop (S (length content)) content lastIndex variables.
Proof.
  intros H. rewrite !extract_loop_exec_all. f_equal. apply exec_all_fuel; lia.
Qed.

Lemma exec_all_matchAll fuel content :
  length content < fuel → exec_all fuel content 0 = matchAll content.
Proof. intros H. apply exec_all_fuel; lia. Qed.

(** ** De-duplication that keeps first occurrences *)

Lemma filter_all {A} (P : A → Prop) `{!∀ x, Decision (P x)} (l : list A) :
  (∀ x, x ∈ l → P x) → filter P l = l.
Proof.
  induction l as [|a l IH]; intros Hall; [done|].
  rewrite filter_cons_True by (apply Hall; left). f_equal.
  apply IH. intros x Hx. apply Hall. by right.
Qed.

Lemma elem_of_dedup_first l x : x ∈ dedup_first l ↔ x ∈ l.
Proof.
  induction l as [|a l IH]; simpl; [done|].
  rewrite !elem_of_cons, list_elem_of_filter, IH.
  destruct (decide (x = a)); naive_solver.
Qed.

Lemma NoDup_dedup_first l : NoDup (dedup_first l).
Proof.
  induction l as [|a l IH]; simpl; constructor.
  - rewrite list_elem_of_filter. naive_solver.
  - by apply NoDup_filter.
Qed.

Lemma dedup_first_filter (P : jsstring → Prop) `{!∀ x, Decision (P x)} l :
  dedup_first (filter P l) = filter P (dedup_first l).
Proof.
  induction l as [|a l IH]; [done|].
  rewrite filter_cons. simpl. destruct (decide (P a)) as [Ha|Ha].
  - simpl. rewrite filter_cons, decide_True by done. f_equal.
    rewrite IH, !list_filter_filter. apply list_filter_iff. naive_solver.
  - rewrite filter_cons, decide_False by done.
    rewrite IH, !list_filter_filter. apply list_filter_iff. naive_solver.
Qed.

(** First-occurrence order: the elements first met in [l1] come before the
    ones first met in [l2]. *)
Lemma dedup_first_app l1 l2 :
  dedup_first (l1 ++ l2) = dedup_first l1 ++ filter (λ y, y ∉ l1) (dedup_first l2).
Proof.
  induction l1 as [|a l1 IH]; simpl.
  - symmetry. apply filter_all. intros x _. apply not_elem_of_nil.
  - f_equal. rewrite IH, filter_app, list_filter_filter. f_equal.
    apply list_filter_iff. intros x. rewrite not_elem_of_cons. naive_solver.
Qed.

Lemma truthy_string_spec s : truthy_string s = true ↔ s ≠ [].
Proof. destruct s; simpl; split; (done || congruence). Qed.

Lemma fold_push_variable ms variables :
  fold_left push_variable ms variables
  = fold_left push_name (map (λ m, trim (group1 m)) ms) variables.
Proof. revert variables. induction ms as [|m ms IH]; intros variables; simpl; [done|]. apply IH. Qed.

Lemma fold_push_name names variables :
  fold_left push_name names variables
  = variables ++ filter (λ y, y ∉ variables) (dedup_first (filter (λ n, n ≠ []) names)).
Proof.
  revert variables. induction names as [|n names IH]; intros variables.
  - simpl. by rewrite app_nil_r.
  - cbn [fold_left]. rewrite IH, filter_cons. unfold push_name, includes.
    destruct (decide (n ≠ [])) as [Hn|Hn].
    + apply truthy_string_spec in Hn as ->. cbn [andb dedup_first].
      case_bool_decide as Hin; cbn [negb].
      * f_equal. rewrite filter_cons, decide_False by naive_solver.
        rewrite list_filter_filter. apply list_filter_iff. intros x. naive_solver.
      * rewrite <- app_assoc. f_equal.
        rewrite filter_cons, decide_True by done. cbn [app]. f_equal.
        rewrite list_filter_filter. apply list_filter_iff. intros x.
        rewrite not_elem_of_app, list_elem_of_singleton. naive_solver.
    + assert (truthy_string n = false) as ->.
      { destruct n; [done|]. exfalso. by apply Hn. }
      done.
Qed.

Lemma extractVariables_matchAll content :
  extractVariables content = fold_left push_variable (matchAll content) [].
Proof. unfold extractVariables. by rewrite extract_loop_exec_all. Qed.

Lemma extractVariables_dedup content :
  extractVariables content
  = dedup_first (filter (λ n, n ≠ []) (placeholder_names content)).
Proof.
  rewrite extractVariables_matchAll, fold_push_variable, fold_push_name.
  cbn [app]. apply filter_all. intros x _. apply not_elem_of_nil.
Qed.

(** ** Substitution, match by match *)

Lemma splice_acc content results repl n acc :
  splice content results repl n acc = acc ++ splice content results repl n [].
Proof.
  revert n acc. induction results as [|m results IH]; intros n acc; simpl; [done|].
  case_bool_decide; [|done].
  rewrite IH, (IH _ (take _ _ ++ _)). by rewrite <- !app_assoc.
Qed.

Lemma RegExp_exec_shift x rest i :
  RegExp_exec (x ++ rest) (length x + i)
  = match RegExp_exec rest i with
    | (Some m, lastIndex') => (Some (shift (length x) m), length x + lastIndex')
    | (None, _) => (None, 0)
    end.
Proof.
  unfold RegExp_exec. rewrite length_app, drop_app_add', search_shift by done.
  case_bool_decide; case_bool_decide; try lia; [done|].
  destruct (search (drop i rest) i) as [m|]; simpl; [|done].
  f_equal. lia.
Qed.

Lemma exec_all_shift fuel x rest i :
  exec_all fuel (x ++ rest) (length x + i)
  = map (shift (length x)) (exec_all fuel rest i).
Proof.
  revert i. induction fuel as [|fuel IH]; intros i; [done|].
  cbn [exec_all]. rewrite RegExp_exec_shift.
  destruct (RegExp_exec rest i) as [[m|] lastIndex']; [|done].
  simpl. f_equal. apply IH.
Qed.

Lemma splice_shift x rest results repl n :
  (∀ m, repl (shift (length x) m) = repl m) →
  splice (x ++ rest) (map (shift (length x)) results) repl (length x + n) []
  = splice rest results repl n [].
Proof.
  intros Hrepl. revert n. induction results as [|m results IH]; intros n.
  - simpl. by rewrite drop_app_add'.
  - cbn [map splice shift index matched].
    case_bool_decide; case_bool_decide; try lia.
    + rewrite splice_acc, (splice_acc rest). cbn [app].
      rewrite drop_app_add' by done.
      replace (length x + index m - (length x + n)) with (index m - n) by lia.
      change (mkMatch (length x + index m) (matched m) (group1 m)) with (shift (length x) m).
      rewrite Hrepl. f_equal.
      rewrite <- Nat.add_assoc. apply IH.
    + apply IH.
Qed.

Lemma replacer_shift variableMap p m :
  replacer variableMap (shift p m) = replacer variableMap m.
Proof. done. Qed.

(** The scan, position by position: no match when the pattern occurs
    nowhere; otherwise the leftmost occurrence, then the matches of what
    follows it. *)
Lemma matchAll_none content :
  (∀ j, ¬ occurs_at content j) → matchAll content = [].
Proof.
  intros Hn. unfold matchAll. cbn [exec_all].
  destruct (RegExp_exec content 0) as [[m|] lastIndex'] eqn:E; [|done].
  apply RegExp_exec_Some in E as (rest & Hm & _ & _ & Hd & _).
  exfalso. apply (Hn (index m)). by exists (group1 m), rest.
Qed.

Lemma matchAll_leftmost pre inner rest :
  is_marker inner →
  (∀ j, j < length pre → ¬ occurs_at (pre ++ marker_text inner ++ rest) j) →
  matchAll (pre ++ marker_text inner ++ rest)
  = mkMatch (length pre) (marker_text inner) inner
    :: map (shift (length (pre ++ marker_text inner))) (matchAll rest).
Proof.
  intros Hm Hlt. unfold matchAll at 1. cbn [exec_all].
  unfold RegExp_exec at 1. rewrite bool_decide_false by lia. rewrite drop_0.
  rewrite search_leftmost by done. cbn [index matched Nat.add]. f_equal.
  rewrite app_assoc.
  replace (length pre + length (marker_text inner))
    with (length (pre ++ marker_text inner) + 0) by (rewrite length_app; lia).
  rewrite exec_all_shift. f_equal.
  apply exec_all_matchAll. rewrite !length_app, marker_text_length. lia.
Qed.

Lemma placeholder_names_none content :
  (∀ j, ¬ occurs_at content j) → placeholder_names content = [].
Proof. intros Hn. unfold placeholder_names. by rewrite matchAll_none. Qed.

Lemma placeholder_names_leftmost pre inner rest :
  is_marker inner →
  (∀ j, j < length pre → ¬ occurs_at (pre ++ marker_text inner ++ rest) j) →
  placeholder_names (pre ++ marker_text inner ++ rest)
  = trim inner :: placeholder_names rest.
Proof.
  intros Hm Hlt. unfold placeholder_names. rewrite matchAll_leftmost by done.
  cbn [map group1]. f_equal. rewrite map_map. by apply map_ext.
Qed.

Lemma String_replace_none content repl :
  (∀ j, ¬ occurs_at content j) → String_replace content repl = content.
Proof. intros Hn. unfold String_replace. by rewrite matchAll_none. Qed.

Lemma String_replace_leftmost pre inner rest repl :
  is_marker inner →
  (∀ j, j < length pre → ¬ occurs_at (pre ++ marker_text inner ++ rest) j) →
  (∀ p m, repl (shift p m) = repl m) →
  String_replace (pre ++ marker_text inner ++ rest) repl
  = pre ++ repl (mkMatch 0 (marker_text inner) inner) ++ String_replace rest repl.
Proof.
  intros Hm Hlt Hrepl. unfold String_replace at 1. rewrite matchAll_leftmost by done.
  cbn [splice index matched]. rewrite bool_decide_true by lia.
  rewrite app_assoc.
  replace (length pre + length (marker_text inner))
    with (length (pre ++ marker_text inner) + 0) by (rewrite length_app; lia).
  rewrite splice_acc, splice_shift by done. cbn [app].
  rewrite Nat.sub_0_r, drop_0, <- (app_assoc pre), take_app_length.
  replace (mkMatch (length pre) (marker_text inner) inner)
    with (shift (length pre) (mkMatch 0 (marker_text inner) inner))
    by (unfold shift; cbn; by rewrite Nat.add_0_r).
  by rewrite Hrepl, <- app_assoc.
Qed.

(** [new Map] keeps the last entry of a name. *)
Lemma variableMap_snoc variables v :
  variableMap (variables ++ [v])
  = <[var_name v := var_value v]> (variableMap variables).
Proof. unfold variableMap, Map_new. by rewrite map_app, fold_left_app. Qed.

(** ** Properties of the placeholder engine *)

(** C1 (as amended).  For every content, [extractVariables] returns the
    trimmed names of the matches with the empty names left out, every name
    once, at the place of its first occurrence; the sequence has no
    duplicates, and it does not depend on the iteration bound of the loop, so
    that extracting again gives the same sequence. *)
Theorem extractVariables_first_occurrence_dedup (content : jsstring) :
  extractVariables content
  = dedup_first (filter (λ n, n ≠ []) (placeholder_names content))
  ∧ NoDup (extractVariables content)
  ∧ ∀ extra, extract_loop (S (length content) + extra) content 0 []
             = extractVariables content.
Proof.
  split_and!.
  - apply extractVariables_dedup.
  - rewrite extractVariables_dedup. apply NoDup_dedup_first.
  - intros extra. apply extract_loop_fuel. lia.
Qed.

(** C1, as stated, fails: in [{{a}}{{ }}] the second placeholder has the
    trimmed name [""], which the de-duplicated sequence of trimmed names
    contains and the result of [extractVariables] does not. *)
Lemma extractVariables_not_all_names :
  placeholder_names (lit "{{a}}{{ }}") = [lit "a"; []]
  ∧ dedup_first (placeholder_names (lit "{{a}}{{ }}")) = [lit "a"; []]
  ∧ extractVariables (lit "{{a}}{{ }}") = [lit "a"]
  ∧ extractVariables (lit "{{a}}{{ }}")
    ≠ dedup_first (placeholder_names (lit "{{a}}{{ }}")).
Proof. vm_compute. split_and!; congruence. Qed.

(** C6 (as amended).  A placeholder whose inner text trims to the empty
    string is skipped: the empty string is never among the names that
    [extractVariables] returns. *)
Theorem extractVariables_skips_empty_name (content : jsstring) :
  includes (extractVariables content) [] = false.
Proof.
  unfold includes. apply bool_decide_eq_false.
  rewrite extractVariables_dedup, elem_of_dedup_first, list_elem_of_filter.
  naive_solver.
Qed.

(** C6, as stated, fails: [{{ }}] is a placeholder whose inner text trims to
    the empty string, and the result does not contain the empty string. *)
Lemma extractVariables_whitespace_only :
  placeholder_names (lit "{{ }}") = [[]]
  ∧ extractVariables (lit "{{ }}") = []
  ∧ includes (extractVariables (lit "{{ }}")) [] = false.
Proof. vm_compute. done. Qed.

Lemma fold_push_error (names : list jsstring) (known : list jsstring) errors :
  fold_left
    (λ errors variableName,
       if negb (includes known variableName)
       then errors ++ [missing_variable_error variableName]
       else errors)
    names errors
  = errors ++ map missing_variable_error (filter (λ n, n ∉ known) names).
Proof.
  revert errors. induction names as [|n names IH]; intros errors.
  - simpl. by rewrite app_nil_r.
  - cbn [fold_left]. rewrite IH, filter_cons. unfold includes.
    case_bool_decide; cbn [negb].
    + by rewrite decide_False by naive_solver.
    + rewrite decide_True by done. by rewrite <- app_assoc.
Qed.

(** C4.  [validateTemplate] returns one error for every extracted name that
    is not the name of an available variable, and none for the others: the
    errors are, in the order of the extracted names (which are distinct), the
    records with field ["content"] and the message
    [Variable '<name>' is not defined in settings]. *)
Theorem validateTemplate_errors (template : Template) (availableVariables : list Variable_) :
  validateTemplate template availableVariables
  = map (λ name, {| field := lit "content";
                    message := lit "Variable '" ++ name
                               ++ lit "' is not defined in settings" |})
        (filter (λ name, name ∉ map var_name availableVariables)
                (extractVariables (tpl_content template)))
  ∧ NoDup (extractVariables (tpl_content template)).
Proof.
  split.
  - unfold validateTemplate. by rewrite fold_push_error.
  - rewrite extractVariables_dedup. apply NoDup_dedup_first.
Qed.

(** C2.  Let the content be [pre], then a marker with inner text [inner],
    then [rest], with no marker starting inside [pre].  [processTemplate]
    copies [pre], puts the value found under the trimmed inner text in the
    place of the marker, or the marker itself, braces included, when the name
    is absent or its value is empty, and goes on with [rest] in the same
    way: every match is replaced, repeated names too. *)
Theorem processTemplate_replaces_each_match (template : Template)
    (variables : list Variable_) (pre inner rest : jsstring) :
  tpl_content template = pre ++ marker_text inner ++ rest →
  is_marker inner →
  (∀ j, j < length pre → ¬ occurs_at (tpl_content template) j) →
  processTemplate template variables
  = pre
    ++ match variableMap variables !! trim inner with
       | Some v => if truthy_string v then v else marker_text inner
       | None => marker_text inner
       end
    ++ processTemplate (with_content template rest) variables.
Proof.
  intros Hc Hm Hlt. unfold processTemplate. rewrite Hc in *.
  rewrite String_replace_leftmost; [done..|]. intros p m. apply replacer_shift.
Qed.

Lemma processTemplate_replaces_each_match_witness :
  processTemplate greeting mockVariables
  = lit "Hi " ++ lit "John Doe"
    ++ processTemplate (with_content greeting (lit ", {{nobody}} and {{name}}!")) mockVariables.
Proof.
  apply (processTemplate_replaces_each_match greeting mockVariables
           (lit "Hi ") (lit " name ") (lit ", {{nobody}} and {{name}}!")).
  - reflexivity.
  - split; [discriminate|]. repeat constructor; discriminate.
  - intros j Hj. apply match_at_None_iff.
    destruct j as [|[|[|j]]]; [reflexivity..|]. simpl in Hj. lia.
Defined.

(** C9.  On a content in which the marker pattern occurs nowhere,
    [processTemplate] returns the content unchanged, whatever the
    variables. *)
Theorem processTemplate_without_markers (template : Template) (variables : list Variable_) :
  (∀ j, ¬ occurs_at (tpl_content template) j) →
  processTemplate template variables = tpl_content template.
Proof. intros Hn. unfold processTemplate. by apply String_replace_none. Qed.

Lemma no_marker_without_lbrace (s : jsstring) :
  lbrace ∉ s → ∀ j, ¬ occurs_at s j.
Proof.
  intros Hs j (inner & rest & _ & E). apply Hs.
  rewrite <- (take_drop j s), E. apply elem_of_app. right. left.
Qed.

Lemma processTemplate_without_markers_witness :
  processTemplate (mockTemplate "Hello world, this is a simple message.") mockVariables
  = lit "Hello world, this is a simple message.".
Proof.
  apply (processTemplate_without_markers
           (mockTemplate "Hello world, this is a simple message.") mockVariables).
  apply no_marker_without_lbrace. vm_compute.
  intros H. repeat (apply elem_of_cons in H as [H|H]; [discriminate H|]).
  by apply elem_of_nil in H.
Defined.

(** C5.  Extraction and substitution go through the same matches
    ([matchAll]); the inner text of every match is non-empty and free of
    closing braces, so it ends at the first closing brace after the opening
    pair, and opening braces inside it are captured as they are: the content
    [{{order_{{type}}_id}}] has the one placeholder name [order_{{type], and
    substitution replaces the text [{{order_{{type}}] only. *)
Theorem matching_is_closing_brace_free :
  (∀ content,
     Forall (λ m, is_marker (group1 m)
                  ∧ matched m = marker_text (group1 m)
                  ∧ take (length (matched m)) (drop (index m) content) = matched m)
            (matchAll content))
  ∧ (∀ content,
       extractVariables content = fold_left push_variable (matchAll content) [])
  ∧ (∀ template variables,
       processTemplate template variables
       = splice (tpl_content template) (matchAll (tpl_content template))
           (replacer (variableMap variables)) 0 [])
  ∧ map group1 (matchAll (tpl_content nested)) = [lit "order_{{type"]
  ∧ extractVariables (tpl_content nested) = [lit "order_{{type"]
  ∧ processTemplate nested
      [mkVariable (lit "1") (lit "order_{{type") (lit "X") None (Some 0%Z) (Some 0%Z)]
    = lit "X_id}}".
Proof.
  split_and!; try (vm_compute; reflexivity).
  - intros content. unfold matchAll. generalize (S (length content)) 0.
    intros fuel. induction fuel as [|fuel IH]; intros lastIndex; [constructor|].
    cbn [exec_all]. destruct (RegExp_exec content lastIndex) as [[m|] lastIndex'] eqn:E;
      [|constructor].
    constructor; [|apply IH].
    apply RegExp_exec_Some in E as (rest & Hm & Hmt & _ & Hd & _).
    split_and!; [done..|]. by rewrite Hd, Hmt, take_app_length.
  - apply extractVariables_matchAll.
Qed.

(** ** Failures of the adapter *)

Section AdapterFailures.
Context {S : Type} {storage : StorageArea S} {platform : Platform}.
Implicit Types (w : World S) (key jsonData : jsstring) (v : value).

Lemma Get_absent o k :
  has_property o k = false → Get o k = Throw TypeError ∨ Get o k = Ok VUndefined.
Proof.
  destruct o; simpl; auto. intros H. right.
  destruct (lookup_property k properties) eqn:E; [|done].
  apply bool_decide_eq_false in H. exfalso. apply H. by eexists.
Qed.

Lemma load_settles key w :
  ∃ records,
    load key w = (Ok records, mkWorld (storage_get key (area w)).2 (writes w)).
Proof.
  unfold load, try_catch, mbind, Async_bind, chrome_storage_local_get, sync, mret, Async_ret.
  destruct (storage_get key (area w)) as [[items|e] s']; simpl; [|by eexists].
  destruct (Get items key) as [stored|e]; simpl; [|by eexists].
  destruct (Array_map _ rehydrate) as [records|e]; by eexists.
Qed.

Lemma load_rejected key w e s' :
  storage_get key (area w) = (Throw e, s') → (load key w).1 = Ok [].
Proof.
  intros E.
  unfold load, try_catch, mbind, Async_bind, chrome_storage_local_get, sync, mret, Async_ret.
  by rewrite E.
Qed.

Lemma load_absent key w items s' :
  storage_get key (area w) = (Ok items, s') →
  has_property items key = false →
  (load key w).1 = Ok [].
Proof.
  intros E Habs.
  unfold load, try_catch, mbind, Async_bind, chrome_storage_local_get, sync, mret, Async_ret.
  rewrite E. simpl. by destruct (Get_absent _ _ Habs) as [-> | ->].
Qed.

(** C8.  Loading a collection never throws, whatever the storage area does:
    [getTemplates] and [getVariables] always settle with a sequence and
    make no write; when the read is rejected, and when the items read do
    not have the key, the sequence is empty. *)
Theorem load_never_throws w :
  (∃ templates, (getTemplates w).1 = Ok templates)
  ∧ (∃ variables, (getVariables w).1 = Ok variables)
  ∧ writes (getTemplates w).2 = writes w
  ∧ writes (getVariables w).2 = writes w
  ∧ (∀ e s', storage_get STORAGE_KEYS_TEMPLATES (area w) = (Throw e, s') →
             (getTemplates w).1 = Ok [])
  ∧ (∀ e s', storage_get STORAGE_KEYS_VARIABLES (area w) = (Throw e, s') →
             (getVariables w).1 = Ok [])
  ∧ (∀ items s', storage_get STORAGE_KEYS_TEMPLATES (area w) = (Ok items, s') →
                 has_property items STORAGE_KEYS_TEMPLATES = false →
                 (getTemplates w).1 = Ok [])
  ∧ (∀ items s', storage_get STORAGE_KEYS_VARIABLES (area w) = (Ok items, s') →
                 has_property items STORAGE_KEYS_VARIABLES = false →
                 (getVariables w).1 = Ok []).
Proof.
  unfold getTemplates, getVariables.
  destruct (load_settles STORAGE_KEYS_TEMPLATES w) as [ts Ets].
  destruct (load_settles STORAGE_KEYS_VARIABLES w) as [vs Evs].
  split_and!.
  - exists ts. by rewrite Ets.
  - exists vs. by rewrite Evs.
  - by rewrite Ets.
  - by rewrite Evs.
  - intros e s'. apply load_rejected.
  - intros e s'. apply load_rejected.
  - intros items s'. apply load_absent.
  - intros items s'. apply load_absent.
Qed.

Lemma importData_unparseable jsonData w e :
  JSON_parse jsonData = Throw e → importData jsonData w = (Throw import_failure, w).
Proof.
  intros E. unfold importData, try_catch, mbind, Async_bind, sync, throw.
  by rewrite E.
Qed.

Lemma importData_missing jsonData w v :
  JSON_parse jsonData = Ok v →
  has_property v (lit "templates") = false ∨ has_property v (lit "variables") = false →
  importData jsonData w = (Throw import_failure, w).
Proof.
  intros E Hmiss. unfold importData, try_catch, mbind, Async_bind, sync, throw, mret, Async_ret.
  rewrite E. cbn match.
  destruct (Get v (lit "templates")) as [t|e] eqn:Et; [|done]. cbn match.
  destruct (truthy t) eqn:Ht; cbn [negb]; [|done].
  destruct (Get v (lit "variables")) as [vv|e] eqn:Ev; [|done]. cbn match.
  destruct (truthy vv) eqn:Hv; cbn [negb]; [|done].
  exfalso. destruct Hmiss as [H|H]; apply Get_absent in H as [H|H]; try congruence;
    [rewrite H in Et | rewrite H in Ev]; by simplify_eq.
Qed.

(** C7.  When the text is not parseable as JSON, and when the value parsed
    does not have the property [templates] or does not have the property
    [variables], [importData] is rejected with the one import failure and
    the world is as before: no [set] call was made, the area is
    untouched. *)
Theorem importData_rejects_malformed jsonData w :
  match JSON_parse jsonData with
  | Throw _ => True
  | Ok v => has_property v (lit "templates") = false
            ∨ has_property v (lit "variables") = false
  end →
  importData jsonData w = (Throw import_failure, w).
Proof.
  destruct (JSON_parse jsonData) as [v|e] eqn:E.
  - by apply importData_missing.
  - intros _. by eapply importData_unparseable.
Qed.

(** C10.  When both fields are there and truthy and one of them is not an
    array, [importData] is rejected with the import failure and no write is
    made: the [map] call on the value that is not an array throws before
    [saveAllData] is reached. *)
Theorem importData_rejects_non_arrays jsonData w v templates variables :
  JSON_parse jsonData = Ok v →
  Get v (lit "templates") = Ok templates →
  Get v (lit "variables") = Ok variables →
  truthy templates = true →
  truthy variables = true →
  is_array templates = false ∨ is_array variables = false →
  importData jsonData w = (Throw import_failure, w).
Proof.
  intros E Et Ev Ht Hv Hna.
  unfold importData, try_catch, mbind, Async_bind, sync, throw, mret, Async_ret.
  rewrite E. cbn match. rewrite Et. cbn match. rewrite Ht. cbn [negb].
  rewrite Ev. cbn match. rewrite Hv. cbn [negb].
  destruct (Array_map templates rehydrate) as [ts|e] eqn:Emap; [|done].
  destruct (Array_map variables rehydrate) as [vs|e] eqn:Emap'; [|done].
  exfalso. destruct Hna as [H|H].
  - destruct templates; simpl in *; congruence.
  - destruct variables; simpl in *; congruence.
Qed.
End AdapterFailures.



(** ** Typed records through load and save *)

Section RoundTrip.
Context {S : Type} {storage : StorageArea S} {platform : Platform}.
Context {lawful : LawfulStorage S}.
Implicit Types (w : World S) (t : Template) (v : Variable_).

Lemma Template_of_value_value t : Template_of_value (Template_value t) = Some t.
Proof. by destruct t. Qed.

Lemma Variable_of_value_value v : Variable_of_value (Variable_value v) = Some v.
Proof. by destruct v as [? ? ? [d|] ? ?]. Qed.

Lemma rehydrate_Template_value t : rehydrate (Template_value t) = Ok (Template_value t).
Proof. done. Qed.

Lemma rehydrate_Variable_imported v :
  rehydrate (Variable_imported v) = Ok (Variable_imported v).
Proof. by destruct v as [? ? ? [d|] ? ?]. Qed.

Lemma Variable_of_value_imported v : Variable_of_value (Variable_imported v) = Some v.
Proof. by destruct v as [? ? ? [d|] ? ?]. Qed.

Lemma result_mapM_map {A B C} (f : B → result C) (g : A → B) (h : A → C) (l : list A) :
  Forall (λ x, f (g x) = Ok (h x)) l → mapM f (map g l) = Ok (map h l).
Proof.
  induction 1 as [|x l Hx _ IH]; [done|].
  cbn [map mapM]. rewrite Hx. cbn [mbind result_bind]. by rewrite IH.
Qed.

Lemma load_lawful key w : load key w = ((load key w).1, w).
Proof.
  destruct (load_settles key w) as [records ->]. cbn [fst].
  rewrite get_leaves_area. by destruct w.
Qed.

Lemma load_stored key w items records :
  (storage_get key (area w)).1 = Ok items →
  Get items key = Ok (VArray records) →
  (load key w).1 = Ok (default [] (match mapM rehydrate records with
                                   | Ok l => Some l
                                   | Throw _ => None
                                   end)).
Proof.
  intros Hget Hitems.
  unfold load, try_catch, mbind, Async_bind, chrome_storage_local_get, sync, mret, Async_ret.
  destruct (storage_get key (area w)) as [r s'] eqn:E. cbn [fst] in Hget. subst r.
  cbn match. rewrite Hitems. cbn match. cbn [truthy Array_map].
  by destruct (mapM rehydrate records).
Qed.

Lemma getAllData_lawful w :
  getAllData w
  = (match (getTemplates w).1, (getVariables w).1 with
     | Ok x, Ok y => Ok (x, y)
     | Throw e, _ => Throw e
     | _, Throw e => Throw e
     end, w).
Proof.
  unfold getAllData, Promise_all, getTemplates, getVariables.
  rewrite (load_lawful STORAGE_KEYS_TEMPLATES w).
  by rewrite (load_lawful STORAGE_KEYS_VARIABLES w).
Qed.

Lemma keys_differ : STORAGE_KEYS_VARIABLES ≠ STORAGE_KEYS_TEMPLATES.
Proof. discriminate. Qed.

Lemma json_image_export_object ts vs now :
  json_image (export_object (ts, vs) now)
  = VObject [ (lit "templates", VArray (map json_image ts));
              (lit "variables", VArray (map json_image vs));
              (lit "version", VString (lit "1.0.0"));
              (lit "exportedAt", VString (Date_toISOString now)) ].
Proof. done. Qed.

Lemma saveAllData_succeeded ts vs w w' :
  saveAllData (ts, vs) w = (Ok (), w') →
  ∃ s1,
    storage_set [(STORAGE_KEYS_TEMPLATES, VArray ts)] (area w) = (Ok (), s1)
    ∧ storage_set [(STORAGE_KEYS_VARIABLES, VArray vs)] s1 = (Ok (), area w').
Proof.
  unfold saveAllData, Promise_all, saveTemplates, saveVariables, save, try_catch,
    chrome_storage_local_set, mbind, Async_bind, mret, Async_ret, throw.
  cbn [fst snd area writes].
  destruct (storage_set [(STORAGE_KEYS_TEMPLATES, VArray ts)] (area w))
    as [[[]|e1] s1] eqn:E1; cbn [area writes];
    destruct (storage_set [(STORAGE_KEYS_VARIABLES, VArray vs)] s1)
      as [[[]|e2] s2] eqn:E2; cbn [area writes]; intros [= <-]; cbn [area].
  by exists s1.
Qed.

End RoundTrip.

(** ** The reference storage area is a key-value store *)

Lemma map_area_lawful : LawfulStorage (gmap jsstring value).
Proof.
  split.
  - done.
  - intros key v s s' [= <-]. cbn [foldl fst snd storage_get Reference.map_area].
    rewrite lookup_insert_eq. eexists. split; [done|].
    cbn [Get lookup_property]. by rewrite bool_decide_true.
  - intros key key' v s s' Hne [= <-]. cbn [foldl fst snd storage_get Reference.map_area].
    by rewrite lookup_insert_ne.
Qed.

(** ** The tests of [storage.test.ts], evaluated *)

Example test_getTemplates :
  (getTemplates (mkWorld {[ STORAGE_KEYS_TEMPLATES := mockTemplates_stored ]} [])).1
  = Ok (map Template_value stored_templates).
Proof. vm_compute. reflexivity. Qed.

Example test_getTemplates_none : (getTemplates empty_world).1 = Ok [].
Proof. vm_compute. reflexivity. Qed.

Example test_getTemplates_storage_error :
  (@getTemplates () Reference.failing_area _ (mkWorld () [])).1 = Ok [].
Proof. vm_compute. reflexivity. Qed.

Example test_saveTemplates_storage_error :
  (@saveTemplates () Reference.failing_area [] (mkWorld () [])).1
  = Throw Reference.storage_error.
Proof. vm_compute. reflexivity. Qed.

Example test_importData :
  (importData (JSON_stringify mock_import) empty_world).1 = Ok ()
  ∧ length (writes (importData (JSON_stringify mock_import) empty_world).2) = 2.
Proof. vm_compute. done. Qed.

Example test_importData_invalid_json :
  (importData (lit "invalid json") empty_world).1 = Throw import_failure.
Proof. vm_compute. reflexivity. Qed.

(** ** Witnesses on the reference platform *)

Lemma load_never_throws_witness :
  (getTemplates empty_world).1 = Ok []
  ∧ (@getVariables () Reference.failing_area _ (mkWorld () [])).1 = Ok [].
Proof.
  split.
  - destruct (load_never_throws empty_world) as (_ & _ & _ & _ & _ & _ & Habsent & _).
    apply (Habsent (VObject []) ∅); reflexivity.
  - destruct (@load_never_throws () Reference.failing_area _ (mkWorld () []))
      as (_ & _ & _ & _ & _ & Hrejected & _).
    apply (Hrejected Reference.storage_error ()); reflexivity.
Defined.

Lemma importData_rejects_malformed_witness :
  importData (lit "invalid json") empty_world = (Throw import_failure, empty_world)
  ∧ importData (JSON_stringify (VObject [(lit "invalid", VString (lit "data"))])) empty_world
    = (Throw import_failure, empty_world).
Proof.
  split.
  - apply (importData_rejects_malformed (lit "invalid json") empty_world).
    vm_compute. exact I.
  - apply (importData_rejects_malformed
             (JSON_stringify (VObject [(lit "invalid", VString (lit "data"))])) empty_world).
    vm_compute. left. reflexivity.
Defined.

Lemma importData_rejects_non_arrays_witness :
  importData
    (JSON_stringify (VObject [ (lit "templates", VString (lit "abc"));
                               (lit "variables", VArray []) ])) empty_world
  = (Throw import_failure, empty_world)
  ∧ importData
      (JSON_stringify (VObject [ (lit "templates", VArray []);
                                 (lit "variables", VNumber 5) ])) empty_world
    = (Throw import_failure, empty_world).
Proof.
  split.
  - apply (importData_rejects_non_arrays _ empty_world
             (VObject [ (lit "templates", VString (lit "abc")); (lit "variables", VArray []) ])
             (VString (lit "abc")) (VArray []));
      try (vm_compute; reflexivity).
    left. reflexivity.
  - apply (importData_rejects_non_arrays _ empty_world
             (VObject [ (lit "templates", VArray []); (lit "variables", VNumber 5) ])
             (VArray []) (VNumber 5));
      try (vm_compute; reflexivity).
    right. reflexivity.
Defined.


(** * Part IV: further properties of the program *)

(** ** Induction along the scan *)

Lemma scan_cases s :
  (∀ j, ¬ occurs_at s j)
  ∨ ∃ pre inner rest,
      s = pre ++ marker_text inner ++ rest
      ∧ is_marker inner
      ∧ ∀ j, j < length pre → ¬ occurs_at s j.
Proof.
  destruct (search s 0) as [m|] eqn:E.
  - right. apply search_Some in E as (pre & rest & Hs & Hm & _ & Hlt).
    by exists pre, (group1 m), rest.
  - left. by eapply search_None.
Qed.

(** A property holds of every content when it holds of the contents without
    marker and passes from what follows the leftmost marker to the whole. *)
Lemma scan_ind (P : jsstring → Prop) :
  (∀ s, (∀ j, ¬ occurs_at s j) → P s) →
  (∀ pre inner rest,
     is_marker inner →
     (∀ j, j < length pre → ¬ occurs_at (pre ++ marker_text inner ++ rest) j) →
     P rest → P (pre ++ marker_text inner ++ rest)) →
  ∀ s, P s.
Proof.
  intros Hnone Hstep s. remember (length s) as n eqn:Hn. revert s Hn.
  induction (lt_wf n) as [n _ IH]. intros s ->.
  destruct (scan_cases s) as [Hn|(pre & inner & rest & -> & Hm & Hlt)].
  - by apply Hnone.
  - apply Hstep; [done..|]. eapply IH; [|reflexivity].
    rewrite !length_app, marker_text_length. lia.
Qed.

(** ** The text around the markers *)

Lemma marker_text_last inner : last (marker_text inner) = Some rbrace.
Proof.
  unfold marker_text.
  replace (lbrace :: lbrace :: inner ++ [rbrace; rbrace])
    with ((lbrace :: lbrace :: inner ++ [rbrace]) ++ [rbrace]).
  - apply last_snoc.
  - cbn [app]. by rewrite <- app_assoc.
Qed.

Lemma elem_of_drop_1 {A} (x : A) k l : x ∈ drop k l → x ∈ l.
Proof. intros H. rewrite <- (take_drop k l). apply elem_of_app. by right. Qed.

Lemma occurs_at_app_r s post j : occurs_at s j → occurs_at (s ++ post) j.
Proof.
  intros Hocc. pose proof (occurs_at_lt _ _ Hocc) as Hlen.
  destruct Hocc as (inner & rest & Hm & E).
  exists inner, (rest ++ post). split; [done|].
  rewrite drop_app_le by lia. by rewrite E, <- app_assoc.
Qed.

Lemma occurs_at_app_l pre s j : occurs_at s j → occurs_at (pre ++ s) (length pre + j).
Proof.
  intros (inner & rest & Hm & E). exists inner, rest. split; [done|].
  by rewrite drop_app_add'.
Qed.

(** A marker ends in a closing brace: it cannot reach into a text that has
    none. *)
Lemma occurs_at_suffix_free s post j :
  rbrace ∉ post → occurs_at (s ++ post) j → occurs_at s j.
Proof.
  intros Hpost (inner & rest & Hm & E). rewrite drop_app in E.
  set (post' := drop (j - length s) post) in E.
  assert (rbrace ∉ post') as Hpost'.
  { intros H. apply Hpost. by eapply elem_of_drop_1. }
  apply app_eq_inv in E as [(k & E1 & E2)|(k & E1 & E2)].
  - by exists inner, k.
  - destruct (last k) as [c|] eqn:Hk.
    + exfalso. apply Hpost'. rewrite E2. apply elem_of_app. left.
      pose proof (marker_text_last inner) as HL. rewrite E1, last_app, Hk in HL.
      injection HL as ->. apply last_Some in Hk as [k' ->].
      apply elem_of_app. right. left.
    + apply last_None in Hk as ->. rewrite app_nil_r in E1.
      exists inner, []. split; [done|]. by rewrite app_nil_r.
Qed.

(** A marker starts with an opening brace: it cannot start in a text that
    has none. *)
Lemma occurs_at_prefix_free pre s j :
  lbrace ∉ pre → occurs_at (pre ++ s) j →
  length pre ≤ j ∧ occurs_at s (j - length pre).
Proof.
  intros Hpre (inner & rest & Hm & E).
  destruct (decide (j < length pre)) as [Hj|Hj].
  - exfalso. apply Hpre. rewrite drop_app_le in E by lia.
    destruct (drop j pre) as [|c t] eqn:Hd.
    { assert (length (drop j pre) = 0) as HL by (by rewrite Hd).
      rewrite length_drop in HL. lia. }
    injection E as -> _. eapply elem_of_drop_1. rewrite Hd. left.
  - split; [lia|]. exists inner, rest. split; [done|].
    rewrite drop_app_ge in E by lia. done.
Qed.

Lemma shift_shift p q m : shift p (shift q m) = shift (p + q) m.
Proof. unfold shift. cbn. f_equal. lia. Qed.

(** Where no marker starts in [x], the scan of [x ++ y] is the scan of [y],
    moved. *)
Lemma matchAll_skip x y :
  (∀ j, j < length x → ¬ occurs_at (x ++ y) j) →
  matchAll (x ++ y) = map (shift (length x)) (matchAll y).
Proof.
  intros Hx. destruct (scan_cases y) as [Hn|(pre & inner & rest & -> & Hm & Hlt)].
  - rewrite (matchAll_none y Hn). apply matchAll_none. intros j Hocc.
    destruct (decide (j < length x)) as [Hj|Hj]; [by eapply Hx|].
    apply (Hn (j - length x)). destruct Hocc as (inner & rest & Hm & E).
    exists inner, rest. split; [done|]. by rewrite drop_app_ge in E by lia.
  - rewrite app_assoc, !matchAll_leftmost; [|done|done|done|].
    + cbn [map]. f_equal.
      * unfold shift. cbn. f_equal. by rewrite length_app.
      * rewrite map_map. apply map_ext. intros m. rewrite shift_shift. f_equal.
        rewrite !length_app. lia.
    + intros j Hj. rewrite <- app_assoc.
      destruct (decide (j < length x)) as [Hjx|Hjx]; [by apply Hx|].
      intros (inner' & rest' & Hm' & E). apply (Hlt (j - length x)).
      { rewrite length_app in Hj. lia. }
      exists inner', rest'. split; [done|]. by rewrite drop_app_ge in E by lia.
Qed.

Lemma matchAll_prefix pre s :
  lbrace ∉ pre → matchAll (pre ++ s) = map (shift (length pre)) (matchAll s).
Proof.
  intros Hpre. apply matchAll_skip. intros j Hj Hocc.
  apply occurs_at_prefix_free in Hocc as [? _]; [lia|done].
Qed.

Lemma matchAll_suffix s post :
  rbrace ∉ post → matchAll (s ++ post) = matchAll s.
Proof.
  intros Hpost. induction s as [s Hn|pre inner rest Hm Hlt IH] using scan_ind.
  - rewrite (matchAll_none s Hn). apply matchAll_none. intros j Hocc.
    by eapply Hn, occurs_at_suffix_free.
  - rewrite <- !app_assoc, !matchAll_leftmost, IH; [done..|].
    intros j Hj Hocc. apply (Hlt j Hj).
    apply (occurs_at_suffix_free _ post); [done|]. by rewrite <- !app_assoc.
Qed.

Lemma placeholder_names_shift p ms :
  map (λ m, trim (group1 m)) (map (shift p) ms) = map (λ m, trim (group1 m)) ms.
Proof. rewrite map_map. by apply map_ext. Qed.

Lemma placeholder_names_around pre s post :
  lbrace ∉ pre → rbrace ∉ post →
  placeholder_names (pre ++ s ++ post) = placeholder_names s.
Proof.
  intros Hpre Hpost. unfold placeholder_names.
  by rewrite matchAll_prefix, placeholder_names_shift, matchAll_suffix.
Qed.

Lemma String_replace_suffix s post repl :
  rbrace ∉ post →
  (∀ p m, repl (shift p m) = repl m) →
  String_replace (s ++ post) repl = String_replace s repl ++ post.
Proof.
  intros Hpost Hrepl. induction s as [s Hn|pre inner rest Hm Hlt IH] using scan_ind.
  - rewrite (String_replace_none s) by done. apply String_replace_none.
    intros j Hocc. by eapply Hn, occurs_at_suffix_free.
  - rewrite (String_replace_leftmost pre inner rest) by done.
    rewrite <- !app_assoc. rewrite String_replace_leftmost; [by rewrite IH|done| |done].
    intros j Hj Hocc. apply (Hlt j Hj).
    apply (occurs_at_suffix_free _ post); [done|]. by rewrite <- !app_assoc.
Qed.

Lemma String_replace_prefix pre s repl :
  lbrace ∉ pre →
  (∀ p m, repl (shift p m) = repl m) →
  String_replace (pre ++ s) repl = pre ++ String_replace s repl.
Proof.
  intros Hpre Hrepl.
  assert (∀ t j, j < length pre → ¬ occurs_at (pre ++ t) j) as Hfree.
  { intros t j Hj Hocc. apply occurs_at_prefix_free in Hocc as [? _]; [lia|done]. }
  destruct (scan_cases s) as [Hn|(p & inner & rest & -> & Hm & Hlt)].
  - rewrite (String_replace_none s) by done. apply String_replace_none.
    intros j Hocc. apply occurs_at_prefix_free in Hocc as [_ Hocc]; [|done].
    by eapply Hn.
  - rewrite (String_replace_leftmost p inner rest) by done.
    rewrite app_assoc, String_replace_leftmost; [by rewrite <- !app_assoc|done| |done].
    intros j Hj. rewrite <- app_assoc. intros Hocc.
    apply occurs_at_prefix_free in Hocc as [Hle Hocc]; [|done].
    apply (Hlt (j - length pre)); [|done]. rewrite length_app in Hj. lia.
Qed.

(** ** Trimming *)

Lemma white_space_not_brace c : is_white_space c = true → c ≠ lbrace ∧ c ≠ rbrace.
Proof. intros H. split; intros ->; vm_compute in H; discriminate. Qed.

Lemma trimStart_split s :
  ∃ ws, s = ws ++ trimStart s ∧ Forall (λ c, is_white_space c = true) ws.
Proof.
  induction s as [|c s (ws & E & Hws)]; [by exists []|].
  cbn [trimStart]. destruct (is_white_space c) eqn:Hc.
  - exists (c :: ws). split; [by rewrite E at 1|by constructor].
  - by exists [].
Qed.

Lemma trimEnd_split s :
  ∃ ws, s = trimEnd s ++ ws ∧ Forall (λ c, is_white_space c = true) ws.
Proof.
  unfold trimEnd. destruct (trimStart_split (rev s)) as (ws & E & Hws).
  exists (rev ws). split.
  - rewrite <- rev_app_distr, <- E. by rewrite rev_involutive.
  - by apply Forall_rev.
Qed.

Lemma trim_split s :
  ∃ ws1 ws2,
    s = ws1 ++ trim s ++ ws2
    ∧ Forall (λ c, is_white_space c = true) ws1
    ∧ Forall (λ c, is_white_space c = true) ws2.
Proof.
  unfold trim. destruct (trimStart_split s) as (ws1 & E1 & H1).
  destruct (trimEnd_split (trimStart s)) as (ws2 & E2 & H2).
  exists ws1, ws2. by rewrite <- E2, <- E1.
Qed.

Lemma white_space_free (c : N) ws :
  Forall (λ c, is_white_space c = true) ws → is_white_space c = false → c ∉ ws.
Proof.
  intros Hws Hc Hin. rewrite Forall_forall in Hws. apply Hws in Hin. congruence.
Qed.

Lemma trimStart_fixed s :
  match s with [] => True | c :: _ => is_white_space c = false end → trimStart s = s.
Proof. destruct s as [|c s]; [done|]. cbn. by intros ->. Qed.

Lemma trimStart_head s :
  match trimStart s with [] => True | c :: _ => is_white_space c = false end.
Proof.
  induction s as [|c s IH]; [done|]. cbn [trimStart].
  by destruct (is_white_space c) eqn:Hc.
Qed.

Lemma trimStart_idempotent s : trimStart (trimStart s) = trimStart s.
Proof. apply trimStart_fixed, trimStart_head. Qed.

(** Trimming the end keeps the head. *)
Lemma trimEnd_head s :
  match s with [] => True | c :: _ => is_white_space c = false end →
  match trimEnd s with [] => True | c :: _ => is_white_space c = false end.
Proof.
  intros Hs. destruct (trimEnd_split s) as (ws & E & Hws).
  destruct (trimEnd s) as [|d t]; [done|].
  destruct s as [|c s]; [done|]. by injection E as -> _.
Qed.

Lemma trim_idempotent s : trim (trim s) = trim s.
Proof.
  unfold trim.
  rewrite (trimStart_fixed (trimEnd (trimStart s)))
    by apply trimEnd_head, trimStart_head.
  unfold trimEnd. by rewrite rev_involutive, trimStart_idempotent.
Qed.

Lemma extractVariables_around pre s post :
  lbrace ∉ pre → rbrace ∉ post →
  extractVariables (pre ++ s ++ post) = extractVariables s.
Proof.
  intros Hpre Hpost. by rewrite !extractVariables_dedup, placeholder_names_around.
Qed.

Lemma extractVariables_trim s : extractVariables (trim s) = extractVariables s.
Proof.
  destruct (trim_split s) as (ws1 & ws2 & E & H1 & H2).
  rewrite E at 2. symmetry. apply extractVariables_around.
  - by apply white_space_free.
  - by apply white_space_free.
Qed.

(** ** The names that come out *)

Lemma matchAll_markers content :
  Forall (λ m, is_marker (group1 m)
               ∧ ∃ rest, content
                         = take (index m) content ++ marker_text (group1 m) ++ rest)
         (matchAll content).
Proof.
  unfold matchAll. generalize (S (length content)) 0.
  intros fuel. induction fuel as [|fuel IH]; intros lastIndex; [constructor|].
  cbn [exec_all]. destruct (RegExp_exec content lastIndex) as [[m|] lastIndex'] eqn:E;
    [|constructor].
  constructor; [|apply IH].
  apply RegExp_exec_Some in E as (rest & Hm & Hmt & _ & Hd & _).
  split; [done|]. exists rest. by rewrite <- Hd, take_drop.
Qed.

(** X1.  Every name that [extractVariables] returns is non-empty, is trimmed
    (trimming it again changes nothing), has no closing brace in it, and is
    a piece of the content as it stands there. *)
Theorem extracted_names_come_from_content (content : jsstring) :
  Forall (λ name, (name ≠ [])
                  ∧ trim name = name
                  ∧ (rbrace ∉ name)
                  ∧ (∃ before after, content = before ++ name ++ after))
         (extractVariables content).
Proof.
  apply Forall_forall. intros name Hname.
  rewrite extractVariables_dedup, elem_of_dedup_first, list_elem_of_filter in Hname.
  destruct Hname as [Hne Hname]. unfold placeholder_names in Hname.
  apply list_elem_of_fmap in Hname as (m & -> & Hm).
  pose proof (matchAll_markers content) as Hall. rewrite Forall_forall in Hall.
  destruct (Hall m Hm) as [[_ Hrb] [rest Hc]].
  destruct (trim_split (group1 m)) as (ws1 & ws2 & E & _ & _).
  split_and!.
  - done.
  - apply trim_idempotent.
  - intros Hin. rewrite Forall_forall in Hrb. apply (Hrb rbrace); [|done].
    rewrite E. apply elem_of_app. right. apply elem_of_app. by left.
  - exists (take (index m) content ++ [lbrace; lbrace] ++ ws1),
      (ws2 ++ [rbrace; rbrace] ++ rest).
    rewrite Hc at 1. unfold marker_text. rewrite E at 1.
    by repeat (cbn [app]; rewrite <- ?app_assoc).
Qed.

(** X2.  Text without opening brace before a content and text without
    closing brace after it change nothing to the names extracted. *)
Theorem extractVariables_ignores_surroundings (before content after : jsstring) :
  lbrace ∉ before → rbrace ∉ after →
  extractVariables (before ++ content ++ after) = extractVariables content.
Proof.
  intros Hbefore Hafter.
  by rewrite !extractVariables_dedup, placeholder_names_around.
Qed.

Lemma no_lbrace_in_hello : lbrace ∉ lit "Hello ".
Proof.
  intros H. vm_compute in H.
  repeat (apply elem_of_cons in H as [H|H]; [discriminate H|]).
  by apply elem_of_nil in H.
Qed.

Lemma no_rbrace_in_bye : rbrace ∉ lit ", bye {{".
Proof.
  intros H. vm_compute in H.
  repeat (apply elem_of_cons in H as [H|H]; [discriminate H|]).
  by apply elem_of_nil in H.
Qed.

Lemma extractVariables_ignores_surroundings_witness :
  extractVariables (lit "Hello " ++ lit "{{name}} and {{ order_id }}" ++ lit ", bye {{")
  = extractVariables (lit "{{name}} and {{ order_id }}").
Proof.
  apply (extractVariables_ignores_surroundings (lit "Hello ")
           (lit "{{name}} and {{ order_id }}") (lit ", bye {{")).
  - exact no_lbrace_in_hello.
  - exact no_rbrace_in_bye.
Defined.

(** X3.  [processTemplate] copies such surrounding text as it is and
    substitutes in the middle as it would alone. *)
Theorem processTemplate_copies_surroundings (template : Template)
    (variables : list Variable_) (before content after : jsstring) :
  lbrace ∉ before → rbrace ∉ after →
  processTemplate (with_content template (before ++ content ++ after)) variables
  = before ++ processTemplate (with_content template content) variables ++ after.
Proof.
  intros Hb Ha. unfold processTemplate. cbn [tpl_content with_content].
  rewrite String_replace_prefix, String_replace_suffix; try done;
    intros p m; apply replacer_shift.
Qed.

Lemma processTemplate_copies_surroundings_witness :
  processTemplate
    (with_content greeting
       (lit "Hello " ++ lit "{{name}} and {{ order_id }}" ++ lit ", bye {{")) mockVariables
  = lit "Hello "
    ++ processTemplate (with_content greeting (lit "{{name}} and {{ order_id }}"))
         mockVariables
    ++ lit ", bye {{".
Proof.
  apply (processTemplate_copies_surroundings greeting mockVariables (lit "Hello ")
           (lit "{{name}} and {{ order_id }}") (lit ", bye {{")).
  - exact no_lbrace_in_hello.
  - exact no_rbrace_in_bye.
Defined.

(** ** Variables and their map *)

Lemma filter_none {A} (P : A → Prop) `{!∀ x, Decision (P x)} (l : list A) :
  (∀ x, x ∈ l → ¬ P x) → filter P l = [].
Proof.
  induction l as [|a l IH]; intros Hall; [done|].
  rewrite filter_cons_False by (apply Hall; left).
  apply IH. intros x Hx. apply Hall. by right.
Qed.

Lemma variableMap_is_Some variables name :
  is_Some (variableMap variables !! name) ↔ name ∈ map var_name variables.
Proof.
  induction variables as [|v variables IH] using rev_ind.
  - split; [by intros [? ?]|]. intros H. by apply elem_of_nil in H.
  - rewrite variableMap_snoc, map_app, elem_of_app. cbn [map].
    rewrite list_elem_of_singleton.
    destruct (decide (var_name v = name)) as [<-|Hne].
    + rewrite lookup_insert_eq. split; [by right|by eexists].
    + rewrite lookup_insert_ne by done. rewrite IH. naive_solver.
Qed.

(** X4.  When several variables have the same name, the value that
    [processTemplate] looks up is that of the last one in the list; a name
    that no variable has is not in the map. *)
Theorem variableMap_last_wins (variables : list Variable_) (name : jsstring) :
  variableMap variables !! name
  = var_value <$> last (filter (λ v, var_name v = name) variables).
Proof.
  induction variables as [|v variables IH] using rev_ind; [done|].
  rewrite variableMap_snoc, filter_app, filter_cons, filter_nil.
  destruct (decide (var_name v = name)) as [<-|Hne].
  - by rewrite lookup_insert_eq, last_snoc.
  - by rewrite lookup_insert_ne, app_nil_r.
Qed.

(** X5.  [validateTemplate] returns no error exactly when every placeholder
    of the content whose name is not empty is a key of the map that
    [processTemplate] builds from the same variables. *)
Theorem validateTemplate_passes_iff_resolved (template : Template)
    (variables : list Variable_) :
  validateTemplate template variables = []
  ↔ Forall (λ name, name = [] ∨ is_Some (variableMap variables !! name))
           (placeholder_names (tpl_content template)).
Proof.
  unfold validateTemplate. rewrite fold_push_error. cbn [app].
  rewrite extractVariables_dedup. split.
  - intros H. apply fmap_nil_inv in H. apply Forall_forall. intros name Hname.
    destruct (decide (name = [])) as [?|Hne]; [by left|right].
    apply variableMap_is_Some.
    destruct (decide (name ∈ map var_name variables)) as [?|Hnot]; [done|].
    exfalso. eapply (filter_nil_not_elem_of _ _ name H Hnot).
    apply elem_of_dedup_first, list_elem_of_filter. done.
  - intros H. rewrite Forall_forall in H.
    rewrite filter_none; [done|].
    intros name Hname Hnot. apply elem_of_dedup_first, list_elem_of_filter in Hname
      as [Hne Hname].
    destruct (H name Hname) as [?|Hsome]; [done|].
    by apply Hnot, variableMap_is_Some.
Qed.

Lemma replacer_unresolved variableMap m :
  variableMap !! trim (group1 m) = None ∨ variableMap !! trim (group1 m) = Some [] →
  replacer variableMap m = matched m.
Proof. unfold replacer. by intros [-> | ->]. Qed.

Lemma String_replace_unresolved content variableMap :
  Forall (λ name, variableMap !! name = None ∨ variableMap !! name = Some [])
         (placeholder_names content) →
  String_replace content (replacer variableMap) = content.
Proof.
  induction content as [s Hn|pre inner rest Hm Hlt IH] using scan_ind; intros Hall.
  - by apply String_replace_none.
  - rewrite placeholder_names_leftmost in Hall by done.
    apply Forall_cons in Hall as [Hinner Hrest].
    rewrite String_replace_leftmost; [|done|done|intros; apply replacer_shift].
    rewrite replacer_unresolved by done. cbn [matched]. by rewrite IH.
Qed.

(** X6.  When no placeholder of the content has a name with a non-empty
    value among the variables, [processTemplate] returns the content as it
    is: nothing is removed, not even a placeholder that nothing resolves. *)
Theorem processTemplate_keeps_unresolved (template : Template) (variables : list Variable_) :
  Forall (λ name, variableMap variables !! name = None
                  ∨ variableMap variables !! name = Some [])
         (placeholder_names (tpl_content template)) →
  processTemplate template variables = tpl_content template.
Proof. intros H. unfold processTemplate. by apply String_replace_unresolved. Qed.

Lemma processTemplate_keeps_unresolved_witness :
  processTemplate (mockTemplate "Dear {{customer}}, {{ }} and {{name}}")
    [mkVariable (lit "1") (lit "name") [] None (Some 0%Z) (Some 0%Z)]
  = lit "Dear {{customer}}, {{ }} and {{name}}".
Proof.
  apply (processTemplate_keeps_unresolved
           (mockTemplate "Dear {{customer}}, {{ }} and {{name}}")
           [mkVariable (lit "1") (lit "name") [] None (Some 0%Z) (Some 0%Z)]).
  replace (placeholder_names _) with [lit "customer"; []; lit "name"]
    by (vm_compute; reflexivity).
  repeat (apply Forall_cons; split;
          [first [left; vm_compute; reflexivity | right; vm_compute; reflexivity]|]).
  constructor.
Defined.

(** ** Records and their properties *)

Lemma lookup_set_property_eq properties k v :
  lookup_property k (set_property properties k v) = Some v.
Proof.
  induction properties as [|[k' v'] properties IH]; cbn.
  - by rewrite bool_decide_true.
  - case_bool_decide as Hk; cbn; [by rewrite bool_decide_true|].
    by rewrite bool_decide_false.
Qed.

Lemma lookup_set_property_ne properties k k' v :
  k ≠ k' → lookup_property k' (set_property properties k v) = lookup_property k' properties.
Proof.
  intros Hne. induction properties as [|[k0 v0] properties IH]; cbn.
  - by rewrite bool_decide_false.
  - case_bool_decide as Hk; cbn.
    + subst k0. by rewrite !bool_decide_false.
    + case_bool_decide; [done|apply IH].
Qed.

Lemma set_property_same properties k v :
  lookup_property k properties = Some v → set_property properties k v = properties.
Proof.
  induction properties as [|[k0 v0] properties IH]; cbn; [done|].
  case_bool_decide as Hk.
  - by intros [= ->]; subst.
  - intros H. by rewrite IH.
Qed.

Section Records.
Context {platform : Platform}.

Lemma rehydrate_Ok record o :
  rehydrate record = Ok o →
  ∃ created updated createdAt updatedAt,
    Get record (lit "createdAt") = Ok created
    ∧ Date_new created = Ok createdAt
    ∧ Get record (lit "updatedAt") = Ok updated
    ∧ Date_new updated = Ok updatedAt
    ∧ o = VObject (set_property
                     (set_property (own_properties record) (lit "createdAt")
                        (VDate createdAt))
                     (lit "updatedAt") (VDate updatedAt)).
Proof.
  unfold rehydrate, mbind, result_bind.
  destruct (Get record (lit "createdAt")) as [created|] eqn:E1; [|done].
  destruct (Date_new created) as [createdAt|] eqn:E2; [|done].
  destruct (Get record (lit "updatedAt")) as [updated|] eqn:E3; [|done].
  destruct (Date_new updated) as [updatedAt|] eqn:E4; [|done].
  intros [= <-]. by exists created, updated, createdAt, updatedAt.
Qed.

Lemma Date_new_VDate t : Date_new (VDate t) = Ok t.
Proof. done. Qed.

Lemma rehydrate_fixed record o : rehydrate record = Ok o → rehydrate o = Ok o.
Proof.
  intros H. apply rehydrate_Ok in H
    as (created & updated & createdAt & updatedAt & _ & _ & _ & _ & ->).
  set (props := set_property _ _ (VDate updatedAt)).
  assert (lookup_property (lit "createdAt") props = Some (VDate createdAt)) as Hc.
  { unfold props. rewrite lookup_set_property_ne by discriminate.
    apply lookup_set_property_eq. }
  assert (lookup_property (lit "updatedAt") props = Some (VDate updatedAt)) as Hu
    by apply lookup_set_property_eq.
  unfold rehydrate. cbn [Get own_properties]. rewrite Hc, Hu.
  cbn [default id mbind result_bind]. rewrite Date_new_VDate.
  cbn [mbind result_bind]. rewrite Date_new_VDate. cbn [mbind result_bind].
  rewrite (set_property_same props (lit "createdAt")) by done.
  by rewrite set_property_same.
Qed.

Lemma mapM_rehydrate_fixed records loaded :
  mapM rehydrate records = Ok loaded → mapM rehydrate loaded = Ok loaded.
Proof.
  revert loaded. induction records as [|r records IH]; intros loaded.
  - by intros [= <-].
  - cbn [mapM]. unfold mbind at 1, result_bind at 1.
    destruct (rehydrate r) as [o|] eqn:Er; [|done].
    unfold mbind at 1, result_bind at 1.
    destruct (mapM rehydrate records) as [os|] eqn:Ers; [|done].
    intros [= <-]. cbn [mapM]. rewrite (rehydrate_fixed _ _ Er).
    cbn [mbind result_bind]. by rewrite (IH os).
Qed.

(** X7.  The conversion that [load] and [importData] apply to the records
    is idempotent: a collection that came out of it goes through it again
    without change, record by record. *)
Theorem rehydrate_idempotent (records loaded : list value) :
  mapM rehydrate records = Ok loaded →
  mapM rehydrate loaded = Ok loaded ∧ length loaded = length records.
Proof.
  intros H. split; [by apply mapM_rehydrate_fixed in H|].
  revert loaded H. induction records as [|r records IH]; intros loaded.
  - by intros [= <-].
  - cbn [mapM]. unfold mbind at 1, result_bind at 1.
    destruct (rehydrate r) as [o|]; [|done].
    unfold mbind at 1, result_bind at 1.
    destruct (mapM rehydrate records) as [os|]; [|done].
    intros [= <-]. cbn [length]. f_equal. by apply IH.
Qed.

(** X8.  The conversion of a stored object keeps every property of the
    object but [createdAt] and [updatedAt], and makes these two [Date]s:
    the dates that [new Date] makes of what was stored under them. *)
Theorem rehydrate_keeps_fields (properties : list (jsstring * value)) (o : value) :
  rehydrate (VObject properties) = Ok o →
  (∀ k, k ≠ lit "createdAt" → k ≠ lit "updatedAt" →
        Get o k = Get (VObject properties) k)
  ∧ ∃ createdAt updatedAt,
      Get o (lit "createdAt") = Ok (VDate createdAt)
      ∧ Get o (lit "updatedAt") = Ok (VDate updatedAt)
      ∧ Date_new (default VUndefined (lookup_property (lit "createdAt") properties))
        = Ok createdAt
      ∧ Date_new (default VUndefined (lookup_property (lit "updatedAt") properties))
        = Ok updatedAt.
Proof.
  intros H. apply rehydrate_Ok in H
    as (created & updated & createdAt & updatedAt & Hc & Hdc & Hu & Hdu & ->).
  cbn [Get] in Hc, Hu. injection Hc as <-. injection Hu as <-.
  cbn [own_properties Get]. split.
  - intros k Hkc Hku. by rewrite !lookup_set_property_ne.
  - exists createdAt, updatedAt. split_and!; [|by rewrite lookup_set_property_eq|done..].
    rewrite lookup_set_property_ne by discriminate.
    by rewrite lookup_set_property_eq.
Qed.

End Records.

(** ** What the adapter does to the storage area *)

Section AdapterEffects.
Context {S : Type} {storage : StorageArea S} {platform : Platform}.
Implicit Types (w : World S) (key jsonData : jsstring).

Lemma load_depends_on_get key w1 w2 :
  (storage_get key (area w1)).1 = (storage_get key (area w2)).1 →
  (load key w1).1 = (load key w2).1.
Proof.
  unfold load, try_catch, mbind, Async_bind, chrome_storage_local_get, sync, mret, Async_ret.
  destruct (storage_get key (area w1)) as [r1 s1], (storage_get key (area w2)) as [r2 s2].
  cbn [fst]. intros ->. destruct r2 as [items|e]; [|done]. cbn match.
  destruct (Get items key) as [stored|e]; [|done]. cbn match.
  by destruct (Array_map _ rehydrate).
Qed.

Lemma save_result key records w :
  save key records w
  = ((storage_set [(key, VArray records)] (area w)).1,
     mkWorld (storage_set [(key, VArray records)] (area w)).2
       (writes w ++ [[(key, VArray records)]])).
Proof.
  unfold save, try_catch, chrome_storage_local_set, throw.
  by destruct (storage_set [(key, VArray records)] (area w)) as [[[]|e] s'].
Qed.

Lemma rehydrate_Variable_value (v : Variable_) :
  rehydrate (Variable_value v) = Ok (Variable_value v).
Proof. by destruct v as [? ? ? [d|] ? ?]. Qed.

Lemma mapM_Throw_Exists {A B} (f : A → result B) (l : list A) :
  Exists (λ x, ∃ e, f x = Throw e) l → ∃ e, mapM f l = Throw e.
Proof.
  induction 1 as [x l [e He]|x l _ [e IH]]; cbn [mapM].
  - rewrite He. by exists e.
  - destruct (f x) as [y|e']; [|by exists e'].
    cbn [mbind result_bind]. rewrite IH. by exists e.
Qed.

Lemma result_mapM_length {A B} (f : A → result B) (l : list A) (k : list B) :
  mapM f l = Ok k → length k = length l.
Proof.
  revert k. induction l as [|x l IH]; intros k.
  - by intros [= <-].
  - cbn [mapM]. unfold mbind at 1, result_bind at 1.
    destruct (f x) as [y|]; [|done].
    unfold mbind at 1, result_bind at 1.
    destruct (mapM f l) as [ys|]; [|done].
    intros [= <-]. cbn [length]. by rewrite (IH ys).
Qed.

(** X9.  Whatever a read gives, [load] degrades to the empty sequence
    rather than to a part of the collection: when the value stored under
    the key is not an array, and when it is an array of which one record
    cannot be converted, as [null] and [undefined] cannot, the whole
    collection loads as empty. *)
Theorem load_is_all_or_nothing key w (items stored : value) (s' : S) :
  storage_get key (area w) = (Ok items, s') →
  Get items key = Ok stored →
  (is_array stored = false → (load key w).1 = Ok [])
  ∧ (∀ records,
       stored = VArray records →
       Exists (λ r, ∃ e, rehydrate r = Throw e) records →
       (load key w).1 = Ok [])
  ∧ (∀ records loaded,
       stored = VArray records →
       mapM rehydrate records = Ok loaded →
       (load key w).1 = Ok loaded ∧ length loaded = length records)
  ∧ rehydrate VNull = Throw TypeError
  ∧ rehydrate VUndefined = Throw TypeError.
Proof.
  intros Hget Hstored.
  assert ((storage_get key (area w)).1 = Ok items) as Hget' by (by rewrite Hget).
  split_and!; [| | |done|done].
  - intros Hna.
    unfold load, try_catch, mbind, Async_bind, chrome_storage_local_get, sync, mret, Async_ret.
    rewrite Hget. cbn match. rewrite Hstored. cbn match.
    destruct (truthy stored); [|done]. by destruct stored.
  - intros records -> Hex. rewrite (load_stored _ _ _ _ Hget' Hstored).
    apply mapM_Throw_Exists in Hex as [e ->]. done.
  - intros records loaded -> Hmap. rewrite (load_stored _ _ _ _ Hget' Hstored), Hmap.
    split; [done|]. by eapply result_mapM_length.
Qed.

(** X10.  [saveAllData] attempts both writes, the templates first, also
    when the first one is rejected; it succeeds exactly when both do. *)
Theorem saveAllData_attempts_both_writes (data : list value * list value) w :
  let first := storage_set [(STORAGE_KEYS_TEMPLATES, VArray data.1)] (area w) in
  let second := storage_set [(STORAGE_KEYS_VARIABLES, VArray data.2)] first.2 in
  writes (saveAllData data w).2
  = writes w ++ [ [(STORAGE_KEYS_TEMPLATES, VArray data.1)];
                  [(STORAGE_KEYS_VARIABLES, VArray data.2)] ]
  ∧ area (saveAllData data w).2 = second.2
  ∧ ((saveAllData data w).1 = Ok () ↔ first.1 = Ok () ∧ second.1 = Ok ()).
Proof.
  cbv zeta. unfold saveAllData, Promise_all, saveTemplates, saveVariables.
  unfold mbind, Async_bind, mret, Async_ret. rewrite !save_result. cbn [fst snd area writes].
  destruct (storage_set [(STORAGE_KEYS_TEMPLATES, VArray data.1)] (area w))
    as [[[]|e1] s1]; cbn [fst snd];
    destruct (storage_set [(STORAGE_KEYS_VARIABLES, VArray data.2)] s1)
      as [[[]|e2] s2]; cbn [fst snd area writes];
    rewrite <- app_assoc; (split_and!; [done|done|]); split; try done;
    intros [? ?]; done.
Qed.

Lemma importData_cases jsonData w :
  importData jsonData w = (Throw import_failure, w)
  ∨ ∃ v templates variables ts vs,
      JSON_parse jsonData = Ok v
      ∧ Get v (lit "templates") = Ok templates
      ∧ Get v (lit "variables") = Ok variables
      ∧ Array_map templates rehydrate = Ok ts
      ∧ Array_map variables rehydrate = Ok vs
      ∧ importData jsonData w
        = match saveAllData (ts, vs) w with
          | (Ok x, w') => (Ok x, w')
          | (Throw _, w') => (Throw import_failure, w')
          end.
Proof.
  unfold importData, try_catch, mbind at 1 2 3 4 5 6 7 8, Async_bind at 1 2 3 4 5 6 7 8.
  unfold sync, throw, mret, Async_ret, mbind, Async_bind.
  destruct (JSON_parse jsonData) as [v|e] eqn:E; [|by left]. cbn match.
  destruct (Get v (lit "templates")) as [t|e] eqn:Et; [|by left]. cbn match.
  destruct (truthy t); cbn [negb]; [|by left].
  destruct (Get v (lit "variables")) as [vv|e] eqn:Ev; [|by left]. cbn match.
  destruct (truthy vv); cbn [negb]; [|by left].
  destruct (Array_map t rehydrate) as [ts|e] eqn:Ets; [|by left].
  destruct (Array_map vv rehydrate) as [vs|e] eqn:Evs; [|by left].
  right. exists v, t, vv, ts, vs. by split_and!.
Qed.

(** X11.  [importData] ends in one of two ways only: fulfilled, or rejected
    with the import failure, whatever went wrong, a rejected write too.  It
    makes no [set] call, and then leaves the world as it was and is
    rejected, or it makes the two calls of [saveAllData]. *)
Theorem importData_outcomes jsonData w :
  ((importData jsonData w).1 = Ok () ∨ (importData jsonData w).1 = Throw import_failure)
  ∧ (((importData jsonData w).2 = w ∧ (importData jsonData w).1 = Throw import_failure)
     ∨ ∃ ts vs,
         writes (importData jsonData w).2
         = writes w ++ [ [(STORAGE_KEYS_TEMPLATES, VArray ts)];
                         [(STORAGE_KEYS_VARIABLES, VArray vs)] ]).
Proof.
  destruct (importData_cases jsonData w)
    as [->|(v & t & vv & ts & vs & _ & _ & _ & _ & _ & ->)].
  - split; [by right|by left].
  - pose proof (saveAllData_attempts_both_writes (ts, vs) w) as Hw.
    cbv zeta in Hw. destruct Hw as (Hw & _ & _).
    destruct (saveAllData (ts, vs) w) as [[[]|e] w1]; cbn [fst snd] in *.
    + split; [by left|]. right. by exists ts, vs.
    + split; [by right|]. right. by exists ts, vs.
Qed.
End AdapterEffects.

(** ** The adapter on a lawful storage area *)

Section LawfulAdapter.
Context {S : Type} {storage : StorageArea S} {platform : Platform}.
Context {lawful : LawfulStorage S}.
Implicit Types (w : World S) (key jsonData : jsstring).

Lemma keys_differ' : STORAGE_KEYS_TEMPLATES ≠ STORAGE_KEYS_VARIABLES.
Proof. discriminate. Qed.

Lemma save_area key records w w' :
  save key records w = (Ok (), w') →
  storage_set [(key, VArray records)] (area w) = (Ok (), area w').
Proof.
  rewrite save_result.
  destruct (storage_set [(key, VArray records)] (area w)) as [r s1].
  by intros [= -> <-].
Qed.

Lemma load_after_save key records loaded w w' :
  save key records w = (Ok (), w') →
  mapM rehydrate records = Ok loaded →
  (load key w').1 = Ok loaded.
Proof.
  intros Hsave%save_area Hmap.
  destruct (get_after_set _ _ _ _ Hsave) as (items & Hget & Hitems).
  by rewrite (load_stored _ _ _ _ Hget Hitems), Hmap.
Qed.

Lemma load_after_save_other key key' records w w' :
  key ≠ key' →
  save key records w = (Ok (), w') →
  (load key' w').1 = (load key' w).1.
Proof.
  intros Hne Hsave%save_area. apply load_depends_on_get.
  by eapply get_after_set_other.
Qed.

Lemma getAllData_after_saveAllData ts vs ts' vs' w w' :
  saveAllData (ts, vs) w = (Ok (), w') →
  mapM rehydrate ts = Ok ts' →
  mapM rehydrate vs = Ok vs' →
  getAllData w' = (Ok (ts', vs'), w').
Proof.
  intros (s1 & Hset1 & Hset2)%saveAllData_succeeded Hts Hvs.
  destruct (get_after_set _ _ _ _ Hset1) as (items1 & Hget1 & Hitems1).
  destruct (get_after_set _ _ _ _ Hset2) as (items2 & Hget2 & Hitems2).
  assert ((storage_get STORAGE_KEYS_TEMPLATES (area w')).1 = Ok items1) as Hget1'.
  { rewrite <- Hget1. eapply get_after_set_other; [exact keys_differ | exact Hset2]. }
  rewrite getAllData_lawful. unfold getTemplates, getVariables.
  rewrite (load_stored _ _ _ _ Hget1' Hitems1), Hts.
  by rewrite (load_stored _ _ _ _ Hget2 Hitems2), Hvs.
Qed.

(** X12.  What [saveAllData] has stored, [getAllData] loads back as it was:
    the typed templates and variables, those whose dates are invalid
    included, come back unchanged, and the load leaves the world as it is. *)
Theorem saved_collections_load_back
    (templates : list Template) (variables : list Variable_) w w' :
  saveAllData (map Template_value templates, map Variable_value variables) w = (Ok (), w') →
  getAllData w' = (Ok (map Template_value templates, map Variable_value variables), w').
Proof.
  intros Hsave. eapply getAllData_after_saveAllData; [exact Hsave| |].
  - apply result_mapM_map, Forall_forall. intros t _. apply rehydrate_Template_value.
  - apply result_mapM_map, Forall_forall. intros v _. apply rehydrate_Variable_value.
Qed.

(** X13.  Saving one collection leaves the other as it loads: after a
    successful [saveTemplates] the variables load as before, and after a
    successful [saveVariables] the templates do. *)
Theorem saving_one_collection_keeps_the_other (records : list value) w w' :
  (saveTemplates records w = (Ok (), w') → (getVariables w').1 = (getVariables w).1)
  ∧ (saveVariables records w = (Ok (), w') → (getTemplates w').1 = (getTemplates w).1).
Proof.
  split; intros Hsave.
  - exact (load_after_save_other _ _ _ _ _ keys_differ' Hsave).
  - exact (load_after_save_other _ _ _ _ _ keys_differ Hsave).
Qed.

(** X14.  A successful import replaces both collections: what loads
    afterwards is the bundle's records, each converted once by the import,
    and nothing of what was stored before. *)
Theorem import_replaces_store jsonData w w' :
  importData jsonData w = (Ok (), w') →
  ∃ bundle templates variables,
    JSON_parse jsonData = Ok bundle
    ∧ Get bundle (lit "templates") = Ok (VArray templates)
    ∧ Get bundle (lit "variables") = Ok (VArray variables)
    ∧ ∃ templates' variables',
        mapM rehydrate templates = Ok templates'
        ∧ mapM rehydrate variables = Ok variables'
        ∧ getAllData w' = (Ok (templates', variables'), w').
Proof.
  intros Himport.
  destruct (importData_cases jsonData w)
    as [E|(v & t & vv & ts & vs & Hparse & Ht & Hv & Hts & Hvs & E)];
    rewrite E in Himport; [done|].
  destruct t as [| | | | | |templates|]; try done.
  destruct vv as [| | | | | |variables|]; try done.
  cbn [Array_map] in Hts, Hvs.
  exists v, templates, variables. split_and!; [done..|].
  exists ts, vs. split_and!; [done..|].
  destruct (saveAllData (ts, vs) w) as [[[]|e] w1] eqn:Hsave; [|done].
  injection Himport as ->.
  eapply getAllData_after_saveAllData; [exact Hsave| |].
  - by eapply mapM_rehydrate_fixed.
  - by eapply mapM_rehydrate_fixed.
Qed.

(** X15.  An import is not all or nothing.  When the area takes the write of
    the templates and rejects that of the variables, leaving itself as it
    was, the import is rejected with the import failure, and yet the
    templates that load afterwards are the imported ones, beside the
    variables of before. *)
Theorem importData_partial_commit jsonData w bundle templates variables
    templates' variables' (s1 : S) (e : exception) :
  JSON_parse jsonData = Ok bundle →
  Get bundle (lit "templates") = Ok (VArray templates) →
  Get bundle (lit "variables") = Ok (VArray variables) →
  mapM rehydrate templates = Ok templates' →
  mapM rehydrate variables = Ok variables' →
  storage_set [(STORAGE_KEYS_TEMPLATES, VArray templates')] (area w) = (Ok (), s1) →
  storage_set [(STORAGE_KEYS_VARIABLES, VArray variables')] s1 = (Throw e, s1) →
  (importData jsonData w).1 = Throw import_failure
  ∧ (getTemplates (importData jsonData w).2).1 = Ok templates'
  ∧ (getVariables (importData jsonData w).2).1 = (getVariables w).1.
Proof.
  intros Hparse Ht Hv Hts Hvs Hset1 Hset2.
  destruct (importData_cases jsonData w)
    as [E|(v & t & vv & ts & vs & Hparse' & Ht' & Hv' & Hts' & Hvs' & E)].
  - (* the import was not rejected before the writes *)
    exfalso. revert E.
    unfold importData, try_catch, mbind at 1 2 3 4 5 6 7 8, Async_bind at 1 2 3 4 5 6 7 8.
    unfold sync, throw, mret, Async_ret, mbind, Async_bind.
    rewrite Hparse. cbn match. rewrite Ht, Hv. cbn [truthy negb]. cbn match.
    cbn [Array_map]. rewrite Hts, Hvs.
    unfold saveAllData, Promise_all, saveTemplates, saveVariables.
    unfold mbind, Async_bind, mret, Async_ret. rewrite !save_result.
    cbn [fst snd area writes]. rewrite Hset1. cbn [fst snd]. rewrite Hset2. cbn [fst snd].
    intros [= Hw]. destruct w as [s l]. cbn [writes] in Hw. injection Hw as _ Hl.
    apply (f_equal length) in Hl. rewrite !length_app in Hl. cbn [length] in Hl. lia.
  - rewrite Hparse in Hparse'. injection Hparse' as <-.
    rewrite Ht in Ht'. injection Ht' as <-. rewrite Hv in Hv'. injection Hv' as <-.
    cbn [Array_map] in Hts', Hvs'. rewrite Hts in Hts'. injection Hts' as <-.
    rewrite Hvs in Hvs'. injection Hvs' as <-.
    rewrite E. unfold saveAllData, Promise_all, saveTemplates, saveVariables.
    unfold mbind, Async_bind, mret, Async_ret. rewrite !save_result.
    cbn [fst snd area writes]. rewrite Hset1. cbn [fst snd]. rewrite Hset2. cbn [fst snd].
    split_and!; [done| |].
    + destruct (get_after_set _ _ _ _ Hset1) as (items & Hget & Hitems).
      unfold getTemplates.
      rewrite (load_stored STORAGE_KEYS_TEMPLATES (mkWorld s1 _) items templates' Hget Hitems).
      by rewrite (mapM_rehydrate_fixed _ _ Hts).
    + unfold getVariables. apply load_depends_on_get. cbn [area].
      eapply get_after_set_other; [exact keys_differ' | exact Hset1].
Qed.
End LawfulAdapter.

Section ExportAndClear.
Context {S : Type} {storage : StorageArea S} {platform : Platform}.
Implicit Types (w : World S).

(** X16.  [exportData] is never rejected and never writes: it serializes the
    two collections as they load, so that a store whose reads are rejected
    is exported as a bundle of two empty collections. *)
Theorem exportData_never_fails (now : Z) w :
  ∃ templates variables,
    (exportData now w).1 = Ok (JSON_stringify (export_object (templates, variables) now))
    ∧ (getTemplates w).1 = Ok templates
    ∧ (getVariables (getTemplates w).2).1 = Ok variables
    ∧ writes (exportData now w).2 = writes w
    ∧ ((∃ e, (storage_get STORAGE_KEYS_TEMPLATES (area w)).1 = Throw e) → templates = [])
    ∧ ((∃ e, (storage_get STORAGE_KEYS_VARIABLES (area (getTemplates w).2)).1 = Throw e) →
       variables = []).
Proof.
  unfold exportData, getAllData, Promise_all, mbind, Async_bind, mret, Async_ret.
  unfold getTemplates, getVariables.
  destruct (load_settles STORAGE_KEYS_TEMPLATES w) as [ts Hts].
  pose proof (load_rejected STORAGE_KEYS_TEMPLATES w) as Hrt. rewrite Hts in *.
  cbn [fst snd]. set (w1 := mkWorld _ _) in *.
  destruct (load_settles STORAGE_KEYS_VARIABLES w1) as [vs Hvs].
  pose proof (load_rejected STORAGE_KEYS_VARIABLES w1) as Hrv. rewrite Hvs in *.
  cbn [fst snd writes] in *.
  exists ts, vs. split_and!; [done..| |].
  - intros [e He]. destruct (storage_get STORAGE_KEYS_TEMPLATES (area w)) as [r s'] eqn:E.
    cbn [fst] in He. subst r. specialize (Hrt e s' eq_refl). by injection Hrt.
  - intros [e He]. destruct (storage_get STORAGE_KEYS_VARIABLES (area w1)) as [r s'] eqn:E.
    cbn [fst] in He. subst r. specialize (Hrv e s' eq_refl). by injection Hrv.
Qed.

(** X17.  After a successful [clearAllData] on an area that removes what it
    is asked to, both collections load as empty; no [set] call is made.  A
    rejected removal is thrown again as it is. *)
Theorem clearAllData_empties_both {removes : RemovesKeys S} w w' :
  clearAllData w = (Ok (), w') →
  (getTemplates w').1 = Ok []
  ∧ (getVariables w').1 = Ok []
  ∧ writes w' = writes w.
Proof.
  unfold clearAllData, try_catch, chrome_storage_local_remove, throw.
  destruct (storage_remove _ (area w)) as [[[]|e] s'] eqn:E; [|done].
  intros [= <-]. cbn [writes]. split_and!; [| |done].
  - destruct (get_after_remove _ STORAGE_KEYS_TEMPLATES _ _ E) as (items & Hget & Habs);
      [set_solver|].
    destruct (storage_get STORAGE_KEYS_TEMPLATES s') as [r s2] eqn:E2.
    cbn [fst] in Hget. subst r. by eapply load_absent.
  - destruct (get_after_remove _ STORAGE_KEYS_VARIABLES _ _ E) as (items & Hget & Habs);
      [set_solver|].
    destruct (storage_get STORAGE_KEYS_VARIABLES s') as [r s2] eqn:E2.
    cbn [fst] in Hget. subst r. by eapply load_absent.
Qed.
End ExportAndClear.

Lemma lookup_foldl_delete (keys : list jsstring) (key : jsstring) (s : gmap jsstring value) :
  key ∈ keys → foldl (λ s key, delete key s) s keys !! key = None.
Proof.
  revert s. induction keys as [|k keys IH]; intros s; [by intros ?%elem_of_nil|].
  cbn [foldl]. destruct (decide (key ∈ keys)) as [Hin|Hout]; [intros _; by apply IH|].
  intros [->|?]%elem_of_cons; [|done].
  clear IH. revert s. induction keys as [|k' keys IH]; intros s; cbn [foldl].
  - apply lookup_delete_eq.
  - apply not_elem_of_cons in Hout as [Hne Hout].
    rewrite delete_delete. by apply IH.
Qed.

Lemma map_area_removes : RemovesKeys (gmap jsstring value).
Proof.
  intros keys key s s' [= <-] Hin.
  cbn [storage_get Reference.map_area fst]. rewrite (lookup_foldl_delete _ _ _ Hin).
  eexists. split; [done|]. done.
Qed.

Lemma blocking_area_lawful (blocked : jsstring) :
  @LawfulStorage (gmap jsstring value) (blocking_area blocked).
Proof.
  split.
  - done.
  - intros key v s s'. cbn [storage_set blocking_area]. case_bool_decide; [done|].
    apply (@get_after_set _ Reference.map_area map_area_lawful).
  - intros key key' v s s' Hne. cbn [storage_set blocking_area]. case_bool_decide; [done|].
    by apply (@get_after_set_other _ Reference.map_area map_area_lawful).
Qed.

(** ** The properties of the adapter on the reference platform *)

Lemma rehydrate_idempotent_witness :
  ∃ loaded,
    mapM rehydrate (map json_image (map Template_value stored_templates)) = Ok loaded
    ∧ mapM rehydrate loaded = Ok loaded
    ∧ length loaded = length (map json_image (map Template_value stored_templates)).
Proof.
  eexists. split; [vm_compute; reflexivity|].
  apply (@rehydrate_idempotent Reference.platform). vm_compute. reflexivity.
Defined.

Lemma rehydrate_keeps_fields_witness :
  let stored :=
    [ (lit "id", VString (lit "1"));
      (lit "title", VString (lit "Test Template"));
      (lit "content", VString (lit "Hello {{name}}"));
      (lit "createdAt", VString (lit "2023-01-01T00:00:00.000Z")) ] in
  let loaded := Template_value (mkTemplate (lit "1") (lit "Test Template")
                                  (lit "Hello {{name}}") (Some new_year) None) in
  rehydrate (VObject stored) = Ok loaded
  ∧ (∀ k, k ≠ lit "createdAt" → k ≠ lit "updatedAt" →
          Get loaded k = Get (VObject stored) k)
  ∧ ∃ createdAt updatedAt,
      Get loaded (lit "createdAt") = Ok (VDate createdAt)
      ∧ Get loaded (lit "updatedAt") = Ok (VDate updatedAt)
      ∧ Date_new (default VUndefined (lookup_property (lit "createdAt") stored))
        = Ok createdAt
      ∧ Date_new (default VUndefined (lookup_property (lit "updatedAt") stored))
        = Ok updatedAt.
Proof.
  intros stored loaded.
  assert (rehydrate (VObject stored) = Ok loaded) as H by (vm_compute; reflexivity).
  split; [exact H|].
  exact (@rehydrate_keeps_fields Reference.platform stored loaded H).
Defined.

Lemma load_is_all_or_nothing_witness :
  let stored := VArray [Template_value undated; VNull] in
  let w := mkWorld (<[STORAGE_KEYS_TEMPLATES := stored]> ∅) [] in
  (getTemplates w).1 = Ok [].
Proof.
  intros stored w.
  destruct (@load_is_all_or_nothing _ Reference.map_area Reference.platform
              STORAGE_KEYS_TEMPLATES w (VObject [(STORAGE_KEYS_TEMPLATES, stored)])
              stored (area w)) as (_ & H & _); [reflexivity..|].
  apply (H [Template_value undated; VNull]); [reflexivity|].
  apply Exists_cons_tl, Exists_cons_hd. by exists TypeError.
Defined.

Lemma saved_collections_load_back_witness :
  let saved := (map Template_value [undated], map Variable_value stored_variables) in
  let w' := (saveAllData saved empty_world).2 in
  getAllData w' = (Ok saved, w').
Proof.
  intros saved w'.
  apply (@saved_collections_load_back _ Reference.map_area Reference.platform
           map_area_lawful [undated] stored_variables empty_world w').
  vm_compute. reflexivity.
Defined.

Lemma saving_one_collection_keeps_the_other_witness :
  let w' := (saveTemplates [Template_value undated] stored_world).2 in
  (getVariables w').1 = (getVariables stored_world).1.
Proof.
  intros w'.
  apply (proj1 (@saving_one_collection_keeps_the_other _ Reference.map_area
                  Reference.platform map_area_lawful
                  [Template_value undated] stored_world w')).
  vm_compute. reflexivity.
Defined.

Lemma import_replaces_store_witness :
  let w' := (importData (JSON_stringify mock_import) undated_world).2 in
  getAllData w'
  = (Ok (map Template_value stored_templates,
         [Variable_imported (mkVariable (lit "1") (lit "name") (lit "John Doe") None
                               (Some new_year) (Some new_year))]), w').
Proof.
  intros w'.
  destruct (@import_replaces_store _ Reference.map_area Reference.platform map_area_lawful
              (JSON_stringify mock_import) undated_world w')
    as (bundle & templates & variables & Hparse & Ht & Hv & ts & vs & Hts & Hvs & ->).
  - vm_compute. reflexivity.
  - vm_compute in Hparse. injection Hparse as <-.
    vm_compute in Ht. injection Ht as <-. vm_compute in Hv. injection Hv as <-.
    vm_compute in Hts. injection Hts as <-. vm_compute in Hvs. injection Hvs as <-.
    reflexivity.
Defined.

Lemma importData_partial_commit_witness :
  let blocked := blocking_area STORAGE_KEYS_VARIABLES in
  let w := world_of [undated] stored_variables in
  let w' := (@importData _ blocked _ (JSON_stringify mock_import) w).2 in
  (@importData _ blocked _ (JSON_stringify mock_import) w).1 = Throw import_failure
  ∧ (@getTemplates _ blocked _ w').1 = Ok (map Template_value stored_templates)
  ∧ (@getVariables _ blocked _ w').1 = (@getVariables _ blocked _ w).1.
Proof.
  intros blocked w w'.
  eapply (@importData_partial_commit _ blocked Reference.platform
            (blocking_area_lawful STORAGE_KEYS_VARIABLES) (JSON_stringify mock_import) w).
  - vm_compute. reflexivity.
  - vm_compute. reflexivity.
  - vm_compute. reflexivity.
  - vm_compute. reflexivity.
  - vm_compute. reflexivity.
  - vm_compute. reflexivity.
  - vm_compute. reflexivity.
Defined.

Lemma clearAllData_empties_both_witness :
  let w' := (clearAllData stored_world).2 in
  (getTemplates w').1 = Ok []
  ∧ (getVariables w').1 = Ok []
  ∧ writes w' = writes stored_world.
Proof.
  intros w'.
  apply (@clearAllData_empties_both _ Reference.map_area Reference.platform
           map_area_removes stored_world w').
  vm_compute. reflexivity.
Defined.

(** ** The handlers of the components *)

Lemma elem_of_List_map {A B} (f : A → B) (l : list A) (y : B) :
  y ∈ map f l ↔ ∃ x, y = f x ∧ x ∈ l.
Proof.
  rewrite list_elem_of_In, in_map_iff. split.
  - intros (x & <- & Hx). exists x. by rewrite list_elem_of_In.
  - intros (x & -> & Hx). exists x. by rewrite <- list_elem_of_In.
Qed.

Lemma find_None_elem {A} (f : A → bool) (l : list A) :
  find f l = None ↔ ∀ x, x ∈ l → f x = false.
Proof.
  induction l as [|y l IH]; cbn [find].
  - split; [by intros _ x ?%elem_of_nil|done].
  - destruct (f y) eqn:E.
    + split; [done|]. intros H. rewrite H in E; [done|by left].
    + rewrite IH. split.
      * intros H x [->|?]%elem_of_cons; auto.
      * intros H x Hx. apply H. by right.
Qed.

Lemma find_Some_elem {A} (f : A → bool) (l : list A) (x : A) :
  find f l = Some x → x ∈ l ∧ f x = true.
Proof.
  induction l as [|y l IH]; cbn [find]; [done|].
  destruct (f y) eqn:E.
  - intros [= <-]. split; [by left|done].
  - intros [? ?]%IH. split; [by right|done].
Qed.

Section Upsert.
Context {A K : Type} (id : A → jsstring) (key : A → K).
Implicit Types (records : list A) (record : A).

Local Abbreviation replace record :=
  (map (λ r, if bool_decide (id r = id record) then record else r)).

Lemma replace_absent records record :
  (∀ r, r ∈ records → id r ≠ id record) → replace record records = records.
Proof.
  intros H. induction records as [|r records IH]; [done|].
  cbn [map]. rewrite bool_decide_false by (apply H; by left).
  f_equal. apply IH. intros r' Hr'. apply H. by right.
Qed.

Lemma elem_of_replace records record r :
  r ∈ replace record records → r = record ∨ (r ∈ records ∧ id r ≠ id record).
Proof.
  intros (r' & -> & Hr')%elem_of_List_map. case_bool_decide; [by left|by right].
Qed.

Lemma replace_NoDup_key records record :
  NoDup (map id records) →
  NoDup (map key records) →
  (∀ r, r ∈ records → id r ≠ id record → key r ≠ key record) →
  NoDup (map key (replace record records)).
Proof.
  intros Hid Hkey Hfresh. induction records as [|r records IH]; [done|].
  cbn [map] in Hid, Hkey. apply NoDup_cons in Hid as [Hr Hid], Hkey as [Hkr Hkey].
  cbn [map]. case_bool_decide as E.
  - rewrite replace_absent.
    + apply NoDup_cons. split; [|done].
      intros (r' & Heq & Hr')%elem_of_List_map.
      apply (Hfresh r'); [by right| |done].
      intros E'. apply Hr, elem_of_List_map. exists r'. split; [congruence|done].
    + intros r' Hr' E'. apply Hr, elem_of_List_map. exists r'. split; [congruence|done].
  - apply NoDup_cons. split.
    + intros (r' & Heq & Hr')%elem_of_List_map.
      apply elem_of_replace in Hr' as [->|[Hr' _]].
      * by apply (Hfresh r); [left|..].
      * apply Hkr, elem_of_List_map. by exists r'.
    + apply IH; [done..|]. intros r' Hr'. apply Hfresh. by right.
Qed.

Lemma updated_on_save_NoDup_key records record :
  NoDup (map id records) →
  NoDup (map key records) →
  (∀ r, r ∈ records → id r ≠ id record → key r ≠ key record) →
  NoDup (map key (updated_on_save id records record)).
Proof.
  intros Hid Hkey Hfresh. unfold updated_on_save.
  destruct (find _ records) as [r|] eqn:E.
  - by apply replace_NoDup_key.
  - rewrite map_app. apply NoDup_app. split_and!; [done| |apply NoDup_singleton].
    intros k (r & -> & Hr)%elem_of_List_map [E'|[]%elem_of_nil]%elem_of_cons.
    apply (Hfresh r Hr); [|done].
    apply (proj1 (find_None_elem _ _) E) in Hr. by apply bool_decide_eq_false in Hr.
Qed.

Lemma elem_of_updated_on_save records record r :
  r ∈ updated_on_save id records record
  ↔ r = record ∨ (r ∈ records ∧ id r ≠ id record).
Proof.
  unfold updated_on_save. destruct (find _ records) as [r0|] eqn:E.
  - split; [apply elem_of_replace|].
    apply find_Some_elem in E as [Hr0 E]. apply bool_decide_eq_true in E.
    intros [->|[Hr Hne]]; apply elem_of_List_map.
    + exists r0. by rewrite bool_decide_true.
    + exists r. by rewrite bool_decide_false.
  - rewrite elem_of_app, list_elem_of_singleton. split.
    + intros [Hr| ->]; [right|by left]. split; [done|].
      apply (proj1 (find_None_elem _ _) E) in Hr. by apply bool_decide_eq_false in Hr.
    + intros [->|[Hr _]]; auto.
Qed.

Lemma updated_on_save_ids records record :
  map id (updated_on_save id records record)
  = if bool_decide (id record ∈ map id records) then map id records
    else map id records ++ [id record].
Proof.
  unfold updated_on_save. destruct (find _ records) as [r0|] eqn:E.
  - apply find_Some_elem in E as [Hr0 E]. apply bool_decide_eq_true in E.
    rewrite bool_decide_true by (apply elem_of_List_map; by exists r0).
    clear. induction records as [|r records IH]; [done|].
    cbn [map]. rewrite <- IH. f_equal. by case_bool_decide.
  - rewrite bool_decide_false, map_app; [done|].
    intros (r & Heq & Hr)%elem_of_List_map.
    apply (proj1 (find_None_elem _ _) E) in Hr. by apply bool_decide_eq_false in Hr.
Qed.
End Upsert.

Section ManagerHandlers.
Context {S : Type} {storage : StorageArea S} {platform : Platform}.
Context {lawful : LawfulStorage S}.
Implicit Types (w : World S) (templates : list Template) (variables : list Variable_).

Lemma handler_result {A} (records : list A) (stored : list value) (key : jsstring) w :
  try_catch (_ ← save key stored; mret records) (λ error, throw error) w
  = (match (save key stored w).1 with Ok _ => Ok records | Throw e => Throw e end,
     (save key stored w).2).
Proof.
  unfold try_catch, mbind, Async_bind, mret, Async_ret, throw.
  by destruct (save key stored w) as [[[]|e] w1].
Qed.

Lemma handler_saved {A} (records updated : list A) (stored : list value) (key : jsstring)
    w w' :
  try_catch (_ ← save key stored; mret records) (λ error, throw error) w = (Ok updated, w') →
  updated = records ∧ save key stored w = (Ok (), w').
Proof.
  rewrite handler_result. destruct (save key stored w) as [[[]|e] w1]; [|done].
  by intros [= <- <-].
Qed.

Lemma mapM_rehydrate_templates templates :
  mapM rehydrate (map Template_value templates) = Ok (map Template_value templates).
Proof. apply result_mapM_map, Forall_forall. intros t _. apply rehydrate_Template_value. Qed.

(** X18.  Saving a template from the manager replaces the template of the
    same id where it stands, or adds the template at the end when no
    template has its id: the ids stay distinct, the other templates stay,
    and the templates that load from the store afterwards are those that
    the manager shows; the variables load as before. *)
Theorem handleTemplateSave_upserts templates (template : Template) w updated w' :
  NoDup (map tpl_id templates) →
  handleTemplateSave templates template w = (Ok updated, w') →
  NoDup (map tpl_id updated)
  ∧ map tpl_id updated
    = (if bool_decide (tpl_id template ∈ map tpl_id templates) then map tpl_id templates
       else map tpl_id templates ++ [tpl_id template])
  ∧ (∀ t, t ∈ updated ↔ t = template ∨ (t ∈ templates ∧ tpl_id t ≠ tpl_id template))
  ∧ (getTemplates w').1 = Ok (map Template_value updated)
  ∧ (getVariables w').1 = (getVariables w).1.
Proof.
  intros Hids [-> Hsave]%handler_saved. split_and!.
  - by apply updated_on_save_NoDup_key.
  - apply updated_on_save_ids.
  - intros t. apply elem_of_updated_on_save.
  - exact (load_after_save _ _ _ _ _ Hsave (mapM_rehydrate_templates _)).
  - exact (load_after_save_other _ _ _ _ _ keys_differ' Hsave).
Qed.

Lemma elem_of_updated_on_delete {A} (id : A → jsstring) (records : list A) recordId r :
  r ∈ updated_on_delete id records recordId ↔ r ∈ records ∧ id r ≠ recordId.
Proof.
  unfold updated_on_delete. rewrite !list_elem_of_In, filter_In, negb_true_iff.
  by rewrite bool_decide_eq_false.
Qed.

Lemma updated_on_delete_sublist {A} (id : A → jsstring) (records : list A) recordId :
  sublist (updated_on_delete id records recordId) records.
Proof.
  induction records as [|r records IH]; [done|].
  cbn [updated_on_delete List.filter]. fold (updated_on_delete id records recordId).
  destruct (negb _); by constructor.
Qed.

(** X19.  Deleting a template from the manager removes every template of
    that id and keeps the others in their order; the templates that load
    from the store afterwards are the ones kept, so none of them has the id.
    The handler is rejected exactly when the write of the kept templates is,
    and with the same error: a rejected write rejects the handler, and
    nothing else does. *)
Theorem handleTemplateDelete_removes templates (templateId : jsstring) w :
  (∀ updated w',
     handleTemplateDelete templates templateId w = (Ok updated, w') →
     sublist updated templates
     ∧ (∀ t, t ∈ updated ↔ t ∈ templates ∧ tpl_id t ≠ templateId)
     ∧ (getTemplates w').1 = Ok (map Template_value updated)
     ∧ (getVariables w').1 = (getVariables w).1)
  ∧ (∀ e,
       (storage_set [(STORAGE_KEYS_TEMPLATES,
                      VArray (map Template_value
                                (updated_on_delete tpl_id templates templateId)))]
          (area w)).1 = Throw e
       ↔ (handleTemplateDelete templates templateId w).1 = Throw e).
Proof.
  split.
  - intros updated w' [-> Hsave]%handler_saved. split_and!.
    + apply updated_on_delete_sublist.
    + intros t. apply elem_of_updated_on_delete.
    + exact (load_after_save _ _ _ _ _ Hsave (mapM_rehydrate_templates _)).
    + exact (load_after_save_other _ _ _ _ _ keys_differ' Hsave).
  - intros e. unfold handleTemplateDelete, saveTemplates. cbv zeta.
    rewrite handler_result, save_result. cbn [fst snd].
    destruct (storage_set _ (area w)) as [[[]|e'] s1]; cbn [fst]; [done|].
    split; by intros [= ->].
Qed.
End ManagerHandlers.

Lemma handleTemplateSave_upserts_witness :
  let edited := mkTemplate (lit "1") (lit "Greeting") (lit "Hi {{name}}")
                  (Some new_year) (Some (new_year + 1)%Z) in
  let w' := (handleTemplateSave stored_templates edited stored_world).2 in
  (getTemplates w').1 = Ok (map Template_value [edited])
  ∧ (getVariables w').1 = (getVariables stored_world).1.
Proof.
  intros edited w'.
  destruct (@handleTemplateSave_upserts _ Reference.map_area Reference.platform
              map_area_lawful stored_templates edited stored_world [edited] w')
    as (_ & _ & _ & H1 & H2).
  - vm_compute. repeat constructor. by intros ?%elem_of_nil.
  - vm_compute. reflexivity.
  - by split.
Defined.

Lemma handleTemplateDelete_removes_witness :
  let w' := (handleTemplateDelete stored_templates (lit "1") stored_world).2 in
  let blocked := blocking_area STORAGE_KEYS_TEMPLATES in
  (getTemplates w').1 = Ok []
  ∧ (getVariables w').1 = (getVariables stored_world).1
  ∧ (@handleTemplateDelete _ blocked stored_templates (lit "1") stored_world).1
    = Throw Reference.storage_error.
Proof.
  intros w' blocked.
  destruct (@handleTemplateDelete_removes _ Reference.map_area Reference.platform
              map_area_lawful stored_templates (lit "1") stored_world) as [H _].
  destruct (H [] w') as (_ & _ & H1 & H2); [vm_compute; reflexivity|].
  split_and!; [done..|].
  apply (@handleTemplateDelete_removes _ blocked Reference.platform
           (blocking_area_lawful STORAGE_KEYS_TEMPLATES) stored_templates (lit "1")
           stored_world).
  vm_compute. reflexivity.
Defined.

Lemma truthy_string_ne (s : jsstring) : truthy_string s = true ↔ s ≠ [].
Proof. by destruct s. Qed.

Lemma validateTemplate_content (t1 t2 : Template) (variables : list Variable_) :
  extractVariables (tpl_content t1) = extractVariables (tpl_content t2) →
  validateTemplate t1 variables = validateTemplate t2 variables.
Proof. unfold validateTemplate. by intros ->. Qed.

Lemma validateTemplate_nil_defined (t : Template) (variables : list Variable_) :
  validateTemplate t variables = [] →
  Forall (λ name, name ∈ map var_name variables) (extractVariables (tpl_content t)).
Proof.
  unfold validateTemplate. rewrite fold_push_error. cbn [app].
  intros H. apply fmap_nil_inv in H. apply Forall_forall. intros name Hname.
  destruct (decide (name ∈ map var_name variables)) as [?|Hnot]; [done|].
  exfalso. by eapply (filter_nil_not_elem_of _ _ name H Hnot).
Qed.

(** X20.  What the editor passes on to be saved is valid.  When the
    validation errors on display are those that the effect computed for the
    title, the content and the variables at hand, a template that
    [handleSave] passes to [onTemplateSave] has a title and a content that
    are trimmed and not empty, [validateTemplate] has no error for it, and
    every name that [extractVariables] finds in it is the name of a
    variable. *)
Theorem templateToSave_is_valid (id0 id : jsstring) (now0 now : Z) (st : EditorState)
    (variables : list Variable_) (template : Template) :
  validationErrors st = validation_effect id0 now0 (title st) (content st) variables →
  templateToSave id now st = Some template →
  tpl_title template = trim (title st) ∧ tpl_title template ≠ []
  ∧ tpl_content template = trim (content st) ∧ tpl_content template ≠ []
  ∧ validateTemplate template variables = []
  ∧ Forall (λ name, name ∈ map var_name variables) (extractVariables (tpl_content template))
  ∧ tpl_id template = from_option tpl_id id (selectedTemplate st).
Proof.
  intros Heffect. unfold templateToSave, validation_effect in *.
  destruct (truthy_string (trim (title st))) eqn:Et; [|done].
  destruct (truthy_string (trim (content st))) eqn:Ec; [|done].
  cbn [negb orb]. destruct (validationErrors st) as [|e errors]; [|done].
  cbn [length Nat.ltb Nat.leb]. intros [= <-].
  apply truthy_string_ne in Et, Ec.
  assert (validateTemplate
            match selectedTemplate st with
            | Some selected =>
                mkTemplate (tpl_id selected) (trim (title st)) (trim (content st))
                  (tpl_createdAt selected) (Some now)
            | None => createTemplate id now (trim (title st)) (trim (content st))
            end variables = []) as Hvalid.
  { rewrite Heffect. apply validateTemplate_content.
    destruct (selectedTemplate st); cbn [tpl_content createTemplate];
      apply extractVariables_trim. }
  split_and!; try (by destruct (selectedTemplate st)).
  by apply validateTemplate_nil_defined.
Qed.

Lemma templateToSave_is_valid_witness :
  let st := mkEditorState None (lit " Greeting ") (lit "Hello {{ name }}! ") [] in
  let saved := createTemplate (lit "id") 1 (lit "Greeting") (lit "Hello {{ name }}!") in
  templateToSave (lit "id") 1 st = Some saved
  ∧ validateTemplate saved mockVariables = [].
Proof.
  intros st saved.
  assert (templateToSave (lit "id") 1 st = Some saved) as H by (vm_compute; reflexivity).
  split; [exact H|].
  refine (proj1 (proj2 (proj2 (proj2 (proj2
    (templateToSave_is_valid (lit "temp") (lit "id") 0 1 st mockVariables saved _ H)))))).
  vm_compute. reflexivity.
Defined.

Section SettingsHandlers.
Context {S : Type} {storage : StorageArea S} {platform : Platform} {casing : Casing}.
Implicit Types (w : World S) (variables : list Variable_).

(** X21.  The names of the variables stay distinct, whatever the case of
    their letters.  When the ids of the variables are distinct and so are
    their names in lower case, and [handleSave] of the settings passes a
    variable on, the variables that [handleVariableSave] then stores and
    shows have distinct ids and distinct names in lower case again; the
    name and the value of the variable saved are trimmed and not empty. *)
Theorem variable_names_stay_unique (id : jsstring) (now : Z) variables
    (st : SettingsState) (variable : Variable_) w updated w' :
  NoDup (map var_id variables) →
  NoDup (map (λ v, toLowerCase (var_name v)) variables) →
  variableToSave id now variables st = Some variable →
  handleVariableSave variables variable w = (Ok updated, w') →
  NoDup (map var_id updated)
  ∧ NoDup (map (λ v, toLowerCase (var_name v)) updated)
  ∧ variable ∈ updated
  ∧ var_name variable = trim (name st) ∧ var_name variable ≠ []
  ∧ var_value variable = trim (value_ st) ∧ var_value variable ≠ [].
Proof.
  intros Hids Hnames Hsave [-> _]%handler_saved.
  unfold variableToSave in Hsave.
  destruct (truthy_string (trim (name st))) eqn:En; [|done].
  destruct (truthy_string (trim (value_ st))) eqn:Ev; [|done].
  cbn [negb orb] in Hsave. apply truthy_string_ne in En, Ev.
  destruct (find _ variables) as [existing|] eqn:Efind; [done|].
  injection Hsave as <-.
  assert (∀ r, r ∈ variables →
            var_id r ≠ from_option var_id id (editingVariable st) →
            toLowerCase (var_name r) ≠ toLowerCase (trim (name st))) as Hfresh.
  { intros r Hr Hid Hname.
    apply (proj1 (find_None_elem _ _) Efind) in Hr.
    apply andb_false_iff in Hr as [Hr|Hr].
    - by apply bool_decide_eq_false in Hr.
    - apply negb_false_iff, bool_decide_eq_true in Hr.
      destruct (editingVariable st) as [editing|]; [|done].
      cbn in Hr, Hid. congruence. }
  split_and!; try (by destruct (editingVariable st)).
  - by apply updated_on_save_NoDup_key.
  - apply updated_on_save_NoDup_key; [done..|].
    intros r Hr Hid. destruct (editingVariable st); by apply Hfresh.
  - apply elem_of_updated_on_save. by left.
Qed.
End SettingsHandlers.

Lemma variable_names_stay_unique_witness :
  let st := mkSettingsState None (lit " Email ") (lit "john@example.com") [] in
  let variable := createVariable (lit "3") 1 (lit "Email") (lit "john@example.com") None in
  let updated := mockVariables ++ [variable] in
  @variableToSave basic_latin_toLowerCase (lit "3") 1 mockVariables st = Some variable
  ∧ NoDup (map var_id updated)
  ∧ NoDup (map (λ v, basic_latin_toLowerCase (var_name v)) updated).
Proof.
  intros st variable updated.
  assert (@variableToSave basic_latin_toLowerCase (lit "3") 1 mockVariables st
          = Some variable) as H by (vm_compute; reflexivity).
  split; [exact H|].
  destruct (@variable_names_stay_unique _ Reference.map_area
              basic_latin_toLowerCase (lit "3") 1 mockVariables st variable
              empty_world updated
              (handleVariableSave mockVariables variable empty_world).2)
    as (H1 & H2 & _); [..|by split].
  - vm_compute. repeat constructor; set_solver.
  - vm_compute. repeat constructor; set_solver.
  - exact H.
  - vm_compute. reflexivity.
Defined.

(** X22.  [copyToClipboard] is fulfilled, or rejected with the one error of
    the module.  Where [isClipboardSupported] holds it only calls
    [writeText], with the text, and settles as that call does apart from the
    error; it does not fall back on the text area when the call is rejected.
    Elsewhere it never calls [writeText], is fulfilled whenever
    [execCommand] returns, whether the command reports that it copied or
    not, and removes the text area that it attached exactly when it is
    fulfilled. *)
Theorem copyToClipboard_outcomes (text : jsstring) (b : Browser) :
  ((copyToClipboard text b).1 = Ok () ∨ (copyToClipboard text b).1 = Throw copy_failure)
  ∧ (isClipboardSupported b = true →
       (copyToClipboard text b).2 = [writeText text]
       ∧ ((copyToClipboard text b).1 = Ok () ↔ writeText_settles b text = Ok ()))
  ∧ (isClipboardSupported b = false →
       (∀ t, writeText t ∉ (copyToClipboard text b).2)
       ∧ set_value text ∈ (copyToClipboard text b).2
       ∧ appendChild_textarea ∈ (copyToClipboard text b).2
       ∧ ((copyToClipboard text b).1 = Ok ()
          ↔ ∃ copied, execCommand_returns b = Ok copied)
       ∧ (removeChild_textarea ∈ (copyToClipboard text b).2
          ↔ (copyToClipboard text b).1 = Ok ())).
Proof.
  unfold copyToClipboard, isClipboardSupported.
  destruct (navigator_clipboard b && window_isSecureContext b).
  - destruct (writeText_settles b text) as [[]|e]; cbn [fst snd];
      (split_and!; [auto|by intros _|done]).
  - destruct (execCommand_returns b) as [copied|e]; cbn [fst snd app].
    + split_and!; [auto|done|]. intros _. split_and!.
      * intros t Ht. repeat (apply elem_of_cons in Ht as [?|Ht]; [done|]).
        by apply elem_of_nil in Ht.
      * set_solver.
      * set_solver.
      * split; [by exists copied|done].
      * split; [done|]. intros _. set_solver.
    + split_and!; [auto|done|]. intros _. split_and!.
      * intros t Ht. repeat (apply elem_of_cons in Ht as [?|Ht]; [done|]).
        by apply elem_of_nil in Ht.
      * set_solver.
      * set_solver.
      * split; [done|by intros [? ?]].
      * split; [|done]. intros Ht.
        repeat (apply elem_of_cons in Ht as [?|Ht]; [done|]).
        by apply elem_of_nil in Ht.
Qed.

(** ** Substituted text has no placeholder left *)

(** A marker that begins in [front] and reaches into a value without braces
    was there already when the placeholder stood in the place of the value:
    what precedes the value then opened the marker, and the placeholder's own
    closing braces end it. *)
Lemma occurs_at_0_bridge front v out inner rest :
  front ≠ [] → v ≠ [] → lbrace ∉ v → rbrace ∉ v → is_marker inner →
  occurs_at (front ++ v ++ out) 0 →
  occurs_at (front ++ marker_text inner ++ rest) 0.
Proof.
  intros Hfront Hv Hl Hr [Hne Hin] (inner' & rest' & [Hne' Hin'] & E).
  unfold occurs_at. rewrite drop_0 in E. setoid_rewrite drop_0.
  destruct v as [|c v']; [done|].
  apply not_elem_of_cons in Hl as [Hcl _], Hr as [Hcr _].
  apply app_eq_inv in E as [(k & E1 & E2)|(k & E1 & E2)].
  - exists inner', (k ++ marker_text inner ++ rest).
    split; [done|]. by rewrite E1, <- app_assoc.
  - destruct k as [|c' k'].
    { rewrite app_nil_r in E1. subst front.
      by exists inner', (marker_text inner ++ rest). }
    cbn [app] in E2. injection E2 as <- E2.
    unfold marker_text in E1.
    destruct front as [|x [|y front']]; [done| |].
    { cbn [app] in E1. injection E1 as _ E1. congruence. }
    cbn [app] in E1. injection E1 as <- <- E1.
    apply app_eq_inv in E1 as [(k2 & E3 & E4)|(k2 & E3 & E4)].
    + assert (lbrace :: lbrace :: front' ++ marker_text inner ++ rest
              = marker_text (front' ++ lbrace :: lbrace :: inner) ++ rest) as Heq.
      { unfold marker_text. cbn [app]. do 2 f_equal.
        rewrite <- !app_assoc. by cbn [app]. }
      exists (front' ++ lbrace :: lbrace :: inner), rest. split; [|exact Heq].
      split; [by destruct front'|].
      rewrite E3 in Hin'. apply Forall_app in Hin' as [Hfront' _].
      apply Forall_app. split; [done|]. by repeat constructor.
    + exfalso. destruct k2 as [|a [|b k2']].
      * cbn [app] in E4. congruence.
      * cbn [app] in E4. injection E4 as _ E4. congruence.
      * cbn [app] in E4. injection E4 as _ _ E4. by destruct k2'.
Qed.

Lemma occurs_at_around_value pre v out inner rest j :
  v ≠ [] → lbrace ∉ v → rbrace ∉ v → is_marker inner →
  occurs_at (pre ++ v ++ out) j →
  (j < length pre ∧ occurs_at (pre ++ marker_text inner ++ rest) j)
  ∨ (length pre + length v ≤ j ∧ occurs_at out (j - length pre - length v)).
Proof.
  intros Hv Hl Hr Hm Hocc. destruct (decide (j < length pre)) as [Hj|Hj].
  - left. split; [done|].
    rewrite <- (take_drop j pre) in Hocc |- *. rewrite <- !app_assoc in Hocc |- *.
    assert (length (take j pre) = j) as Hlen by (rewrite length_take; lia).
    replace j with (length (take j pre) + 0) at 3 by lia.
    apply occurs_at_app_l.
    eapply (occurs_at_0_bridge _ v out); [|done..|].
    + intros E. apply (f_equal length) in E. rewrite length_drop in E. cbn in E. lia.
    + destruct Hocc as (inner' & rest' & Hm' & E).
      rewrite drop_app_length' in E by done.
      exists inner', rest'. split; [done|]. by rewrite drop_0.
  - right. destruct Hocc as (inner' & rest' & Hm' & E).
    rewrite drop_app_ge in E by lia.
    destruct (occurs_at_prefix_free v out (j - length pre) Hl) as [Hge Hocc].
    { by exists inner', rest'. }
    split; [lia|]. by replace (j - length pre - length v) with (j - length pre - length v).
Qed.

Lemma String_replace_resolved (content : jsstring) (variableMap : gmap jsstring jsstring) :
  Forall (λ name, ∃ v, variableMap !! name = Some v
                       ∧ v ≠ [] ∧ (lbrace ∉ v) ∧ (rbrace ∉ v))
         (placeholder_names content) →
  ∀ j, ¬ occurs_at (String_replace content (replacer variableMap)) j.
Proof.
  induction content as [s Hnone|pre inner rest Hm Hlt IH] using scan_ind.
  - intros _ j. by rewrite String_replace_none.
  - rewrite placeholder_names_leftmost by done. intros Hall.
    apply Forall_cons in Hall as [(v & Hv & Hne & Hl & Hr) Hall].
    rewrite String_replace_leftmost; [|done|done|intros; apply replacer_shift].
    unfold replacer at 1. cbn [group1]. rewrite Hv.
    replace (truthy_string v) with true by (by destruct v).
    intros j Hocc.
    destruct (occurs_at_around_value _ _ _ inner rest j Hne Hl Hr Hm Hocc)
      as [[Hj Hocc']|[_ Hocc']].
    + by apply (Hlt j).
    + by apply (IH Hall) in Hocc'.
Qed.

(** X23.  When every placeholder of the content names a variable whose
    value is not empty and has no brace in it, the text that
    [processTemplate] returns has no placeholder left: [extractVariables]
    finds no name in it, and processing it again, with whatever variables,
    returns it as it is. *)
Theorem processTemplate_leaves_no_placeholder (template : Template)
    (variables : list Variable_) :
  Forall (λ name, ∃ v, variableMap variables !! name = Some v
                       ∧ v ≠ [] ∧ (lbrace ∉ v) ∧ (rbrace ∉ v))
         (placeholder_names (tpl_content template)) →
  let processed := processTemplate template variables in
  placeholder_names processed = []
  ∧ extractVariables processed = []
  ∧ ∀ variables', processTemplate (with_content template processed) variables' = processed.
Proof.
  intros Hall processed.
  assert (∀ j, ¬ occurs_at processed j) as Hnone
    by (by apply String_replace_resolved).
  split_and!.
  - by apply placeholder_names_none.
  - by rewrite extractVariables_dedup, placeholder_names_none.
  - intros variables'. unfold processTemplate at 1. cbn [tpl_content with_content].
    by apply String_replace_none.
Qed.

Lemma processTemplate_leaves_no_placeholder_witness :
  let processed :=
    processTemplate (mockTemplate "{ {{name}}, order {{ order_id }} }}") mockVariables in
  processed = lit "{ John Doe, order 12345 }}"
  ∧ placeholder_names processed = []
  ∧ extractVariables processed = []
  ∧ ∀ variables',
      processTemplate
        (with_content (mockTemplate "{ {{name}}, order {{ order_id }} }}") processed)
        variables' = processed.
Proof.
  intros processed. split; [vm_compute; reflexivity|].
  apply (processTemplate_leaves_no_placeholder
           (mockTemplate "{ {{name}}, order {{ order_id }} }}") mockVariables).
  replace (placeholder_names _) with [lit "name"; lit "order_id"]
    by (vm_compute; reflexivity).
  apply Forall_cons; split; [|apply Forall_cons; split; [|constructor]].
  - exists (lit "John Doe"). split_and!; [vm_compute; reflexivity|done|..];
      apply (bool_decide_unpack _); vm_compute; exact I.
  - exists (lit "12345"). split_and!; [vm_compute; reflexivity|done|..];
      apply (bool_decide_unpack _); vm_compute; exact I.
Defined.

(** ** The preview of the editor *)

(** X24.  The preview of the editor shows what the list will copy.  For a
    template that [handleSave] passes on, the content typed is the content
    saved between two runs of white space, and the preview is the text that
    [processTemplate] makes of the template saved between the same two
    runs; this text, without them, is what [handleCopyTemplate] hands to
    [writeText]. *)
Theorem preview_shows_what_is_copied (id0 id : jsstring) (now0 now : Z) (st : EditorState)
    (variables : list Variable_) (template : Template) :
  templateToSave id now st = Some template →
  ∃ ws1 ws2,
    Forall (λ c, is_white_space c = true) ws1
    ∧ Forall (λ c, is_white_space c = true) ws2
    ∧ content st = ws1 ++ tpl_content template ++ ws2
    ∧ processedContent id0 now0 (title st) (content st) variables
      = ws1 ++ processTemplate template variables ++ ws2
    ∧ ∀ b, isClipboardSupported b = true →
           (handleCopyTemplate template variables b).2
           = [writeText (processTemplate template variables)].
Proof.
  unfold templateToSave.
  destruct (truthy_string (trim (title st))) eqn:Et; [|done].
  destruct (truthy_string (trim (content st))) eqn:Ec; [|done].
  cbn [negb orb]. destruct (0 <? length (validationErrors st))%nat; [done|].
  intros [= <-]. apply truthy_string_ne in Ec.
  destruct (trim_split (content st)) as (ws1 & ws2 & E & H1 & H2).
  exists ws1, ws2.
  assert (tpl_content
            match selectedTemplate st with
            | Some selected =>
                mkTemplate (tpl_id selected) (trim (title st)) (trim (content st))
                  (tpl_createdAt selected) (Some now)
            | None => createTemplate id now (trim (title st)) (trim (content st))
            end = trim (content st)) as Hcontent by (by destruct (selectedTemplate st)).
  split_and!; [done|done|by rewrite Hcontent| |].
  - unfold processedContent.
    replace (truthy_string (content st)) with true.
    2:{ destruct (content st); [|done]. by destruct Ec. }
    unfold processTemplate. rewrite Hcontent. cbn [tpl_content createTemplate].
    rewrite E at 1.
    rewrite String_replace_prefix, String_replace_suffix; try done.
    + by apply white_space_free.
    + by apply white_space_free.
  - intros b Hb. unfold handleCopyTemplate, copyToClipboard.
    unfold isClipboardSupported in Hb. rewrite Hb.
    by destruct (writeText_settles b _).
Qed.

Lemma preview_shows_what_is_copied_witness :
  let st := mkEditorState None (lit "Greeting") (lit "  Hello {{name}}! ") [] in
  ∃ ws1 ws2,
    processedContent (lit "preview") 0 (title st) (content st) mockVariables
    = ws1 ++ lit "Hello John Doe!" ++ ws2
    ∧ Forall (λ c, is_white_space c = true) ws1
    ∧ Forall (λ c, is_white_space c = true) ws2.
Proof.
  intros st.
  destruct (preview_shows_what_is_copied (lit "preview") (lit "id") 0 1 st mockVariables
              (createTemplate (lit "id") 1 (lit "Greeting") (lit "Hello {{name}}!")))
    as (ws1 & ws2 & H1 & H2 & _ & H3 & _); [vm_compute; reflexivity|].
  exists ws1, ws2. split_and!; [|done..]. rewrite H3. do 2 f_equal.
Defined.

(** ** The ids *)

Lemma digit36_value_digit (d : N) : (d < 36)%N → digit36_value (digit36 d) = d.
Proof.
  intros Hd. unfold digit36, digit36_value.
  destruct (d <? 10)%N eqn:E.
  - apply N.ltb_lt in E. replace (48 + d <? 58)%N with true by (symmetry; apply N.ltb_lt; lia).
    lia.
  - apply N.ltb_ge in E. replace (87 + d <? 58)%N with false by (symmetry; apply N.ltb_ge; lia).
    lia.
Qed.

Lemma value36_digits36 (fuel : nat) (n : N) (acc : jsstring) :
  (n < 2 ^ N.of_nat fuel)%N →
  value36 (digits36 fuel n acc) = (n * 36 ^ N.of_nat (length acc) + value36 acc)%N.
Proof.
  revert n acc. induction fuel as [|fuel IH]; intros n acc Hn.
  - cbn in Hn. assert (n = 0%N) as -> by lia. cbn [digits36]. lia.
  - cbn [digits36]. rewrite Nat2N.inj_succ, N.pow_succ_r' in Hn.
    pose proof (N.mod_lt n 36 ltac:(lia)) as Hmod.
    pose proof (N.div_mod n 36 ltac:(lia)) as Hdiv.
    destruct (n / 36 =? 0)%N eqn:E.
    + apply N.eqb_eq in E. cbn [value36]. rewrite digit36_value_digit by done.
      rewrite E in Hdiv. replace (n mod 36)%N with n by lia. done.
    + rewrite IH.
      * cbn [value36 length]. rewrite digit36_value_digit by done.
        rewrite Nat2N.inj_succ, N.pow_succ_r'.
        set (p := (36 ^ N.of_nat (length acc))%N). rewrite Hdiv at 3. lia.
      * apply N.Div0.div_lt_upper_bound. lia.
Qed.

Lemma digits36_length (k fuel : nat) (n : N) (acc : jsstring) :
  k < fuel →
  (36 ^ N.of_nat k ≤ n < 36 ^ N.of_nat (S k))%N →
  length (digits36 fuel n acc) = S k + length acc.
Proof.
  revert fuel n acc. induction k as [|k IH]; intros fuel n acc Hk Hn;
    (destruct fuel as [|fuel]; [lia|]); cbn [digits36].
  - cbn in Hn. replace (n / 36 =? 0)%N with true; [done|].
    symmetry. apply N.eqb_eq, N.div_small. lia.
  - rewrite !Nat2N.inj_succ, !N.pow_succ_r' in Hn.
    assert (36 ^ N.of_nat k ≤ n / 36 < 36 ^ N.of_nat (S k))%N as Hq.
    { split.
      - apply N.div_le_lower_bound; lia.
      - apply N.Div0.div_lt_upper_bound. rewrite Nat2N.inj_succ, N.pow_succ_r'. lia. }
    replace (n / 36 =? 0)%N with false.
    2:{ symmetry. apply N.eqb_neq.
        pose proof (N.pow_nonzero 36 (N.of_nat k) ltac:(lia)). lia. }
    rewrite IH; [cbn [length]; lia|lia|done].
Qed.

Lemma Number_toString36_era (now : Z) :
  (78364164096 ≤ now < 2821109907456)%Z →
  length (Number_toString36 now) = 8
  ∧ value36 (Number_toString36 now) = Z.to_N now.
Proof.
  intros Hnow. unfold Number_toString36.
  replace (now <? 0)%Z with false by (symmetry; apply Z.ltb_ge; lia).
  rewrite Z.abs_eq by lia. set (n := Z.to_N now).
  assert (78364164096 ≤ n < 2821109907456)%N as Hn by lia.
  split.
  - rewrite (digits36_length 7); [done| |].
    + assert (N.log2 78364164096 ≤ N.log2 n)%N as Hlog by (apply N.log2_le_mono; lia).
      change (N.log2 78364164096) with 36%N in Hlog. lia.
    + change (36 ^ N.of_nat 7)%N with 78364164096%N.
      change (36 ^ N.of_nat 8)%N with 2821109907456%N. done.
  - rewrite value36_digits36.
    + cbn [length value36 N.of_nat]. lia.
    + rewrite Nat2N.inj_succ, N2Nat.id. apply N.log2_spec. lia.
Qed.

(** X25.  From 25 June 1972, 23:49:24.096 UTC, to 25 May 2059, where the
    time in milliseconds has eight digits in base 36, the ids that [generateId]
    makes at different milliseconds are different, whatever the random
    parts; two ids of the same millisecond are equal exactly when
    their random parts are.  The id begins with the eight digits of the
    time, from which the time is read back. *)
Theorem generateId_distinct_per_millisecond (now1 now2 : Z) (random1 random2 : jsstring) :
  (78364164096 ≤ now1 < 2821109907456)%Z →
  (78364164096 ≤ now2 < 2821109907456)%Z →
  (generateId now1 random1 = generateId now2 random2
   ↔ now1 = now2 ∧ substr2 random1 = substr2 random2)
  ∧ value36 (take 8 (generateId now1 random1)) = Z.to_N now1
  ∧ drop 8 (generateId now1 random1) = substr2 random1.
Proof.
  intros H1 H2.
  destruct (Number_toString36_era now1 H1) as [Hlen1 Hval1].
  destruct (Number_toString36_era now2 H2) as [Hlen2 Hval2].
  unfold generateId. split_and!.
  - split.
    + intros E.
      assert (Number_toString36 now1 = Number_toString36 now2) as Et.
      { apply (f_equal (take 8)) in E. by rewrite !take_app_length' in E. }
      split.
      * apply (f_equal value36) in Et. lia.
      * apply (f_equal (drop 8)) in E. by rewrite !drop_app_length' in E.
    + by intros [-> ->].
  - by rewrite take_app_length'.
  - by rewrite drop_app_length'.
Qed.

Lemma generateId_distinct_per_millisecond_witness :
  generateId new_year (lit "0.4fzyo82mvyr") = lit "lcclw5c04fzyo82mvyr"
  ∧ generateId new_year (lit "0.4fzyo82mvyr") ≠ generateId (new_year + 1) (lit "0.4fzyo82mvyr")
  ∧ value36 (take 8 (generateId new_year (lit "0.4fzyo82mvyr"))) = Z.to_N new_year.
Proof.
  destruct (generateId_distinct_per_millisecond new_year (new_year + 1)
              (lit "0.4fzyo82mvyr") (lit "0.4fzyo82mvyr")) as (Hiff & Hval & _).
  - unfold new_year. lia.
  - unfold new_year. lia.
  - split_and!; [vm_compute; reflexivity| |exact Hval].
    intros E. apply Hiff in E as [E _]. unfold new_year in E. lia.
Defined.

(** * Part V: export and import, there and back

    The reference platform is shown to read back what it writes: a valid
    date from its ISO text, and a value from its JSON text.  Then the round
    trip of [exportData] and [importData] is proved for every platform that
    does so and every key-value store, and run on the reference platform. *)

(** ** Decimal digits *)

(** The number that the digits [ds] write after those that gave [a]. *)
Lemma number_of_digits_app (ds1 ds2 : jsstring) :
  Reference.number_of_digits (ds1 ++ ds2)
  = fold_left (λ a d, (10 * a + Z.of_N (d - 48))%Z) ds2 (Reference.number_of_digits ds1).
Proof. unfold Reference.number_of_digits. by rewrite fold_left_app. Qed.

Lemma uint_codes_digits (d : Decimal.uint) :
  Forall (λ c, Reference.is_digit c = true) (uint_codes d).
Proof. induction d; constructor; done. Qed.

Lemma uint_codes_length (d : Decimal.uint) : length (uint_codes d) = Decimal.nb_digits d.
Proof. induction d; cbn; by f_equal. Qed.

Lemma usize_nb_digits (d : Decimal.uint) :
  DecimalPos.Unsigned.usize d = N.of_nat (Decimal.nb_digits d).
Proof. induction d; cbn [DecimalPos.Unsigned.usize Decimal.nb_digits]; lia. Qed.

Lemma fold_uint_codes (d : Decimal.uint) (a : Z) :
  fold_left (λ a d, (10 * a + Z.of_N (d - 48))%Z) (uint_codes d) a
  = (a * 10 ^ Z.of_nat (Decimal.nb_digits d) + Z.of_N (Pos.of_uint d))%Z.
Proof.
  rewrite DecimalPos.Unsigned.of_uint_alt.
  revert a. induction d as [|d IH|d IH|d IH|d IH|d IH|d IH|d IH|d IH|d IH|d IH]; intros a;
    [cbn; lia|..];
    cbn [uint_codes NilEmpty.string_of_uint lit fold_left Decimal.nb_digits];
    fold (uint_codes d);
    unfold Decimal.rev; cbn [Decimal.revapp];
    rewrite DecimalPos.Unsigned.of_lu_revapp, usize_nb_digits;
    rewrite IH;
    rewrite Nat2Z.inj_succ, Z.pow_succ_r by lia;
    rewrite N2Z.inj_add, N2Z.inj_mul, N2Z.inj_pow, nat_N_Z;
    cbn; lia.
Qed.

Lemma N_to_uint_nonnil (n : N) : N.to_uint n ≠ Decimal.Nil.
Proof. destruct n; [done|]. apply Unsigned.to_uint_nonnil. Qed.

Lemma digits_of_N_codes (n : N) : Reference.digits_of_N n = uint_codes (N.to_uint n).
Proof.
  unfold Reference.digits_of_N, uint_codes, NilZero.string_of_uint.
  pose proof (N_to_uint_nonnil n). by destruct (N.to_uint n).
Qed.

Lemma digits_of_N_digits (n : N) :
  Forall (λ c, Reference.is_digit c = true) (Reference.digits_of_N n).
Proof. rewrite digits_of_N_codes. apply uint_codes_digits. Qed.

Lemma number_of_digits_of_N (n : N) :
  Reference.number_of_digits (Reference.digits_of_N n) = Z.of_N n.
Proof.
  unfold Reference.number_of_digits. rewrite digits_of_N_codes, fold_uint_codes.
  change (Pos.of_uint (N.to_uint n)) with (N.of_uint (N.to_uint n)).
  rewrite DecimalN.Unsigned.of_to. lia.
Qed.

(** No zero in front, except for the numeral of zero. *)
Lemma digits_of_N_head (n : N) :
  Reference.digits_of_N n = [48%N] ∧ n = 0%N
  ∨ ∃ c ds, Reference.digits_of_N n = c :: ds ∧ c ≠ 48%N ∧ (0 < n)%N.
Proof.
  destruct n as [|p]; [by left|right].
  rewrite digits_of_N_codes.
  assert (Decimal.unorm (N.to_uint (N.pos p)) = N.to_uint (N.pos p)) as Hnorm.
  { rewrite <- DecimalN.Unsigned.to_of. by rewrite DecimalN.Unsigned.of_to. }
  cbn [N.to_uint] in *. pose proof (Unsigned.to_uint_nonzero p) as Hnz.
  pose proof (Unsigned.to_uint_nonnil p) as Hnn.
  unfold Decimal.unorm in Hnorm.
  destruct (Decimal.nzhead (Pos.to_uint p)) as [| | | | | | | | | |] eqn:E;
    [by rewrite <- Hnorm in Hnz| |..];
    try (rewrite <- Hnorm; eexists _, _; split; [reflexivity|split; [done|lia]]).
  - by destruct (nzhead_nonzero _ _ E).
Qed.

Lemma digits_of_N_length (n : N) (width : nat) :
  (0 < width)%nat → (n < 10 ^ N.of_nat width)%N →
  (length (Reference.digits_of_N n) ≤ width)%nat.
Proof.
  intros Hw Hn. destruct (digits_of_N_head n) as [[-> _]|(c & ds & E & Hc & Hpos)].
  { cbn. lia. }
  pose proof (number_of_digits_of_N n) as Hval.
  pose proof (digits_of_N_digits n) as Hdig. rewrite E in Hval, Hdig.
  apply Forall_cons in Hdig as [Hcd Hds]. rewrite E.
  unfold Reference.number_of_digits in Hval. cbn [fold_left] in Hval.
  assert (∀ a : Z, (0 ≤ a)%Z →
            (a * 10 ^ Z.of_nat (length ds)
             ≤ fold_left (λ a d, (10 * a + Z.of_N (d - 48))%Z) ds a)%Z) as Hlow.
  { clear. induction ds as [|d ds IH]; intros a Ha; cbn [fold_left length].
    - cbn. lia.
    - etransitivity; [|apply IH; lia].
      rewrite Nat2Z.inj_succ, Z.pow_succ_r by lia. nia. }
  specialize (Hlow (10 * 0 + Z.of_N (c - 48))%Z ltac:(lia)).
  unfold Reference.is_digit in Hcd. apply andb_true_iff in Hcd as [H1 H2].
  apply N.leb_le in H1, H2.
  assert (1 ≤ 10 * 0 + Z.of_N (c - 48))%Z as Hc1 by lia.
  assert (10 ^ Z.of_nat (length ds) ≤ Z.of_N n)%Z as Hle by nia.
  cbn [length]. destruct (decide (length ds < width)%nat) as [?|Hge]; [lia|].
  exfalso. assert (10 ^ Z.of_nat width ≤ 10 ^ Z.of_nat (length ds))%Z
    by (apply Z.pow_le_mono_r; lia).
  assert (Z.of_N n < 10 ^ Z.of_nat width)%Z.
  { replace (10 ^ Z.of_nat width)%Z with (Z.of_N (10 ^ N.of_nat width)); [lia|].
    rewrite N2Z.inj_pow, nat_N_Z. done. }
  lia.
Qed.

(** ** Dates *)

Local Open Scope Z_scope.

Lemma Date_parse_plain (c : N) (r : jsstring) :
  c ≠ 43%N → c ≠ 45%N →
  Reference.Date_parse (c :: r) = parse_fields 1 4 (c :: r) (c :: r).
Proof.
  intros H43 H45. destruct c as [|p]; [reflexivity|].
  do 6 (destruct p as [p|p|]; try reflexivity); congruence.
Qed.

Lemma Date_parse_signed (r : jsstring) :
  Reference.Date_parse (43%N :: r) = parse_fields 1 6 r (43%N :: r)
  ∧ Reference.Date_parse (45%N :: r) = parse_fields (-1) 6 r (45%N :: r).
Proof. done. Qed.

Lemma number_of_digits_zeros (k : nat) (ds : jsstring) :
  Reference.number_of_digits (replicate k 48%N ++ ds) = Reference.number_of_digits ds.
Proof.
  unfold Reference.number_of_digits. rewrite fold_left_app. f_equal.
  induction k as [|k IH]; [done|]. cbn [replicate fold_left]. exact IH.
Qed.

Lemma pad_spec (width : nat) (z : Z) :
  (0 < width)%nat → 0 ≤ z < 10 ^ Z.of_nat width →
  length (Reference.pad width z) = width
  ∧ Forall (λ c, Reference.is_digit c = true) (Reference.pad width z)
  ∧ Reference.number_of_digits (Reference.pad width z) = z.
Proof.
  intros Hw Hz. unfold Reference.pad.
  assert (length (Reference.digits_of_N (Z.to_N z)) ≤ width)%nat as Hlen.
  { apply digits_of_N_length; [done|].
    apply N2Z.inj_lt. rewrite N2Z.inj_pow, nat_N_Z, Z2N.id by lia. cbn. lia. }
  split_and!.
  - rewrite length_app, length_replicate. lia.
  - apply Forall_app. split; [|apply digits_of_N_digits].
    by apply Forall_replicate.
  - rewrite number_of_digits_zeros, number_of_digits_of_N. lia.
Qed.

Lemma read_digits_pad (width : nat) (z : Z) (rest : jsstring) :
  (0 < width)%nat → 0 ≤ z < 10 ^ Z.of_nat width →
  Reference.read_digits width (Reference.pad width z ++ rest) = Some (z, rest).
Proof.
  intros Hw Hz. destruct (pad_spec width z Hw Hz) as (Hlen & Hdig & Hval).
  unfold Reference.read_digits.
  rewrite take_app_length', drop_app_length' by done.
  rewrite bool_decide_true by done.
  replace (forallb Reference.is_digit (Reference.pad width z)) with true.
  - cbn. by rewrite Hval.
  - symmetry. apply forallb_forall. intros c Hc.
    rewrite Forall_forall in Hdig. apply Hdig. by apply list_elem_of_In.
Qed.

Lemma pad_head (width : nat) (z : Z) :
  (0 < width)%nat → 0 ≤ z < 10 ^ Z.of_nat width →
  ∃ c r, Reference.pad width z = c :: r ∧ c ≠ 43%N ∧ c ≠ 45%N.
Proof.
  intros Hw Hz. destruct (pad_spec width z Hw Hz) as (Hlen & Hdig & _).
  destruct (Reference.pad width z) as [|c r]; [cbn in Hlen; lia|].
  exists c, r. split; [done|]. apply Forall_cons in Hdig as [Hc _].
  split; intros ->; done.
Qed.

Lemma civil_from_days_spec (z : Z) :
  let '(y, m, d) := Reference.civil_from_days z in
  1 ≤ m ≤ 12 ∧ 1 ≤ d ≤ 31 ∧ Reference.days_from_civil y m d = z
  ∧ (-100000001 ≤ z ≤ 100000001 → -300000 < y < 300000).
Proof.
  unfold Reference.civil_from_days, Reference.days_from_civil. cbv zeta.
  set (era := (z + 719468) / 146097).
  set (doe := z + 719468 - era * 146097).
  assert (0 ≤ doe < 146097) as Hdoe by (subst doe era; Z.to_euclidean_division_equations; lia).
  set (yoe := (doe - doe / 1460 + doe / 36524 - doe / 146096) / 365).
  set (doy := doe - (365 * yoe + yoe / 4 - yoe / 100)).
  assert (0 ≤ yoe ≤ 399 ∧ 0 ≤ doy ≤ 365) as [Hyoe Hdoy]
    by (subst yoe doy; Z.to_euclidean_division_equations; lia).
  set (mp := (5 * doy + 2) / 153).
  assert (0 ≤ mp ≤ 11) as Hmp by (subst mp; Z.to_euclidean_division_equations; lia).
  assert (1 ≤ doy - (153 * mp + 2) / 5 + 1 ≤ 31) as Hd
    by (subst mp; Z.to_euclidean_division_equations; lia).
  destruct (mp <? 10) eqn:Emp; [apply Z.ltb_lt in Emp|apply Z.ltb_ge in Emp].
  - destruct (mp + 3 <=? 2) eqn:Em; [apply Z.leb_le in Em; lia|].
    replace (2 <? mp + 3) with true by (symmetry; apply Z.ltb_lt; lia).
    replace (yoe + era * 400 + 0) with (yoe + era * 400) by lia.
    replace ((yoe + era * 400) / 400) with era
      by (Z.to_euclidean_division_equations; lia).
    split_and!; [lia|lia|lia|lia| |].
    + replace (mp + 3 - 3) with mp by lia.
      replace (yoe + era * 400 - era * 400) with yoe by lia. subst doy doe. lia.
    + intros Hz. subst era. Z.to_euclidean_division_equations. lia.
  - replace (mp - 9 <=? 2) with true by (symmetry; apply Z.leb_le; lia).
    replace (2 <? mp - 9) with false by (symmetry; apply Z.ltb_ge; lia).
    replace (yoe + era * 400 + 1 - 1) with (yoe + era * 400) by lia.
    replace ((yoe + era * 400) / 400) with era
      by (Z.to_euclidean_division_equations; lia).
    split_and!; [lia|lia|lia|lia| |].
    + replace (mp - 9 + 9) with mp by lia.
      replace (yoe + era * 400 - era * 400) with yoe by lia. subst doy doe. lia.
    + intros Hz. subst era. Z.to_euclidean_division_equations. lia.
Qed.

Lemma expect_lit (c : N) (rest : jsstring) : Reference.expect c (c :: rest) = Some rest.
Proof. unfold Reference.expect. by rewrite N.eqb_refl. Qed.

Lemma parse_fields_pad (sign : Z) (width : nat) (year m d ms : Z) (s : jsstring) (t : Z) :
  (0 < width)%nat → 0 ≤ year < 10 ^ Z.of_nat width →
  1 ≤ m ≤ 12 → 1 ≤ d ≤ 31 → 0 ≤ ms < 86400000 →
  t = Reference.days_from_civil (sign * year) m d * 86400000 + ms →
  Z.abs t ≤ 8640000000000000 →
  Reference.Date_toISOString t = s →
  parse_fields sign width
    (Reference.pad width year
     ++ lit "-" ++ Reference.pad 2 m ++ lit "-" ++ Reference.pad 2 d
     ++ lit "T" ++ Reference.pad 2 (ms / 3600000) ++ lit ":"
     ++ Reference.pad 2 (ms / 60000 mod 60)
     ++ lit ":" ++ Reference.pad 2 (ms / 1000 mod 60) ++ lit "."
     ++ Reference.pad 3 (ms mod 1000) ++ lit "Z") s
  = Some t.
Proof.
  intros Hw Hyear Hm Hd Hms Ht Hrange Hs. unfold parse_fields.
  rewrite read_digits_pad by done. cbn [mbind option_bind].
  change (lit "-") with [45%N]. change (lit "T") with [84%N].
  change (lit ":") with [58%N]. change (lit ".") with [46%N]. change (lit "Z") with [90%N].
  cbn [app]. rewrite expect_lit. cbn [mbind option_bind].
  rewrite read_digits_pad by (lia || (change (10 ^ Z.of_nat 2) with 100; lia)).
  cbn [mbind option_bind]. rewrite expect_lit. cbn [mbind option_bind].
  rewrite read_digits_pad by (lia || (change (10 ^ Z.of_nat 2) with 100; lia)).
  cbn [mbind option_bind]. rewrite expect_lit. cbn [mbind option_bind].
  rewrite read_digits_pad
    by (lia || (change (10 ^ Z.of_nat 2) with 100; Z.to_euclidean_division_equations; lia)).
  cbn [mbind option_bind]. rewrite expect_lit. cbn [mbind option_bind].
  rewrite read_digits_pad
    by (lia || (change (10 ^ Z.of_nat 2) with 100; Z.to_euclidean_division_equations; lia)).
  cbn [mbind option_bind]. rewrite expect_lit. cbn [mbind option_bind].
  rewrite read_digits_pad
    by (lia || (change (10 ^ Z.of_nat 2) with 100; Z.to_euclidean_division_equations; lia)).
  cbn [mbind option_bind]. rewrite expect_lit. cbn [mbind option_bind].
  rewrite read_digits_pad
    by (lia || (change (10 ^ Z.of_nat 3) with 1000; Z.to_euclidean_division_equations; lia)).
  cbn [mbind option_bind]. rewrite expect_lit. cbn [mbind option_bind].
  replace (Reference.days_from_civil (sign * year) m d * 86400000
           + ms / 3600000 * 3600000 + ms / 60000 mod 60 * 60000
           + ms / 1000 mod 60 * 1000 + ms mod 1000) with t
    by (rewrite Ht; Z.to_euclidean_division_equations; lia).
  rewrite bool_decide_true by done.
  by rewrite (proj2 (Z.leb_le _ _) Hrange).
Qed.

(** The reference platform reads back the ISO text of every time value
    that a date can hold. *)
Lemma Reference_Date_roundtrip (t : Z) :
  Z.abs t ≤ 8640000000000000 →
  Reference.Date_parse (Reference.Date_toISOString t) = Some t.
Proof.
  intros Hrange.
  pose proof (civil_from_days_spec (t / 86400000)) as Hcivil.
  remember (Reference.Date_toISOString t) as s eqn:Hs.
  pose proof Hs as E. unfold Reference.Date_toISOString in E. symmetry in Hs.
  destruct (Reference.civil_from_days (t / 86400000)) as [[y m] d].
  destruct Hcivil as (Hm & Hd & Hdays & Hy).
  assert (-300000 < y < 300000) as Hyear
    by (apply Hy; Z.to_euclidean_division_equations; lia).
  assert (0 ≤ t mod 86400000 < 86400000) as Hms by (apply Z.mod_pos_bound; lia).
  assert (t = t / 86400000 * 86400000 + t mod 86400000) as Ht
    by (Z.to_euclidean_division_equations; lia).
  cbv zeta in E.
  destruct ((0 <=? y) && (y <=? 9999)) eqn:Ey.
  - apply andb_true_iff in Ey as [Ey1 Ey2]. apply Z.leb_le in Ey1, Ey2.
    destruct (pad_head 4 y) as (c & r & Epad & H43 & H45);
      [lia|change (10 ^ Z.of_nat 4) with 10000; lia|].
    transitivity (parse_fields 1 4 s s).
    + rewrite E, Epad. cbn [app]. by apply Date_parse_plain.
    + rewrite E at 1.
      apply parse_fields_pad;
        [lia|change (10 ^ Z.of_nat 4) with 10000; lia|done|done|done| |done|done].
      rewrite Z.mul_1_l, Hdays. exact Ht.
  - assert (y < 0 ∨ 9999 < y) as Hout.
    { apply andb_false_iff in Ey as [Ey|Ey]; [apply Z.leb_gt in Ey|apply Z.leb_gt in Ey]; lia. }
    destruct (y <? 0) eqn:Eneg; [apply Z.ltb_lt in Eneg|apply Z.ltb_ge in Eneg].
    + transitivity (parse_fields (-1) 6 (drop 1 s) s).
      * rewrite E. apply (proj2 (Date_parse_signed _)).
      * rewrite E at 1. change (lit "-") with [45%N] at 1. cbn [app drop].
        apply parse_fields_pad;
          [lia|change (10 ^ Z.of_nat 6) with 1000000; lia|done|done|done| |done|done].
        replace (-1 * Z.abs y) with y by lia. rewrite Hdays. exact Ht.
    + transitivity (parse_fields 1 6 (drop 1 s) s).
      * rewrite E. apply (proj1 (Date_parse_signed _)).
      * rewrite E at 1. change (lit "+") with [43%N] at 1. cbn [app drop].
        apply parse_fields_pad;
          [lia|change (10 ^ Z.of_nat 6) with 1000000; lia|done|done|done| |done|done].
        replace (1 * Z.abs y) with y by lia. rewrite Hdays. exact Ht.
Qed.

Local Close Scope Z_scope.

Local Open Scope N_scope.

(** ** JSON strings *)

Lemma parse_string_unfold (c : N) (r units : jsstring) :
  Reference.parse_string (c :: r) units
  = if c =? 34 then Some (units, r)
    else if c =? 92 then Reference.parse_string (92 :: r) units
    else if c <? 32 then None
    else Reference.parse_string r (units ++ [c]).
Proof.
  destruct c as [|p]; [reflexivity|].
  do 7 (destruct p as [p|p|]; try reflexivity).
Qed.

Lemma hex_value_digit (x : N) : x < 16 → Reference.hex_value (Reference.hex_digit x) = Some x.
Proof.
  intros Hx. assert (x ∈ [0;1;2;3;4;5;6;7;8;9;10;11;12;13;14;15]) as Hin.
  { rewrite !elem_of_cons. lia. }
  rewrite !elem_of_cons, elem_of_nil in Hin.
  repeat (destruct Hin as [->|Hin]; [reflexivity|]). done.
Qed.

Lemma parse_unicode_escape (c : N) (r units : jsstring) :
  c < 65536 →
  Reference.parse_string (Reference.unicode_escape c ++ r) units
  = Reference.parse_string r (units ++ [c]).
Proof.
  intros Hc. unfold Reference.unicode_escape. change (lit "\u") with [92; 117].
  cbn [app Reference.parse_string].
  rewrite !hex_value_digit by (apply N.mod_lt || apply N.Div0.div_lt_upper_bound; lia).
  cbn [mbind option_bind]. do 3 f_equal.
  pose proof (N.div_mod c 16 ltac:(lia)) as H1.
  pose proof (N.div_mod (c / 16) 16 ltac:(lia)) as H2.
  pose proof (N.div_mod (c / 256) 16 ltac:(lia)) as H3.
  assert (c / 16 / 16 = c / 256) as E2 by (by rewrite N.Div0.div_div).
  assert (c / 256 / 16 = c / 4096) as E3 by (by rewrite N.Div0.div_div).
  rewrite E2 in H2. rewrite E3 in H3. lia.
Qed.

Lemma parse_quote_units (s : jsstring) (after_high : bool) (rest units : jsstring) :
  Reference.parse_string (Reference.quote_units s after_high ++ 34 :: rest) units
  = Some (units ++ s, rest).
Proof.
  revert after_high units. induction s as [|c s IH]; intros after_high units.
  - cbn [Reference.quote_units app]. rewrite parse_string_unfold. cbn.
    by rewrite app_nil_r.
  - cbn [Reference.quote_units]. cbv zeta.
    generalize (Reference.is_high_surrogate c
                && match s with d :: _ => Reference.is_low_surrogate d | [] => false end).
    intros paired. rewrite <- app_assoc.
    assert (∀ e u, Reference.parse_string ([92; e] ++ Reference.quote_units s paired ++ 34 :: rest) units
                   = Some (units ++ u :: s, rest)
                   ↔ Reference.parse_string ([92; e] ++ Reference.quote_units s paired ++ 34 :: rest) units
                     = Reference.parse_string (Reference.quote_units s paired ++ 34 :: rest)
                         (units ++ [u])) as Hstep.
    { intros e u. rewrite IH, <- app_assoc. done. }
    destruct (c =? 8) eqn:E8.
    { apply N.eqb_eq in E8 as ->. apply Hstep. reflexivity. }
    destruct (c =? 9) eqn:E9.
    { apply N.eqb_eq in E9 as ->. apply Hstep. reflexivity. }
    destruct (c =? 10) eqn:E10.
    { apply N.eqb_eq in E10 as ->. apply Hstep. reflexivity. }
    destruct (c =? 12) eqn:E12.
    { apply N.eqb_eq in E12 as ->. apply Hstep. reflexivity. }
    destruct (c =? 13) eqn:E13.
    { apply N.eqb_eq in E13 as ->. apply Hstep. reflexivity. }
    destruct (c =? 34) eqn:E34.
    { apply N.eqb_eq in E34 as ->. apply Hstep. reflexivity. }
    destruct (c =? 92) eqn:E92.
    { apply N.eqb_eq in E92 as ->. apply Hstep. reflexivity. }
    destruct (c <? 32) eqn:E32.
    { apply N.ltb_lt in E32. rewrite parse_unicode_escape by lia.
      by rewrite IH, <- app_assoc. }
    assert (Reference.parse_string ([c] ++ Reference.quote_units s paired ++ 34 :: rest) units
            = Some (units ++ c :: s, rest)) as Hplain.
    { cbn [app]. rewrite parse_string_unfold, E34, E92, E32.
      by rewrite IH, <- app_assoc. }
    destruct (Reference.is_high_surrogate c && negb paired) eqn:Ehigh.
    { apply andb_true_iff in Ehigh as [Eh _]. unfold Reference.is_high_surrogate in Eh.
      apply andb_true_iff in Eh as [_ Eh]. apply N.leb_le in Eh.
      rewrite parse_unicode_escape by lia. by rewrite IH, <- app_assoc. }
    destruct (Reference.is_low_surrogate c && negb after_high) eqn:Elow.
    { apply andb_true_iff in Elow as [El _]. unfold Reference.is_low_surrogate in El.
      apply andb_true_iff in El as [_ El]. apply N.leb_le in El.
      rewrite parse_unicode_escape by lia. by rewrite IH, <- app_assoc. }
    exact Hplain.
Qed.

Lemma parse_QuoteJSONString (s rest : jsstring) :
  ∃ text, Reference.QuoteJSONString s = 34 :: text
          ∧ Reference.parse_string (text ++ rest) [] = Some (s, rest).
Proof.
  exists (Reference.quote_units s false ++ [34]). split; [done|].
  rewrite <- app_assoc. cbn [app]. by rewrite parse_quote_units.
Qed.

(** ** JSON numbers *)

Lemma is_digit_cases (c : N) :
  Reference.is_digit c = true →
  c ∈ [48; 49; 50; 51; 52; 53; 54; 55; 56; 57].
Proof.
  unfold Reference.is_digit. intros [H1 H2]%andb_true_iff.
  apply N.leb_le in H1, H2. rewrite !elem_of_cons. lia.
Qed.

Lemma parse_number_sign (c : N) (r : jsstring) :
  Reference.parse_number (45 :: r) = parse_unsigned true r
  ∧ (Reference.is_digit c = true →
     Reference.parse_number (c :: r) = parse_unsigned false (c :: r)).
Proof.
  split; [done|]. intros Hc%is_digit_cases.
  rewrite !elem_of_cons, elem_of_nil in Hc.
  repeat (destruct Hc as [->|Hc]; [reflexivity|]). done.
Qed.

Lemma span_digits_app (ds rest : jsstring) :
  Forall (λ c, Reference.is_digit c = true) ds →
  match rest with [] => True | c :: _ => Reference.is_digit c = false end →
  Reference.span_digits (ds ++ rest) = (ds, rest).
Proof.
  intros Hds Hrest. induction Hds as [|c ds Hc _ IH]; cbn [app Reference.span_digits].
  - destruct rest as [|c rest]; [done|]. cbn [Reference.span_digits]. by rewrite Hrest.
  - by rewrite Hc, IH.
Qed.

Lemma strip_zeros_digits (ds : jsstring) :
  Forall (λ c, Reference.is_digit c = true) ds →
  Forall (λ c, Reference.is_digit c = true) (Reference.strip_zeros ds).
Proof.
  induction 1 as [|c ds Hc Hds IH]; [done|].
  apply is_digit_cases in Hc as Hcases. rewrite !elem_of_cons, elem_of_nil in Hcases.
  destruct Hcases as [->|Hcases]; [exact IH|].
  repeat (destruct Hcases as [->|Hcases]; [by constructor|]). done.
Qed.

Lemma digits_of_Z_nonneg (z : Z) :
  (0 ≤ z)%Z → Reference.digits_of_Z z = Reference.digits_of_N (Z.abs_N z).
Proof.
  intros Hz. unfold Reference.digits_of_Z.
  by replace (z <? 0)%Z with false by (symmetry; apply Z.ltb_ge; lia).
Qed.

(** A numeral is digits without a zero in front, and then, maybe, a point
    and more digits. *)
Lemma numeral_shape (m : positive) (e : Z) :
  ∃ d ds fraction,
    Reference.numeral m e
    = (d :: ds) ++ (if fraction is [] then [] else 46 :: fraction)
    ∧ Forall (λ c, Reference.is_digit c = true) (d :: ds)
    ∧ (d = 48 → ds = [])
    ∧ Forall (λ c, Reference.is_digit c = true) fraction.
Proof.
  assert (∀ n, ∃ d ds, Reference.digits_of_N n = d :: ds
                       ∧ Forall (λ c, Reference.is_digit c = true) (d :: ds)
                       ∧ (d = 48 → ds = [])) as Hwhole.
  { intros n. pose proof (digits_of_N_digits n) as Hdig.
    destruct (digits_of_N_head n) as [[E _]|(c & ds & E & Hc & _)].
    - exists 48, []. by rewrite E in Hdig |- *.
    - exists c, ds. by rewrite E in Hdig |- *. }
  unfold Reference.numeral. destruct (0 <=? e)%Z eqn:Ee.
  - rewrite digits_of_Z_nonneg by (apply Z.leb_le in Ee; lia).
    destruct (Hwhole (Z.abs_N (Z.pos m * 2 ^ e))) as (d & ds & E & Hdig & Hzero).
    exists d, ds, []. rewrite E. by rewrite app_nil_r.
  - cbv zeta. apply Z.leb_gt in Ee.
    set (n := (Z.pos m * 5 ^ (- e))%Z).
    assert (0 < 10 ^ (- e))%Z as Hpow by (apply Z.pow_pos_nonneg; lia).
    assert (0 ≤ n)%Z as Hn by (subst n; apply Z.mul_nonneg_nonneg; [lia|apply Z.pow_nonneg; lia]).
    rewrite digits_of_Z_nonneg by (apply Z.div_pos; lia).
    destruct (Hwhole (Z.abs_N (n / 10 ^ (- e)))) as (d & ds & E & Hdig & Hzero).
    set (fraction := rev (Reference.strip_zeros (rev (Reference.pad (Z.to_nat (- e))
                                                    (n mod 10 ^ (- e)))))).
    exists d, ds, fraction. rewrite E. split_and!; [|done|done|].
    + change (lit ".") with [46]. by destruct fraction.
    + subst fraction. apply Forall_rev, strip_zeros_digits, Forall_rev.
      apply pad_spec; [lia|].
      rewrite Z2Nat.id by lia. apply Z.mod_pos_bound. lia.
Qed.

Lemma parse_unsigned_numeral (negative : bool) (d : N) (ds fraction rest : jsstring) :
  Forall (λ c, Reference.is_digit c = true) (d :: ds) →
  (d = 48 → ds = []) →
  Forall (λ c, Reference.is_digit c = true) fraction →
  terminated rest →
  parse_unsigned negative
    (((d :: ds) ++ (if fraction is [] then [] else 46 :: fraction)) ++ rest)
  = Some (Reference.decimal_to_float negative
            (Reference.number_of_digits ((d :: ds) ++ fraction))
            (0 - Z.of_nat (length fraction)), rest).
Proof.
  intros Hwhole Hzero Hfraction Hrest. unfold parse_unsigned.
  assert (match rest with [] => True | c :: _ => Reference.is_digit c = false end) as Hnd.
  { destruct rest as [|c rest]; [done|]. by destruct Hrest as [-> | ->]. }
  rewrite <- app_assoc. rewrite span_digits_app; [|done|].
  2:{ destruct fraction; [exact Hnd|done]. }
  replace ((d =? 48) && bool_decide (ds ≠ [])) with false.
  2:{ symmetry. destruct (d =? 48) eqn:E; [|done]. apply N.eqb_eq in E.
      rewrite (Hzero E). by rewrite bool_decide_false by auto. }
  assert (match rest with
            | c :: r =>
                if (c =? 101) || (c =? 69) then
                  let '(sign, r1) :=
                    match r with
                    | 43 :: r' => (1%Z, r')
                    | 45 :: r' => ((-1)%Z, r')
                    | _ => (1%Z, r)
                    end in
                  let '(ds, r2) := Reference.span_digits r1 in
                  if bool_decide (ds = []) then None
                  else Some ((sign * Reference.number_of_digits ds)%Z, r2)
                else Some (0%Z, rest)
            | [] => Some (0%Z, rest)
          end = Some (0%Z, rest)) as Hexp.
  { destruct rest as [|c r]; [done|]. by destruct Hrest as [-> | ->]. }
  destruct fraction as [|f fs].
  - cbn [app].
    replace (match rest with 46 :: r => _ | _ => Some ([], rest) end)
      with (Some (([] : jsstring), rest)).
    2:{ destruct rest as [|c r]; [done|]. by destruct Hrest as [-> | ->]. }
    cbn [mbind option_bind]. rewrite Hexp. cbn [mbind option_bind]. done.
  - cbn [app]. change (f :: fs ++ rest) with ((f :: fs) ++ rest).
    rewrite span_digits_app by done.
    rewrite bool_decide_false by done.
    cbn [mbind option_bind]. rewrite Hexp. cbn [mbind option_bind]. done.
Qed.

Lemma is_finite_Prim2SF (x : float) :
  PrimFloat.is_finite x
  = match Prim2SF x with
    | S754_zero _ | S754_finite _ _ _ => true
    | S754_infinity _ | S754_nan => false
    end.
Proof.
  unfold PrimFloat.is_finite, PrimFloat.is_nan, PrimFloat.is_infinity.
  rewrite !FloatAxioms.eqb_spec, FloatAxioms.abs_spec.
  change (Prim2SF infinity) with (S754_infinity false).
  destruct (Prim2SF x) as [s|s| |s m e]; [by destruct s|by destruct s|done|].
  cbn [SFabs SFeqb SFcompare].
  rewrite Z.compare_refl, Pos.compare_cont_refl. by destruct s.
Qed.

Lemma parse_value_dispatch_number (fuel : nat) (c : N) (r : jsstring) :
  c = 45 ∨ Reference.is_digit c = true →
  Reference.parse_value (S fuel) (c :: r)
  = '(x, r') ← Reference.parse_number (c :: r); Some (VNumber x, r').
Proof.
  intros [->|Hc%is_digit_cases]; [reflexivity|].
  rewrite !elem_of_cons, elem_of_nil in Hc.
  repeat (destruct Hc as [->|Hc]; [reflexivity|]). done.
Qed.

Lemma parse_value_number (x : float) :
  ∃ v', similar (@json_image Reference.platform (VNumber x)) v'
        ∧ (∃ c t, Reference.number_to_json x = c :: t
                  ∧ (c = 110 ∨ c = 45 ∨ Reference.is_digit c = true))
        ∧ ∀ fuel rest,
            terminated rest →
            Reference.parse_value (S fuel) (Reference.number_to_json x ++ rest)
            = Some (v', rest).
Proof.
  unfold json_image. cbn [json_property default].
  rewrite is_finite_Prim2SF. unfold Reference.number_to_json.
  destruct (Prim2SF x) as [s|s| |negative m e].
  - eexists (VNumber _). split_and!; [constructor|by exists 48, []; auto|].
    intros fuel rest Hrest.
    change (lit "0" ++ rest) with (48 :: rest).
    rewrite parse_value_dispatch_number by (by right).
    rewrite (proj2 (parse_number_sign 48 rest)) by done.
    pose proof (parse_unsigned_numeral false 48 [] [] rest
                  ltac:(by repeat constructor) ltac:(done) ltac:(done) Hrest) as H.
    cbn [app] in H. by rewrite H.
  - exists VNull. split_and!; [constructor|by exists 110, (lit "ull"); auto|]. done.
  - exists VNull. split_and!; [constructor|by exists 110, (lit "ull"); auto|]. done.
  - destruct (numeral_shape m e) as (d & ds & fraction & -> & Hwhole & Hzero & Hfraction).
    apply Forall_cons in Hwhole as Hd. destruct Hd as [Hd _].
    eexists (VNumber _). split_and!; [constructor| |].
    + destruct negative; [exists 45|exists d]; eexists; (split; [reflexivity|auto]).
    + intros fuel rest Hrest. destruct negative.
      * change (lit "-") with [45]. cbn [app].
        rewrite parse_value_dispatch_number by (by left).
        rewrite (proj1 (parse_number_sign 45 _)).
        pose proof (parse_unsigned_numeral true d ds fraction rest
                      Hwhole Hzero Hfraction Hrest) as H.
        cbn [app] in H. by rewrite H.
      * cbn [app]. rewrite parse_value_dispatch_number by (by right).
        rewrite (proj2 (parse_number_sign d _)) by done.
        pose proof (parse_unsigned_numeral false d ds fraction rest
                      Hwhole Hzero Hfraction Hrest) as H.
        cbn [app] in H. by rewrite H.
Qed.

(** ** JSON values *)

Lemma value_ind' (P : value → Prop) :
  P VUndefined → P VNull → (∀ b, P (VBoolean b)) → (∀ x, P (VNumber x)) →
  (∀ s, P (VString s)) → (∀ t, P (VDate t)) →
  (∀ items, Forall P items → P (VArray items)) →
  (∀ properties, Forall (λ p, P p.2) properties → P (VObject properties)) →
  ∀ v, P v.
Proof.
  intros Hu Hn Hb Hx Hs Hd Ha Ho. fix IH 1.
  intros [| |b|x|s|t|items|properties];
    [exact Hu|exact Hn|apply Hb|apply Hx|apply Hs|apply Hd| |].
  - apply Ha. induction items as [|x items IHitems]; constructor; [apply IH|exact IHitems].
  - apply Ho. induction properties as [|[k x] properties IHp]; constructor;
      [apply IH|exact IHp].
Qed.

Lemma value_start_digit (c : N) : Reference.is_digit c = true → value_start c.
Proof.
  intros Hc%is_digit_cases. unfold value_start.
  rewrite !elem_of_cons, elem_of_nil in Hc. rewrite !elem_of_cons.
  repeat (destruct Hc as [->|Hc]; [repeat (first [left; reflexivity|right])|]). done.
Qed.

Lemma skip_space_spaces (ws s : jsstring) :
  Forall (λ c, Reference.is_json_space c = true) ws →
  Reference.skip_space (ws ++ s) = Reference.skip_space s.
Proof. induction 1 as [|c ws Hc _ IH]; [done|]. cbn [app Reference.skip_space]. by rewrite Hc. Qed.

Lemma skip_space_start (c : N) (s : jsstring) :
  value_start c → Reference.skip_space (c :: s) = c :: s.
Proof.
  unfold value_start. rewrite !elem_of_cons, elem_of_nil. intros H.
  repeat (destruct H as [->|H]; [reflexivity|]). done.
Qed.

Lemma parse_value_skip (fuel : nat) (ws s : jsstring) :
  Forall (λ c, Reference.is_json_space c = true) ws →
  Reference.parse_value fuel (ws ++ s) = Reference.parse_value fuel s.
Proof. intros Hws. destruct fuel; [done|]. cbn [Reference.parse_value]. by rewrite skip_space_spaces. Qed.

Lemma parse_elements_unfold (fuel : nat) (s : jsstring) (items : list value) :
  Reference.parse_elements (S fuel) s items
  = '(v, r) ← Reference.parse_value fuel s;
    match Reference.skip_space r with
    | 44 :: r' => Reference.parse_elements fuel r' (items ++ [v])
    | 93 :: r' => Some (VArray (items ++ [v]), r')
    | _ => None
    end.
Proof. done. Qed.

Lemma parse_members_unfold (fuel : nat) (ws r : jsstring) (properties : list (jsstring * value)) :
  Forall (λ c, Reference.is_json_space c = true) ws →
  Reference.parse_members (S fuel) (ws ++ 34 :: r) properties
  = '(k, r1) ← Reference.parse_string r [];
    r2 ← Reference.expect 58 (Reference.skip_space r1);
    '(v, r3) ← Reference.parse_value fuel r2;
    match Reference.skip_space r3 with
    | 44 :: r4 => Reference.parse_members fuel r4 (set_property properties k v)
    | 125 :: r4 => Some (VObject (set_property properties k v), r4)
    | _ => None
    end.
Proof. intros Hws. cbn [Reference.parse_members]. by rewrite skip_space_spaces. Qed.

Lemma parse_value_array (fuel : nat) (ws : jsstring) (c : N) (s : jsstring) :
  Forall (λ c, Reference.is_json_space c = true) ws →
  value_start c →
  Reference.parse_value (S fuel) (91 :: ws ++ c :: s)
  = Reference.parse_elements fuel (ws ++ c :: s) [].
Proof.
  intros Hws Hc. cbn [Reference.parse_value]. cbn [Reference.skip_space].
  change (Reference.is_json_space 91) with false. cbn match.
  rewrite skip_space_spaces, skip_space_start by done.
  unfold value_start in Hc. rewrite !elem_of_cons, elem_of_nil in Hc.
  repeat (destruct Hc as [->|Hc]; [reflexivity|]). done.
Qed.

Lemma parse_value_object (fuel : nat) (ws s : jsstring) :
  Forall (λ c, Reference.is_json_space c = true) ws →
  Reference.parse_value (S fuel) (123 :: ws ++ 34 :: s)
  = Reference.parse_members fuel (ws ++ 34 :: s) [].
Proof.
  intros Hws. cbn [Reference.parse_value]. cbn [Reference.skip_space].
  change (Reference.is_json_space 123) with false. cbn match.
  by rewrite skip_space_spaces.
Qed.

Lemma set_property_fresh (properties : list (jsstring * value)) (k : jsstring) (v : value) :
  k ∉ map fst properties → set_property properties k v = properties ++ [(k, v)].
Proof.
  induction properties as [|[k' v'] properties IH]; [done|].
  cbn [map fst]. intros [Hne Hk]%not_elem_of_cons. cbn [set_property app].
  rewrite bool_decide_false by done. by rewrite IH.
Qed.

Lemma join_cons (separator part : jsstring) (parts : list jsstring) :
  Reference.join separator (part :: parts)
  = part ++ (if parts is [] then [] else separator ++ Reference.join separator parts).
Proof. destruct parts; [by rewrite app_nil_r|done]. Qed.

Lemma fuel_of_join (separator : jsstring) (parts : list jsstring) :
  separator ≠ [] →
  (fuel_of parts ≤ length (Reference.join separator parts) + 1)%nat.
Proof.
  intros Hsep. induction parts as [|part parts IH]; [cbn; lia|].
  rewrite join_cons. cbn [fuel_of foldr]. fold (fuel_of parts).
  destruct parts as [|part' parts]; [cbn; rewrite app_nil_r; lia|].
  rewrite !length_app. destruct separator; [done|]. cbn [length] in *. lia.
Qed.

Lemma spaces_line (indent : jsstring) :
  Forall (λ c, c = 32) indent →
  Forall (λ c, Reference.is_json_space c = true) (10 :: indent).
Proof. intros H. constructor; [done|]. eapply Forall_impl; [exact H|]. by intros c ->. Qed.

Lemma skip_space_line (stepback rest : jsstring) (c : N) :
  Forall (λ c, c = 32) stepback → Reference.is_json_space c = false →
  Reference.skip_space (10 :: stepback ++ c :: rest) = c :: rest.
Proof.
  intros Hstepback Hc. change (10 :: stepback ++ c :: rest) with ((10 :: stepback) ++ c :: rest).
  rewrite skip_space_spaces by (by apply spaces_line).
  cbn [Reference.skip_space]. by rewrite Hc.
Qed.

Lemma parse_elements_join (parts : list jsstring) (vs : list value) :
  Forall2 parses parts vs → parts ≠ [] →
  ∀ (indent stepback : jsstring) (items : list value) (fuel : nat) (rest : jsstring),
    Forall (λ c, c = 32) indent → Forall (λ c, c = 32) stepback →
    (fuel_of parts ≤ fuel)%nat →
    Reference.parse_elements fuel
      (10 :: indent ++ Reference.join (44 :: 10 :: indent) parts
       ++ 10 :: stepback ++ 93 :: rest) items
    = Some (VArray (items ++ vs), rest).
Proof.
  induction 1 as [|part v parts vs [_ Hpart] Hparts IH]; [done|]. intros _.
  intros indent stepback items fuel rest Hindent Hstepback Hfuel.
  cbn [fuel_of foldr] in Hfuel. fold (fuel_of parts) in Hfuel.
  destruct fuel as [|fuel]; [lia|]. rewrite parse_elements_unfold.
  change (10 :: indent ++ ?x) with ((10 :: indent) ++ x).
  rewrite parse_value_skip by (by apply spaces_line).
  rewrite join_cons, <- app_assoc.
  rewrite Hpart; [|lia|destruct parts; cbn; auto].
  cbn [mbind option_bind]. destruct Hparts as [|part' v' parts vs Hpart' Hparts].
  - cbn [app]. by rewrite skip_space_line.
  - cbn [app Reference.skip_space]. change (Reference.is_json_space 44) with false.
    cbn match. rewrite <- app_assoc.
    rewrite (IH ltac:(done) indent stepback) by (done || lia).
    by rewrite <- app_assoc.
Qed.

Lemma parse_members_join (members : list (jsstring * jsstring)) (vs : list value) :
  Forall2 (λ member v, parses member.2 v) members vs → members ≠ [] →
  ∀ (indent stepback : jsstring) (properties : list (jsstring * value)) (fuel : nat)
    (rest : jsstring),
    Forall (λ c, c = 32) indent → Forall (λ c, c = 32) stepback →
    NoDup (map fst properties ++ map fst members) →
    (fuel_of (map snd members) ≤ fuel)%nat →
    Reference.parse_members fuel
      (10 :: indent ++ Reference.join (44 :: 10 :: indent) (map member_text members)
       ++ 10 :: stepback ++ 125 :: rest) properties
    = Some (VObject (properties ++ zip (map fst members) vs), rest).
Proof.
  induction 1 as [|[k text] v members vs [_ Hpart] Hmembers IH]; [done|]. intros _.
  intros indent stepback properties fuel rest Hindent Hstepback Hkeys Hfuel.
  cbn [map snd fuel_of foldr] in Hfuel. fold (fuel_of (map snd members)) in Hfuel.
  destruct fuel as [|fuel]; [lia|].
  cbn [map]. rewrite join_cons. unfold member_text at 1. cbn [fst snd].
  change (lit ": ") with [58; 32]. rewrite <- !app_assoc. cbn [app].
  match goal with |- context [text ++ ?f] => set (following := f) end.
  destruct (parse_QuoteJSONString k (58 :: 32 :: text ++ following))
    as (quoted & Equoted & Hkey).
  assert (terminated following) as Hfollowing.
  { subst following. destruct (map member_text members); cbn; auto. }
  rewrite Equoted. cbn [app].
  change (10 :: indent ++ 34 :: ?x) with ((10 :: indent) ++ 34 :: x).
  rewrite parse_members_unfold by (by apply spaces_line).
  rewrite Hkey. cbn [mbind option_bind].
  cbn [Reference.skip_space]. change (Reference.is_json_space 58) with false.
  cbn match. rewrite expect_lit. cbn [mbind option_bind].
  rewrite (parse_value_skip _ [32] (text ++ following)) by (by repeat constructor).
  cbn [snd] in Hpart. rewrite Hpart; [|lia|done].
  cbn [mbind option_bind].
  assert (k ∉ map fst properties) as Hfresh.
  { cbn [map fst] in Hkeys. apply NoDup_app in Hkeys as (_ & Hdisjoint & Hk).
    intros Hin. apply (Hdisjoint _ Hin). by left. }
  rewrite set_property_fresh by done. subst following.
  destruct Hmembers as [|member' v' members vs Hpart' Hmembers].
  - cbn [map app zip zip_with]. by rewrite skip_space_line.
  - cbn [map app Reference.skip_space]. change (Reference.is_json_space 44) with false.
    cbn match. rewrite <- app_assoc.
    change (member_text member' :: map member_text members)
      with (map member_text (member' :: members)).
    rewrite (IH ltac:(done) indent stepback); [|done|done| |lia].
    + cbn [zip zip_with map]. by rewrite <- app_assoc.
    + rewrite map_app. cbn [map fst]. rewrite <- app_assoc. exact Hkeys.
Qed.

Lemma well_formed_array (items : list value) :
  well_formed (VArray items) ↔ Forall well_formed items.
Proof.
  cbn [well_formed]. induction items as [|x items IH]; cbn [fold_right].
  - split; [by constructor|done].
  - rewrite Forall_cons, IH. done.
Qed.

Lemma well_formed_object (properties : list (jsstring * value)) :
  well_formed (VObject properties)
  ↔ NoDup (map fst properties) ∧ Forall (λ p, well_formed p.2) properties.
Proof.
  cbn [well_formed]. apply and_iff_compat_l.
  induction properties as [|p properties IH]; cbn [fold_right].
  - split; [by constructor|done].
  - rewrite Forall_cons, IH. done.
Qed.

Lemma parses_literal (text : jsstring) (v' : value) (c : N) (t : jsstring) :
  text = c :: t → value_start c →
  (∀ fuel rest, terminated rest →
                Reference.parse_value (S fuel) (text ++ rest) = Some (v', rest)) →
  parses text v'.
Proof.
  intros -> Hc Hparse. split; [by exists c, t|].
  intros [|fuel] rest Hfuel Hrest; [cbn in Hfuel; lia|]. by apply Hparse.
Qed.

Lemma parses_string (s : jsstring) : parses (Reference.QuoteJSONString s) (VString s).
Proof.
  destruct (parse_QuoteJSONString s []) as (quoted & E & _).
  apply (parses_literal _ _ 34 quoted); [done|set_solver|].
  intros fuel rest _. destruct (parse_QuoteJSONString s rest) as (quoted' & E' & Hparse).
  rewrite E' in E |- *. injection E as <-. cbn [app Reference.parse_value Reference.skip_space].
  change (Reference.is_json_space 34) with false. cbn match. by rewrite Hparse.
Qed.

Lemma similar_lookup (images parsed : list (jsstring * value)) :
  Forall2 (λ image p, image.1 = p.1 ∧ similar image.2 p.2) images parsed →
  ∀ k, option_Forall2 similar (lookup_property k images) (lookup_property k parsed).
Proof.
  induction 1 as [|[k1 x] [k2 y] images parsed [Hk Hxy] _ IH]; intros k; [constructor|].
  cbn [fst snd] in *. subst k2. cbn [lookup_property].
  case_bool_decide; [by constructor|apply IH].
Qed.

Lemma fst_zip_keys {A B} (keys : list A) (vs : list B) :
  length keys = length vs → map fst (zip keys vs) = keys.
Proof.
  revert vs. induction keys as [|k keys IH]; intros [|v vs] Hlen; try done.
  cbn. f_equal. apply IH. by injection Hlen.
Qed.

Lemma parse_value_array' (fuel : nat) (ws s : jsstring) :
  Forall (λ c, Reference.is_json_space c = true) ws →
  (∃ c t, s = c :: t ∧ value_start c) →
  Reference.parse_value (S fuel) (91 :: ws ++ s) = Reference.parse_elements fuel (ws ++ s) [].
Proof. intros Hws (c & t & -> & Hc). by apply parse_value_array. Qed.

Lemma parse_value_object' (fuel : nat) (ws s : jsstring) :
  Forall (λ c, Reference.is_json_space c = true) ws →
  (∃ t, s = 34 :: t) →
  Reference.parse_value (S fuel) (123 :: ws ++ s) = Reference.parse_members fuel (ws ++ s) [].
Proof. intros Hws (t & ->). by apply parse_value_object. Qed.

Lemma serialize_None (stepback : jsstring) (v : value) :
  Reference.serialize stepback v = None → v = VUndefined.
Proof. destruct v as [| |b|x|s|[t|]|items|properties]; done. Qed.

Lemma json_property_undefined : @json_property Reference.platform VUndefined = None.
Proof. done. Qed.

Lemma json_property_Some (stepback : jsstring) (v : value) (text : jsstring) :
  Reference.serialize stepback v = Some text →
  @json_property Reference.platform v = Some (@json_image Reference.platform v).
Proof. destruct v as [| |b|x|s|[t|]|items|properties]; done. Qed.

(** The parser reads the text that [serialize] writes for a value, at any
    depth of indentation, as a value like what JSON keeps of it. *)
Lemma parse_serialize (v : value) :
  ∀ stepback text,
    Forall (λ c, c = 32) stepback → well_formed v →
    Reference.serialize stepback v = Some text →
    ∃ v', similar (@json_image Reference.platform v) v' ∧ well_formed v' ∧ parses text v'.
Proof.
  induction v as [| |b|x|s|t|items IH|properties IH] using value_ind';
    intros stepback text Hstepback Hwf Hser; cbn [Reference.serialize] in Hser.
  - done.
  - injection Hser as <-. exists VNull. split_and!; [constructor|done|].
    apply (parses_literal _ _ 110 (lit "ull")); [done|set_solver|done].
  - injection Hser as <-. exists (VBoolean b). split_and!; [constructor|done|].
    destruct b.
    + apply (parses_literal _ _ 116 (lit "rue")); [done|set_solver|done].
    + apply (parses_literal _ _ 102 (lit "alse")); [done|set_solver|done].
  - injection Hser as <-.
    destruct (parse_value_number x) as (v' & Hsim & (c & r & E & Hc) & Hparse).
    exists v'. split_and!; [done| |].
    + unfold json_image in Hsim. cbn [json_property default] in Hsim.
      destruct (PrimFloat.is_finite x); by inversion Hsim.
    + apply (parses_literal _ _ c r); [done| |done].
      destruct Hc as [->|[->|Hc]]; [set_solver|set_solver|by apply value_start_digit].
  - injection Hser as <-. exists (VString s). split_and!; [constructor|done|].
    apply parses_string.
  - destruct t as [t|]; injection Hser as <-.
    + exists (VString (Reference.Date_toISOString t)). split_and!; [constructor|done|].
      apply parses_string.
    + exists VNull. split_and!; [constructor|done|].
      apply (parses_literal _ _ 110 (lit "ull")); [done|set_solver|done].
  - apply (inj Some) in Hser. subst text. apply well_formed_array in Hwf.
    set (indent := stepback ++ lit "  ").
    assert (Forall (λ c, c = 32) indent) as Hindent.
    { apply Forall_app. split; [done|]. by repeat constructor. }
    set (parts := map (λ x, default (lit "null") (Reference.serialize indent x)) items).
    assert (∃ vs, Forall2 parses parts vs
                  ∧ Forall2 similar (map (@json_image Reference.platform) items) vs
                  ∧ Forall well_formed vs) as (vs & Hparts & Hsim & Hwfs).
    { subst parts. clear -IH Hwf Hindent.
      induction items as [|x items IHitems]; [by exists []|].
      apply Forall_cons in IH as [IHx IH], Hwf as [Hwfx Hwf].
      destruct (IHitems IH Hwf) as (vs & Hparts & Hsim & Hwfs).
      cbn [map]. destruct (Reference.serialize indent x) as [text|] eqn:E.
      - destruct (IHx indent text Hindent Hwfx E) as (v' & Hsimx & Hwfx' & Hparse).
        exists (v' :: vs). split_and!; by constructor.
      - apply serialize_None in E as ->. exists (VNull :: vs).
        split_and!; constructor; try done; [|constructor].
        apply (parses_literal _ _ 110 (lit "ull")); [done|set_solver|done]. }
    exists (VArray vs). split_and!.
    + unfold json_image at 1. cbn [json_property default]. by constructor.
    + by apply well_formed_array.
    + unfold Reference.wrap. fold indent. fold parts.
      destruct Hparts as [|part v parts' vs' Hpart Hparts'].
      * apply (parses_literal _ _ 91 [93]); [done|set_solver|done].
      * change (lit "[") with [91]. change (lit "]") with [93]. change (lit ",") with [44].
        cbn [app]. split; [eexists 91, _; split; [reflexivity|set_solver]|].
        intros fuel rest Hfuel Hrest.
        destruct fuel as [|fuel]; [cbn in Hfuel; lia|].
        cbn [app]. rewrite <- !app_assoc. cbn [app].
        change (10 :: indent ++ ?x) with ((10 :: indent) ++ x).
        rewrite parse_value_array'; [|by apply spaces_line|].
        2:{ rewrite join_cons, <- app_assoc. destruct Hpart as [(c & t & -> & Hc) _].
            eexists c, _. split; [reflexivity|done]. }
        cbn [app]. rewrite <- (app_assoc stepback). cbn [app].
        rewrite (parse_elements_join (part :: parts') (v :: vs')); try done.
        -- by constructor.
        -- pose proof (fuel_of_join (44 :: 10 :: indent) (part :: parts') ltac:(done)) as Hjoin.
           cbn [length] in Hfuel. rewrite !length_app in Hfuel. cbn [length] in Hfuel. lia.
  - apply (inj Some) in Hser. subst text. apply well_formed_object in Hwf as [Hkeys Hwf].
    set (indent := stepback ++ lit "  ").
    assert (Forall (λ c, c = 32) indent) as Hindent.
    { apply Forall_app. split; [done|]. by repeat constructor. }
    assert (∃ members vs,
              omap (λ p, (λ text, Reference.QuoteJSONString p.1 ++ lit ": " ++ text)
                           <$> Reference.serialize indent p.2) properties
              = map member_text members
              ∧ Forall2 (λ member v, parses member.2 v) members vs
              ∧ Forall2 (λ image p, image.1 = p.1 ∧ similar image.2 p.2)
                  (omap (λ p, (λ x, (p.1, x)) <$> @json_property Reference.platform p.2)
                     properties)
                  (zip (map fst members) vs)
              ∧ Forall well_formed vs
              ∧ (∀ k, k ∈ map fst members → k ∈ map fst properties)
              ∧ NoDup (map fst members))
      as (members & vs & Emembers & Hparts & Hsim & Hwfs & _ & Hmkeys).
    { clear -IH Hwf Hkeys Hindent.
      induction properties as [|[k x] properties IHp].
      { exists [], []. split_and!; try done; constructor. }
      apply Forall_cons in IH as [IHx IH], Hwf as [Hwfx Hwf].
      cbn [map fst] in Hkeys. apply NoDup_cons in Hkeys as [Hk Hkeys].
      destruct (IHp IH Hkeys Hwf) as (members & vs & E & Hparts & Hsim & Hwfs & Hsub & Hnd).
      cbn [omap list_omap fst snd]. cbn [fst snd] in IHx, Hwfx.
      destruct (Reference.serialize indent x) as [text|] eqn:Ex.
      - destruct (IHx indent text Hindent Hwfx Ex) as (v' & Hsimx & Hwfx' & Hparse).
        rewrite (json_property_Some _ _ _ Ex). cbn [fmap option_fmap option_map].
        exists ((k, text) :: members), (v' :: vs).
        split_and!.
        + cbn [map]. by rewrite <- E.
        + by constructor.
        + cbn [map fst zip zip_with]. by constructor.
        + by constructor.
        + cbn [map fst]. intros k' [->|Hk']%elem_of_cons; [by left|right; by apply Hsub].
        + cbn [map fst]. apply NoDup_cons. split; [|done].
          intros Hin. by apply Hk, Hsub.
      - apply serialize_None in Ex as ->. rewrite json_property_undefined.
        cbn [fmap option_fmap option_map].
        exists members, vs. split_and!; try done.
        intros k' Hk'. right. by apply Hsub. }
    exists (VObject (zip (map fst members) vs)).
    assert (length (map fst members) = length vs) as Hlen.
    { rewrite length_map. by eapply Forall2_length. }
    split_and!.
    + unfold json_image at 1. cbn [json_property default]. constructor.
      by apply similar_lookup.
    + apply well_formed_object. rewrite fst_zip_keys by done. split; [done|].
      clear -Hwfs. revert vs Hwfs.
      induction (map fst members) as [|k keys IHk]; intros vs Hwfs; [constructor|].
      destruct Hwfs as [|v vs Hv Hvs]; [constructor|].
      cbn [zip zip_with]. constructor; [done|by apply IHk].
    + unfold Reference.wrap. fold indent. rewrite Emembers.
      destruct Hparts as [|member v members' vs' Hpart Hparts'].
      * apply (parses_literal _ _ 123 [125]); [done|set_solver|done].
      * change (lit "{") with [123]. change (lit "}") with [125]. change (lit ",") with [44].
        cbn [app map]. split; [eexists 123, _; split; [reflexivity|set_solver]|].
        intros fuel rest Hfuel Hrest.
        destruct fuel as [|fuel]; [cbn in Hfuel; lia|].
        cbn [app]. rewrite <- !app_assoc. cbn [app].
        change (10 :: indent ++ ?x) with ((10 :: indent) ++ x).
        rewrite parse_value_object'; [|by apply spaces_line|].
        2:{ rewrite join_cons, <- app_assoc. unfold member_text at 1, Reference.QuoteJSONString.
            cbn [app]. eexists. reflexivity. }
        cbn [app]. rewrite <- (app_assoc stepback). cbn [app].
        change (member_text member :: map member_text members')
          with (map member_text (member :: members')).
        rewrite (parse_members_join (member :: members') (v :: vs')); try done.
        -- by constructor.
        -- pose proof (fuel_of_join (44 :: 10 :: indent)
                         (map member_text (member :: members')) ltac:(done)) as Hjoin.
           assert (fuel_of (map snd (member :: members'))
                   ≤ fuel_of (map member_text (member :: members')))%nat as Hmono.
           { clear. induction (member :: members') as [|m ms IHm]; [done|].
             cbn [map fuel_of foldr]. fold (fuel_of (map snd ms)).
             fold (fuel_of (map member_text ms)).
             unfold member_text at 1. rewrite !length_app. lia. }
           cbn [length] in Hfuel. rewrite !length_app in Hfuel. cbn [length] in Hfuel.
           change (map member_text (member :: members'))
             with (member_text member :: map member_text members') in Hjoin, Hmono.
           lia.
Qed.

Local Close Scope N_scope.

(** ** The round trip of export and import *)

Lemma similar_string_inv (s : jsstring) (y : value) : similar (VString s) y → y = VString s.
Proof. by inversion 1. Qed.

Lemma similar_array_inv (items : list value) (y : value) :
  similar (VArray items) y → ∃ items', y = VArray items' ∧ Forall2 similar items items'.
Proof. inversion 1; eauto. Qed.

Lemma similar_object_inv (properties : list (jsstring * value)) (y : value) :
  similar (VObject properties) y →
  ∃ properties',
    y = VObject properties'
    ∧ ∀ k, option_Forall2 similar (lookup_property k properties)
             (lookup_property k properties').
Proof. inversion 1; eauto. Qed.

Lemma option_Forall2_Some {A B} (R : A → B → Prop) (x : A) (r : option B) :
  option_Forall2 R (Some x) r → ∃ y, r = Some y ∧ R x y.
Proof. inversion 1; eauto. Qed.

Lemma lookup_property_None (k : jsstring) (properties : list (jsstring * value)) :
  k ∉ map fst properties → lookup_property k properties = None.
Proof.
  induction properties as [|[k' x] properties IH]; [done|].
  cbn [map fst lookup_property]. intros Hk%not_elem_of_cons.
  rewrite bool_decide_false by (intros ->; by destruct Hk). apply IH, Hk.
Qed.

Lemma lookup_property_well_formed (k : jsstring) (properties : list (jsstring * value))
    (x : value) :
  Forall (λ p, well_formed p.2) properties →
  lookup_property k properties = Some x → well_formed x.
Proof.
  induction 1 as [|[k' x'] properties Hx _ IH]; [done|].
  cbn [lookup_property]. case_bool_decide; [by intros [= <-]|exact IH].
Qed.

Lemma elem_of_set_property_keys (properties : list (jsstring * value)) (k k' : jsstring)
    (v : value) :
  k' ∈ map fst (set_property properties k v) ↔ k' = k ∨ k' ∈ map fst properties.
Proof.
  induction properties as [|[k0 v0] properties IH]; cbn [set_property map fst].
  - rewrite elem_of_cons. done.
  - case_bool_decide as Hk; cbn [map fst]; rewrite !elem_of_cons.
    + subst k0. tauto.
    + rewrite IH. tauto.
Qed.

Lemma set_property_NoDup (properties : list (jsstring * value)) (k : jsstring) (v : value) :
  NoDup (map fst properties) → NoDup (map fst (set_property properties k v)).
Proof.
  induction properties as [|[k0 v0] properties IH]; cbn [set_property map fst].
  - intros _. apply NoDup_singleton.
  - intros [Hk0 Hnd]%NoDup_cons. case_bool_decide as Hk; cbn [map fst].
    + subst k0. apply NoDup_cons. by split.
    + apply NoDup_cons. split; [|by apply IH].
      rewrite elem_of_set_property_keys. intros [->|Hin]; done.
Qed.

Lemma set_property_Forall (P : jsstring * value → Prop)
    (properties : list (jsstring * value)) (k : jsstring) (v : value) :
  Forall P properties → P (k, v) → Forall P (set_property properties k v).
Proof.
  intros Hall Hkv. induction Hall as [|[k0 v0] properties Hp Hps IH]; cbn [set_property].
  - by constructor.
  - case_bool_decide; by constructor.
Qed.

Lemma set_property_well_formed (properties : list (jsstring * value)) (k : jsstring)
    (v : value) :
  well_formed (VObject properties) → well_formed v →
  well_formed (VObject (set_property properties k v)).
Proof.
  rewrite !well_formed_object. intros [Hnd Hall] Hv. split.
  - by apply set_property_NoDup.
  - by apply set_property_Forall.
Qed.

Lemma string_field_Get (o : value) (k s : jsstring) :
  string_field o k = Some s ↔ Get o k = Ok (VString s).
Proof.
  unfold string_field. split.
  - destruct (Get o k) as [[]|]; try done. by intros [= ->].
  - by intros ->.
Qed.

Lemma date_field_Get (o : value) (k : jsstring) (d : Date) :
  date_field o k = Some d ↔ Get o k = Ok (VDate d).
Proof.
  unfold date_field. split.
  - destruct (Get o k) as [[]|]; try done. by intros [= ->].
  - by intros ->.
Qed.

Lemma optional_string_field_Get (o : value) (k : jsstring) (d : option jsstring) :
  optional_string_field o k = Some d
  ↔ Get o k = Ok (match d with Some s => VString s | None => VUndefined end).
Proof.
  unfold optional_string_field. split.
  - destruct (Get o k) as [[]|]; try done; by intros [= <-].
  - intros ->. by destruct d.
Qed.

(** An object that has dates under [createdAt] and [updatedAt] goes through
    the conversion unchanged. *)
Lemma rehydrate_dated `{!Platform} (o : value) (c u : Date) :
  date_field o (lit "createdAt") = Some c →
  date_field o (lit "updatedAt") = Some u →
  rehydrate o = Ok o.
Proof.
  rewrite !date_field_Get. intros Hc Hu.
  destruct o as [| |b|x|s|t|items|properties]; try done.
  cbn [Get] in Hc, Hu.
  destruct (lookup_property (lit "createdAt") properties) as [created|] eqn:Ec; [|done].
  destruct (lookup_property (lit "updatedAt") properties) as [updated|] eqn:Eu; [|done].
  cbn [default] in Hc, Hu. injection Hc as ->. injection Hu as ->.
  unfold rehydrate. cbn [Get own_properties]. rewrite Ec, Eu.
  cbn [default id mbind result_bind]. rewrite Date_new_VDate.
  cbn [mbind result_bind]. rewrite Date_new_VDate. cbn [mbind result_bind].
  rewrite (set_property_same properties (lit "createdAt")) by done.
  by rewrite set_property_same.
Qed.

Lemma Date_new_VString `{!Platform} (s : jsstring) : Date_new (VString s) = Ok (Date_parse s).
Proof. done. Qed.

Section KeyValue.
Context {S : Type} {storage : StorageArea S} {platform : Platform}.
Context {laws : PlatformRoundTrip} {store : KeyValueStorage S}.
Implicit Types (w : World S) (o : value).

Lemma lookup_json_properties (k : jsstring) (properties : list (jsstring * value)) :
  NoDup (map fst properties) →
  lookup_property k (omap (λ p, (λ x, (p.1, x)) <$> json_property p.2) properties)
  = lookup_property k properties ≫= json_property.
Proof.
  induction properties as [|[k' x] properties IH]; [done|].
  cbn [map fst]. intros [Hk' Hnd]%NoDup_cons.
  cbn [omap list_omap fst snd lookup_property].
  destruct (json_property x) as [y|] eqn:Ex; cbn [fmap option_fmap option_map].
  - cbn [lookup_property]. case_bool_decide; [by cbn; rewrite Ex|by apply IH].
  - rewrite (IH Hnd). case_bool_decide as Hk; [|done].
    subst k'. rewrite (lookup_property_None k properties) by done. cbn. by rewrite Ex.
Qed.

(** The conversion of what has come back of a record with valid dates: the
    dates are those of the record again, a text is still there, and a
    property that the record did not have, or had as [undefined], is not
    there. *)
Lemma rehydrate_similar (properties : list (jsstring * value)) o' (c u : Z) :
  NoDup (map fst properties) →
  lookup_property (lit "createdAt") properties = Some (VDate (Some c)) →
  (Z.abs c ≤ 8640000000000000)%Z →
  lookup_property (lit "updatedAt") properties = Some (VDate (Some u)) →
  (Z.abs u ≤ 8640000000000000)%Z →
  similar (json_image (VObject properties)) o' →
  ∃ o'',
    rehydrate o' = Ok o''
    ∧ (well_formed o' → well_formed o'')
    ∧ Get o'' (lit "createdAt") = Ok (VDate (Some c))
    ∧ Get o'' (lit "updatedAt") = Ok (VDate (Some u))
    ∧ ∀ k, k ≠ lit "createdAt" → k ≠ lit "updatedAt" →
        (∀ s, Get (VObject properties) k = Ok (VString s) → Get o'' k = Ok (VString s))
        ∧ (Get (VObject properties) k = Ok VUndefined → Get o'' k = Ok VUndefined).
Proof.
  intros Hnd Hc Hcv Hu Huv Hsim.
  unfold json_image in Hsim. cbn [json_property default] in Hsim.
  apply similar_object_inv in Hsim as (properties' & -> & Hsim).
  assert (∀ k, option_Forall2 similar (lookup_property k properties ≫= json_property)
                 (lookup_property k properties')) as Hlookup.
  { intros k. rewrite <- lookup_json_properties by done. apply Hsim. }
  clear Hsim.
  assert (lookup_property (lit "createdAt") properties'
          = Some (VString (Date_toISOString c))) as Hc'.
  { pose proof (Hlookup (lit "createdAt")) as H. rewrite Hc in H. cbn in H.
    inversion H as [x y Hxy|]. subst. by apply similar_string_inv in Hxy as ->. }
  assert (lookup_property (lit "updatedAt") properties'
          = Some (VString (Date_toISOString u))) as Hu'.
  { pose proof (Hlookup (lit "updatedAt")) as H. rewrite Hu in H. cbn in H.
    inversion H as [x y Hxy|]. subst. by apply similar_string_inv in Hxy as ->. }
  eexists. split_and!.
  - unfold rehydrate. cbn [Get own_properties]. rewrite Hc', Hu'.
    cbn [default id]. unfold mbind at 1, result_bind at 1.
    rewrite Date_new_VString, Date_roundtrip by done.
    unfold mbind at 1, result_bind at 1. unfold mbind at 1, result_bind at 1.
    rewrite Date_new_VString, Date_roundtrip by done. reflexivity.
  - intros Hwf. by repeat apply set_property_well_formed.
  - cbn [Get]. rewrite lookup_set_property_ne by discriminate.
    by rewrite lookup_set_property_eq.
  - cbn [Get]. by rewrite lookup_set_property_eq.
  - intros k Hkc Hku. cbn [Get]. rewrite !lookup_set_property_ne by done.
    pose proof (Hlookup k) as H. split.
    + intros s [= Hs].
      destruct (lookup_property k properties) as [x|]; cbn [default id] in Hs; [|done].
      subst x. cbn in H. inversion H as [x y Hxy|]. subst.
      by apply similar_string_inv in Hxy as ->.
    + intros [= Hk].
      destruct (lookup_property k properties) as [x|]; cbn [default id] in Hk.
      * subst x. cbn in H. by inversion H.
      * cbn in H. by inversion H.
Qed.

Lemma Template_rehydrate_similar o o' (t : Template) :
  well_formed o → Template_of_value o = Some t →
  valid_date (tpl_createdAt t) → valid_date (tpl_updatedAt t) →
  similar (json_image o) o' →
  ∃ o'', rehydrate o' = Ok o''
         ∧ (well_formed o' → well_formed o'')
         ∧ Template_of_value o'' = Some t.
Proof.
  intros Hwf Ht (c & Hc & Hcv) (u & Hu & Huv) Hsim.
  unfold Template_of_value in Ht.
  destruct (string_field o (lit "id")) as [id|] eqn:E1; [|done].
  destruct (string_field o (lit "title")) as [title|] eqn:E2; [|done].
  destruct (string_field o (lit "content")) as [content|] eqn:E3; [|done].
  destruct (date_field o (lit "createdAt")) as [createdAt|] eqn:E4; [|done].
  destruct (date_field o (lit "updatedAt")) as [updatedAt|] eqn:E5; [|done].
  cbn in Ht. injection Ht as <-. cbn in Hc, Hu. subst createdAt updatedAt.
  apply string_field_Get in E1, E2, E3. apply date_field_Get in E4, E5.
  destruct o as [| |b|x|s|d|items|properties]; try done.
  apply well_formed_object in Hwf as [Hnd _].
  destruct (rehydrate_similar properties o' c u) as (o'' & Hre & Hwf' & Hc' & Hu' & Hother);
    try done.
  { cbn [Get] in E4. by destruct (lookup_property _ properties) as [?|]; simplify_eq/=. }
  { cbn [Get] in E5. by destruct (lookup_property _ properties) as [?|]; simplify_eq/=. }
  exists o''. split_and!; [done..|].
  unfold Template_of_value.
  apply (Hother (lit "id")) in E1; [|done..].
  apply (Hother (lit "title")) in E2; [|done..].
  apply (Hother (lit "content")) in E3; [|done..].
  apply string_field_Get in E1, E2, E3. apply date_field_Get in Hc', Hu'.
  by rewrite E1, E2, E3, Hc', Hu'.
Qed.

Lemma Variable_rehydrate_similar o o' (v : Variable_) :
  well_formed o → Variable_of_value o = Some v →
  valid_date (var_createdAt v) → valid_date (var_updatedAt v) →
  similar (json_image o) o' →
  ∃ o'', rehydrate o' = Ok o''
         ∧ (well_formed o' → well_formed o'')
         ∧ Variable_of_value o'' = Some v.
Proof.
  intros Hwf Hv (c & Hc & Hcv) (u & Hu & Huv) Hsim.
  unfold Variable_of_value in Hv.
  destruct (string_field o (lit "id")) as [id|] eqn:E1; [|done].
  destruct (string_field o (lit "name")) as [name|] eqn:E2; [|done].
  destruct (string_field o (lit "value")) as [val|] eqn:E3; [|done].
  destruct (optional_string_field o (lit "description")) as [description|] eqn:E6; [|done].
  destruct (date_field o (lit "createdAt")) as [createdAt|] eqn:E4; [|done].
  destruct (date_field o (lit "updatedAt")) as [updatedAt|] eqn:E5; [|done].
  cbn in Hv. injection Hv as <-. cbn in Hc, Hu. subst createdAt updatedAt.
  apply string_field_Get in E1, E2, E3. apply date_field_Get in E4, E5.
  apply optional_string_field_Get in E6.
  destruct o as [| |b|x|s|d|items|properties]; try done.
  apply well_formed_object in Hwf as [Hnd _].
  destruct (rehydrate_similar properties o' c u) as (o'' & Hre & Hwf' & Hc' & Hu' & Hother);
    try done.
  { cbn [Get] in E4. by destruct (lookup_property _ properties) as [?|]; simplify_eq/=. }
  { cbn [Get] in E5. by destruct (lookup_property _ properties) as [?|]; simplify_eq/=. }
  exists o''. split_and!; [done..|].
  unfold Variable_of_value.
  apply (Hother (lit "id")) in E1; [|done..].
  apply (Hother (lit "name")) in E2; [|done..].
  apply (Hother (lit "value")) in E3; [|done..].
  assert (Get o'' (lit "description")
          = Ok (match description with Some s => VString s | None => VUndefined end)) as E6'.
  { destruct description as [s|]; by apply (Hother (lit "description")). }
  apply string_field_Get in E1, E2, E3. apply date_field_Get in Hc', Hu'.
  apply optional_string_field_Get in E6'.
  by rewrite E1, E2, E3, E6', Hc', Hu'.
Qed.

(** The same for a collection, read as records by [read]. *)
Lemma mapM_rehydrate_similar {A} (read : value → option A) (valid : A → Prop) :
  (∀ o o' a, well_formed o → read o = Some a → valid a → similar (json_image o) o' →
             ∃ o'', rehydrate o' = Ok o'' ∧ (well_formed o' → well_formed o'')
                    ∧ read o'' = Some a) →
  ∀ (os os' : list value) (records : list A),
    Forall well_formed os → mapM read os = Some records → Forall valid records →
    Forall2 similar (map json_image os) os' →
    ∃ os'', mapM rehydrate os' = Ok os''
            ∧ (Forall well_formed os' → Forall well_formed os'')
            ∧ mapM read os'' = Some records.
Proof.
  intros Hrecord os. induction os as [|o os IH]; intros os' records Hwf Hread Hvalid Hsim.
  - cbn in Hread. injection Hread as <-. inversion Hsim. subst. by exists [].
  - cbn [map] in Hsim. inversion Hsim as [|x o' xs os'0 Hoo' Hrest]. subst.
    apply Forall_cons in Hwf as [Hwfo Hwf].
    cbn [mapM] in Hread.
    destruct (read o) as [a|] eqn:Ea; [|done]. cbn in Hread.
    destruct (mapM read os) as [rs|] eqn:Ers; [|done]. cbn in Hread.
    injection Hread as <-. apply Forall_cons in Hvalid as [Hva Hvalid].
    destruct (Hrecord o o' a Hwfo Ea Hva Hoo') as (o'' & Ho'' & Hwf'' & Ha'').
    destruct (IH os'0 rs Hwf eq_refl Hvalid Hrest) as (os'' & Hos'' & Hwfs'' & Hrs'').
    exists (o'' :: os''). split_and!.
    + cbn [mapM]. rewrite Ho''. cbn [mbind result_bind]. by rewrite Hos''.
    + intros [? ?]%Forall_cons. constructor; auto.
    + cbn [mapM]. rewrite Ha''. cbn. by rewrite Hrs''.
Qed.

Lemma mapM_rehydrate_read {A} (read : value → option A) :
  (∀ o a, read o = Some a → rehydrate o = Ok o) →
  ∀ (os : list value) (records : list A),
    mapM read os = Some records → mapM rehydrate os = Ok os.
Proof.
  intros Hrecord os. induction os as [|o os IH]; intros records Hread; [done|].
  cbn [mapM] in Hread.
  destruct (read o) as [a|] eqn:Ea; [|done]. cbn in Hread.
  destruct (mapM read os) as [rs|] eqn:Ers; [|done].
  cbn [mapM]. rewrite (Hrecord o a Ea). cbn [mbind result_bind]. by rewrite (IH rs).
Qed.

Lemma rehydrate_Template o (t : Template) : Template_of_value o = Some t → rehydrate o = Ok o.
Proof.
  unfold Template_of_value. intros Ht.
  destruct (string_field o (lit "id")) as [id|]; [|done].
  destruct (string_field o (lit "title")) as [title|]; [|done].
  destruct (string_field o (lit "content")) as [content|]; [|done].
  destruct (date_field o (lit "createdAt")) as [createdAt|] eqn:E4; [|done].
  destruct (date_field o (lit "updatedAt")) as [updatedAt|] eqn:E5; [|done].
  by eapply rehydrate_dated.
Qed.

Lemma rehydrate_Variable o (v : Variable_) : Variable_of_value o = Some v → rehydrate o = Ok o.
Proof.
  unfold Variable_of_value. intros Hv.
  destruct (string_field o (lit "id")) as [id|]; [|done].
  destruct (string_field o (lit "name")) as [name|]; [|done].
  destruct (string_field o (lit "value")) as [val|]; [|done].
  destruct (optional_string_field o (lit "description")) as [description|]; [|done].
  destruct (date_field o (lit "createdAt")) as [createdAt|] eqn:E4; [|done].
  destruct (date_field o (lit "updatedAt")) as [updatedAt|] eqn:E5; [|done].
  by eapply rehydrate_dated.
Qed.

Lemma load_leaves_world key w : load key w = ((load key w).1, w).
Proof.
  destruct (load_settles key w) as [records ->]. cbn [fst].
  rewrite kv_get_leaves_area. by destruct w.
Qed.

Lemma getAllData_leaves_world w :
  getAllData w
  = (match (getTemplates w).1, (getVariables w).1 with
     | Ok x, Ok y => Ok (x, y)
     | Throw e, _ => Throw e
     | _, Throw e => Throw e
     end, w).
Proof.
  unfold getAllData, Promise_all, getTemplates, getVariables.
  rewrite (load_leaves_world STORAGE_KEYS_TEMPLATES w).
  by rewrite (load_leaves_world STORAGE_KEYS_VARIABLES w).
Qed.

(** What [load] gives after a write of a collection whose records have valid
    dates: the same records, whether the area kept the objects or what JSON
    keeps of them. *)
Lemma load_after_set {A} (read : value → option A) (valid : A → Prop)
    (key : jsstring) (saved : list value) (records : list A) (s s' : S) w :
  (∀ o a, read o = Some a → rehydrate o = Ok o) →
  (∀ o o' a, well_formed o → read o = Some a → valid a → similar (json_image o) o' →
             ∃ o'', rehydrate o' = Ok o'' ∧ (well_formed o' → well_formed o'')
                    ∧ read o'' = Some a) →
  storage_set [(key, VArray saved)] s = (Ok (), s') →
  (storage_get key (area w)).1 = (storage_get key s').1 →
  Forall well_formed saved → mapM read saved = Some records → Forall valid records →
  ∃ loaded, (load key w).1 = Ok loaded ∧ mapM read loaded = Some records.
Proof.
  intros Hkept Hback Hset Hget Hwf Hread Hvalid.
  destruct (kv_get_after_set _ _ _ _ Hset) as (items & stored & Hitems & Hstored & Hcases).
  rewrite <- Hget in Hitems.
  destruct Hcases as [->|Hsim].
  - rewrite (load_stored _ _ _ _ Hitems Hstored).
    rewrite (mapM_rehydrate_read read Hkept saved records Hread). by exists saved.
  - unfold json_image in Hsim. cbn [json_property default] in Hsim.
    apply similar_array_inv in Hsim as (back & -> & Hsim).
    destruct (mapM_rehydrate_similar read valid Hback saved back records Hwf Hread Hvalid Hsim)
      as (loaded & Hloaded & _ & Hrecords).
    rewrite (load_stored _ _ _ _ Hitems Hstored). rewrite Hloaded. by exists loaded.
Qed.

Lemma importData_collections jsonData w parsed ts vs ts' vs' :
  JSON_parse jsonData = Ok parsed →
  Get parsed (lit "templates") = Ok (VArray ts) →
  Get parsed (lit "variables") = Ok (VArray vs) →
  mapM rehydrate ts = Ok ts' →
  mapM rehydrate vs = Ok vs' →
  importData jsonData w
  = match saveAllData (ts', vs') w with
    | (Ok x, w') => (Ok x, w')
    | (Throw _, w') => (Throw import_failure, w')
    end.
Proof.
  intros E Et Ev Hts Hvs.
  unfold importData, try_catch, mbind, Async_bind, sync, mret, Async_ret, throw.
  rewrite E. cbn match. rewrite Et, Ev. cbn [truthy negb Array_map].
  rewrite Hts, Hvs.
  by destruct (saveAllData (ts', vs') w) as [[[]|e] w1].
Qed.

Lemma export_object_well_formed (ts vs : list value) (now : Z) :
  Forall well_formed ts → Forall well_formed vs →
  well_formed (export_object (ts, vs) now).
Proof.
  intros Hts Hvs. apply well_formed_object. split.
  - apply (bool_decide_unpack _). by vm_compute.
  - repeat constructor; cbn [snd fst]; by apply well_formed_array.
Qed.

End KeyValue.

(** ** The reference platform reads back what it writes *)

(** [JSON_parse] reads the text that [JSON_stringify] wrote for a value
    back as what JSON keeps of the value. *)
Lemma Reference_JSON_roundtrip (v : value) :
  well_formed v → is_Some (json_property v) →
  ∃ v', Reference.JSON_parse (Reference.JSON_stringify v) = Ok v'
        ∧ similar (json_image v) v' ∧ well_formed v'.
Proof.
  intros Hwf [image Himage].
  destruct (Reference.serialize [] v) as [text|] eqn:E.
  2:{ apply serialize_None in E as ->. done. }
  destruct (parse_serialize v [] text) as (v' & Hsim & Hwf' & [_ Hparse]);
    [constructor|done|done|].
  exists v'. split_and!; [|done..].
  unfold Reference.JSON_stringify, Reference.JSON_parse. rewrite E. cbn [default id].
  specialize (Hparse (2 * length text + 2)%nat [] ltac:(lia) I).
  rewrite app_nil_r in Hparse. by rewrite Hparse.
Qed.

(** The reference platform reads back every valid date and every value. *)
Lemma Reference_platform_roundtrip : @PlatformRoundTrip Reference.platform.
Proof.
  split.
  - exact Reference_Date_roundtrip.
  - exact Reference_JSON_roundtrip.
Qed.

(** ** Key-value stores *)

(** A storage area that returns the very value written is a key-value
    store. *)
Lemma lawful_key_value (S : Type) `{!StorageArea S} `{!Platform} :
  LawfulStorage S → KeyValueStorage S.
Proof.
  intros lawful. split.
  - apply get_leaves_area.
  - intros key v s s' Hset.
    destruct (get_after_set _ _ _ _ Hset) as (items & Hget & Hitems).
    exists items, v. by split_and!; [..|left].
  - apply get_after_set_other.
Qed.

Lemma Forall2_same {A} (R : A → A → Prop) (l : list A) :
  Forall (λ x, R x x) l → Forall2 R l l.
Proof. induction 1; by constructor. Qed.

(** What JSON keeps of a value comes back as itself. *)
Lemma similar_json_image `{!Platform} (v : value) : similar (json_image v) (json_image v).
Proof.
  induction v as [| |b|x|s|[t|]|items IH|properties IH] using value_ind';
    unfold json_image; cbn [json_property default]; try by constructor.
  - destruct (PrimFloat.is_finite x); constructor.
  - constructor. apply Forall2_same, Forall_map. exact IH.
  - constructor. apply similar_lookup, Forall2_same.
    induction IH as [|[k x] properties Hx _ IHp]; [constructor|].
    cbn [omap list_omap fst snd].
    destruct (json_property x) as [y|] eqn:Ex; cbn [fmap option_fmap option_map];
      [|exact IHp].
    constructor; [|exact IHp]. split; [done|].
    cbn [snd] in Hx |- *. unfold json_image in Hx. by rewrite Ex in Hx.
Qed.

(** So is the area that stores what JSON keeps of a value. *)
Lemma json_area_key_value : @KeyValueStorage _ json_area Reference.platform.
Proof.
  split.
  - done.
  - intros key v s s' [= <-].
    cbn [map foldl fst snd storage_get json_area Reference.map_area].
    rewrite lookup_insert_eq. eexists _, _. split_and!; [done| |right; apply similar_json_image].
    cbn [Get lookup_property]. by rewrite bool_decide_true.
  - intros key key' v s s' Hne [= <-].
    cbn [map foldl fst snd storage_get json_area Reference.map_area].
    by rewrite lookup_insert_ne.
Qed.

